(** * talos-node-discovery: address enumeration, reachability probing and
      membership reconciliation

    A shallow embedding of the Go sources
      - [probe.IpsFromCIDR], [probe.IpsFromCidrs], [probe.nextIP]
      - [main.dialTalosHosts] and [main.main] from the enumeration of the
        range to the joins, with its reconciliation loop
      - [talos.extractInternalIP], [talos.parseMembers],
        [talos.parseMembersTable], [talos.GetMembers], [talos.WorkerJoin]
    together with the parts of Go's standard [net], [strings] and
    [strconv] packages they call. *)

From Stdlib Require Import ZArith Lia List String Ascii Bool DecimalString.
From stdpp Require Import base decidable option list strings relations.

Local Open Scope string_scope.
Local Open Scope list_scope.
Local Open Scope Z_scope.

(* ===================================================================== *)
(** ** Go's [net] package, as far as the program uses it                  *)
(* ===================================================================== *)

(** [net.IP] and [net.IPMask] are byte slices.  A byte is a [Z] in
    [0, 256); a nil slice is the empty list. *)
Module net.

Abbreviation IP := (list Z).
Abbreviation IPMask := (list Z).

Definition IPv4len : nat := 4.
Definition IPv6len : nat := 16.

Definition v4InV6Prefix : list Z := [0; 0; 0; 0; 0; 0; 0; 0; 0; 0; 255; 255].

Record IPNet := mkIPNet { net_IP : IP; net_Mask : IPMask }.

(** [*net.ParseError], the only error [net.ParseCIDR] returns. *)
Record ParseError := mkParseError { Type_ : string; Text : string }.

Definition isZeros (p : list Z) : bool := forallb (Z.eqb 0) p.
Definition allFF (p : list Z) : bool := forallb (Z.eqb 255) p.

(** [ip.To4()]; [None] is the nil result. *)
Definition To4 (ip : IP) : option IP :=
  if (length ip =? IPv4len)%nat then Some ip
  else if (length ip =? IPv6len)%nat && isZeros (take 10 ip)
          && (ip !!! 10%nat =? 255) && (ip !!! 11%nat =? 255)
       then Some (drop 12 ip)
       else None.

(** [ip.Mask(mask)]; [None] is the nil result. *)
Definition IP_Mask (ip : IP) (mask : IPMask) : option IP :=
  let mask := if (length mask =? IPv6len)%nat && (length ip =? IPv4len)%nat
                 && allFF (take 12 mask)
              then drop 12 mask else mask in
  let ip := if (length mask =? IPv4len)%nat && (length ip =? IPv6len)%nat
               && bool_decide (take 12 ip = v4InV6Prefix)
            then drop 12 ip else ip in
  if (length ip =? length mask)%nat then Some (zip_with Z.land ip mask)
  else None.

(** [net.CIDRMask(ones, bits)]: the loop over the [l = bits/8] mask bytes,
    [n] being the number of one-bits still to place. *)
Fixpoint CIDRMask_loop (l : nat) (n : Z) : IPMask :=
  match l with
  | O => []
  | S l' =>
      if 8 <=? n then 255 :: CIDRMask_loop l' (n - 8)
      else Z.lxor 255 (Z.shiftr 255 n) :: CIDRMask_loop l' 0
  end.

Definition CIDRMask (ones bits : Z) : option IPMask :=
  if negb (bits =? 8 * Z.of_nat IPv4len) && negb (bits =? 8 * Z.of_nat IPv6len)
  then None
  else if (ones <? 0) || (bits <? ones) then None
  else Some (CIDRMask_loop (Z.to_nat (bits / 8)) ones).

(** [networkNumberAndMask(n)]; [None] is the pair of nils. *)
Definition networkNumberAndMask (n : IPNet) : option (IP * IPMask) :=
  let oip := match To4 (net_IP n) with
             | Some ip => Some ip
             | None => if (length (net_IP n) =? IPv6len)%nat
                       then Some (net_IP n) else None
             end in
  match oip with
  | None => None
  | Some ip =>
      let m := net_Mask n in
      if (length m =? IPv4len)%nat then
        if (length ip =? IPv4len)%nat then Some (ip, m) else None
      else if (length m =? IPv6len)%nat then
        if (length ip =? IPv4len)%nat then Some (ip, drop 12 m) else Some (ip, m)
      else None
  end.

(** The byte-wise comparison at the end of [IPNet.Contains]. *)
Definition masked_eq (nn : IP) (m : IPMask) (ip : IP) : bool :=
  forallb (fun i => Z.land (nn !!! i) (m !!! i) =? Z.land (ip !!! i) (m !!! i))
          (seq 0 (length ip)).

(** [n.Contains(ip)]. *)
Definition Contains (n : IPNet) (ip : IP) : bool :=
  let '(nn, m) := default ([], []) (networkNumberAndMask n) in
  let ip := match To4 ip with Some x => x | None => ip end in
  if negb (length ip =? length nn)%nat then false
  else masked_eq nn m ip.

(** [netip.Addr] without a zone: an IPv4 address (32-bit value) or an
    IPv6 address (128-bit value). *)
Inductive Addr :=
| Addr4 (v : Z)
| Addr6 (v : Z).

Definition BitLen (a : Addr) : Z :=
  match a with Addr4 _ => 32 | Addr6 _ => 128 end.

(** Big-endian bytes of [v], [n] of them. *)
Fixpoint be_bytes (n : nat) (v : Z) : list Z :=
  match n with
  | O => []
  | S n' => (v / 256 ^ Z.of_nat n') mod 256 :: be_bytes n' v
  end.

(** Big-endian value of a byte list. *)
Definition be_val (bs : list Z) : Z :=
  fold_left (fun acc b => acc * 256 + b) bs 0.

(** [a.As16()]: an IPv4 address comes out in its IPv4-mapped form. *)
Definition As16 (a : Addr) : IP :=
  match a with
  | Addr4 v => v4InV6Prefix ++ be_bytes 4 v
  | Addr6 v => be_bytes 16 v
  end.

(** [dtoi]: decimal to integer, with the number of characters consumed.
    [big = 0xFFFFFF] caps the value. *)
Definition big : Z := 16777215.

Definition is_digit (c : ascii) : bool :=
  (48 <=? nat_of_ascii c)%nat && (nat_of_ascii c <=? 57)%nat.

Fixpoint dtoi_loop (s : string) (n : Z) (i : nat) : Z * nat * bool :=
  match s with
  | String c s' =>
      if is_digit c then
        let n' := n * 10 + (Z.of_nat (nat_of_ascii c) - 48) in
        if big <=? n' then (big, i, false) else dtoi_loop s' n' (S i)
      else if (i =? 0)%nat then (0, 0%nat, false) else (n, i, true)
  | EmptyString => if (i =? 0)%nat then (0, 0%nat, false) else (n, i, true)
  end.

Definition dtoi (s : string) : Z * nat * bool := dtoi_loop s 0 0%nat.

(** [s[:i], s[i+1:]] for the first index [i] of the byte [c] in [s]. *)
Fixpoint cut (c : ascii) (s : string) : option (string * string) :=
  match s with
  | EmptyString => None
  | String a s' =>
      if Ascii.eqb a c then Some (EmptyString, s')
      else match cut c s' with
           | Some (l, r) => Some (String a l, r)
           | None => None
           end
  end.

(** Decimal text of one byte, as [netip] prints an octet. *)
Definition digit (d : Z) : ascii := ascii_of_nat (48 + Z.to_nat d).

Definition octet (b : Z) : string :=
  let hundreds := if 100 <=? b then String (digit (b / 100)) "" else "" in
  let tens := if 10 <=? b then String (digit (b / 10 mod 10)) "" else "" in
  (hundreds ++ tens ++ String (digit (b mod 10)) "")%string.

Definition dotted (p4 : IP) : string :=
  (octet (p4 !!! 0%nat) ++ "." ++ octet (p4 !!! 1%nat) ++ "."
   ++ octet (p4 !!! 2%nat) ++ "." ++ octet (p4 !!! 3%nat))%string.

(** The textual side of the library is a parameter of the development:
    [ParseAddr s] is [netip.ParseAddr(s)] restricted to the results that
    have no zone ([None] otherwise), and [String_other ip] is what
    [ip.String()] prints for a non-empty [ip] that is not an IPv4 address
    (the IPv6 text, or the hexadecimal dump of a slice of another length). *)
Class TextLib := {
  ParseAddr : string -> option Addr;
  String_other : IP -> string
}.

Section WithTextLib.
Context `{TextLib}.

(** [net.ParseIP(s)]; [None] is the nil result. *)
Definition ParseIP (s : string) : option IP :=
  match ParseAddr s with
  | Some a => Some (As16 a)
  | None => None
  end.

(** [net.ParseCIDR(s)], second and third result. *)
Definition ParseCIDR (s : string) : ParseError + IPNet :=
  let err := inl (mkParseError "CIDR address" s) in
  match cut "/"%char s with
  | None => err
  | Some (addr, mask) =>
      match ParseAddr addr with
      | None => err
      | Some ipAddr =>
          let '(n, i, ok) := dtoi mask in
          if negb ok || negb (i =? String.length mask)%nat
             || (n <? 0) || (BitLen ipAddr <? n)
          then err
          else
            let m := default [] (CIDRMask n (BitLen ipAddr)) in
            inr (mkIPNet (default [] (IP_Mask (As16 ipAddr) m)) m)
      end
  end.

(** [ip.String()]. *)
Definition IP_String (ip : IP) : string :=
  if (length ip =? 0)%nat then "<nil>"
  else if negb (length ip =? IPv4len)%nat && negb (length ip =? IPv6len)%nat
  then String_other ip
  else match To4 ip with
       | Some p4 => dotted p4
       | None => String_other ip
       end.

End WithTextLib.

End net.

(* ===================================================================== *)
(** ** Package [probe]: the address enumerator                            *)
(* ===================================================================== *)

Module probe.
Import net.

(** [nextIP(ip)]: the loop [for j := len(ip)-1; j >= 0; j--], with
    [j1 = j + 1]; the byte increment wraps at 256. *)
Fixpoint nextIP_loop (j1 : nat) (ip : IP) : IP :=
  match j1 with
  | O => ip
  | S j =>
      let ip' := <[j := (ip !!! j + 1) mod 256]> ip in
      if negb (ip' !!! j =? 0) then ip' else nextIP_loop j ip'
  end.

Definition nextIP (ip : IP) : IP := nextIP_loop (length ip) ip.

(** [ips[lo:hi]]. *)
Definition slice {A} (lo hi : nat) (l : list A) : list A :=
  take (hi - lo) (drop lo l).

(** [strings.Split(s, sep)] for a one-byte separator. *)
Fixpoint Split (sep : ascii) (s : string) : list string :=
  match s with
  | EmptyString => [EmptyString]
  | String a s' =>
      if Ascii.eqb a sep then EmptyString :: Split sep s'
      else match Split sep s' with
           | x :: r => String a x :: r
           | [] => [String a EmptyString]
           end
  end.

Section WithTextLib.
Context `{TextLib}.

(** The loop [for ip := ...; ipnet.Contains(ip); nextIP(ip)] with its
    body [ips = append(ips, ip.String())].  The loop has no bound of its
    own, so the embedding counts iterations: [None] when [fuel] tests of
    the condition were not enough for the loop to exit. *)
Fixpoint enum_loop (fuel : nat) (ipnet : IPNet) (ip : IP) (ips : list string)
  : option (list string) :=
  match fuel with
  | O => None
  | S fuel' =>
      if Contains ipnet ip
      then enum_loop fuel' ipnet (nextIP ip) (ips ++ [IP_String ip])
      else Some ips
  end.

(** The start value [ipnet.IP.Mask(ipnet.Mask)]. *)
Definition first_ip (ipnet : IPNet) : IP :=
  default [] (IP_Mask (net_IP ipnet) (net_Mask ipnet)).

(** The boundary rule shared by both functions:
    [len(ips) > 2 && ipnet.IP.To4() != nil] selects [ips[1:len(ips)-1]]. *)
Definition trim (ipnet : IPNet) (ips : list string) : list string :=
  if (2 <? length ips)%nat && bool_decide (is_Some (To4 (net_IP ipnet)))
  then slice 1 (length ips - 1) ips
  else ips.

(** [IpsFromCIDR(cidr)]: the pair of results, or [None] when the
    enumeration loop did not exit within [fuel] tests. *)
Definition IpsFromCIDR (fuel : nat) (cidr : string)
  : option (list string * option ParseError) :=
  match ParseCIDR cidr with
  | inl err => Some ([], Some err)
  | inr ipnet =>
      match enum_loop fuel ipnet (first_ip ipnet) [] with
      | None => None
      | Some ips => Some (trim ipnet ips, None)
      end
  end.

(** The loop of [IpsFromCidrs] over [cidrsList], [allIps] accumulating. *)
Fixpoint IpsFromCidrs_loop (fuel : nat) (cidrsList : list string)
    (allIps : list string) : option (list string * option ParseError) :=
  match cidrsList with
  | [] => Some (allIps, None)
  | cidr :: rest =>
      match ParseCIDR cidr with
      | inl err => Some ([], Some err)
      | inr ipnet =>
          match enum_loop fuel ipnet (first_ip ipnet) [] with
          | None => None
          | Some ips =>
              if (2 <? length ips)%nat && bool_decide (is_Some (To4 (net_IP ipnet)))
              then IpsFromCidrs_loop fuel rest (allIps ++ slice 1 (length ips - 1) ips)
              else IpsFromCidrs_loop fuel rest (allIps ++ ips)
          end
      end
  end.

(** [IpsFromCidrs(cidrs)]; every range's loop gets the same [fuel]. *)
Definition IpsFromCidrs (fuel : nat) (cidrs : string)
  : option (list string * option ParseError) :=
  IpsFromCidrs_loop fuel (Split ","%char cidrs) [].

End WithTextLib.

End probe.

(* ===================================================================== *)
(** ** Go's [strings] package, on ASCII text                              *)
(* ===================================================================== *)

(** [Trim] with an ASCII cutset and [Index] work on bytes in the library
    as they do here.  [TrimSpace] and [Fields] are the ASCII paths of the
    library functions: what the library computes on a text without a
    byte above 127, which is what the table parser is stated for. *)
Module strings.

(** The table [asciiSpace]: tab, line feed, vertical tab, form feed,
    carriage return and space. *)
Definition asciiSpace (c : ascii) : bool :=
  let n := nat_of_ascii c in
  ((9 <=? n)%nat && (n <=? 13)%nat) || (n =? 32)%nat.

(** Dropping the leading bytes, and the trailing bytes, that satisfy [f]. *)
Fixpoint trimLeft (f : ascii -> bool) (s : string) : string :=
  match s with
  | EmptyString => EmptyString
  | String c s' => if f c then trimLeft f s' else s
  end.

Fixpoint trimRight (f : ascii -> bool) (s : string) : string :=
  match s with
  | EmptyString => EmptyString
  | String c s' =>
      match trimRight f s' with
      | EmptyString => if f c then EmptyString else String c EmptyString
      | r => String c r
      end
  end.

(** [strings.TrimSpace(s)]. *)
Definition TrimSpace (s : string) : string :=
  trimRight asciiSpace (trimLeft asciiSpace s).

(** [strings.Trim(s, cutset)] for a cutset of ASCII bytes, given as the
    test of membership. *)
Definition Trim (s : string) (cutset : ascii -> bool) : string :=
  trimLeft cutset (trimRight cutset s).

(** [strings.Fields(s)]: the maximal runs of bytes that are not spaces. *)
Fixpoint Fields (s : string) : list string :=
  match s with
  | EmptyString => []
  | String c s' =>
      if asciiSpace c then Fields s'
      else
        match s' with
        | EmptyString => [String c EmptyString]
        | String d _ =>
            if asciiSpace d then String c EmptyString :: Fields s'
            else match Fields s' with
                 | x :: r => String c x :: r
                 | [] => [String c EmptyString]
                 end
        end
  end.

(** [strings.Index(s, c)] for a one-byte [c]; [None] is [-1]. *)
Fixpoint Index (c : ascii) (s : string) : option nat :=
  match s with
  | EmptyString => None
  | String a s' =>
      if Ascii.eqb a c then Some 0%nat
      else match Index c s' with
           | Some i => Some (S i)
           | None => None
           end
  end.

(** Every byte is below 128. *)
Fixpoint ascii_text (s : string) : bool :=
  match s with
  | EmptyString => true
  | String c s' => (nat_of_ascii c <? 128)%nat && ascii_text s'
  end.

End strings.

(* ===================================================================== *)
(** ** Package [talos]: cluster members                                   *)
(* ===================================================================== *)

Module talos.
Import net.

Record Member := mkMember {
  Node : string;
  Namespace : string;
  Type_ : string;
  ID : string;
  Version : string;
  Hostname : string;
  MachineType : string;
  OS : string;
  Addresses : list string;
  InternalIP : string
}.

(** The local types of [parseMembers]. *)
Record Metadata := mkMetadata {
  md_ID : string;
  md_Namespace : string;
  md_Type : string;
  md_Version : Z
}.

Record Spec := mkSpec {
  sp_NodeID : string;
  sp_Addresses : list string;
  sp_Hostname : string;
  sp_MachineType : string;
  sp_OperatingSystem : string
}.

Record MemberResponse := mkMemberResponse {
  r_Metadata : Metadata;
  r_Node : string;
  r_Spec : Spec
}.

(** [fmt.Sprintf("%d", n)]. *)
Definition Sprintf_d (n : Z) : string :=
  DecimalString.NilZero.string_of_int (Z.to_int n).

Section WithTextLib.
Context `{TextLib}.

(** The test [ip != nil && ip.To4() != nil] on [ip := net.ParseIP(addr)]. *)
Definition parses_as_IPv4 (addr : string) : bool :=
  match ParseIP addr with
  | Some ip => bool_decide (is_Some (To4 ip))
  | None => false
  end.

(** The loop of [extractInternalIP]: the first address that passes. *)
Fixpoint first_IPv4 (addresses : list string) : option string :=
  match addresses with
  | [] => None
  | addr :: rest => if parses_as_IPv4 addr then Some addr else first_IPv4 rest
  end.

Definition extractInternalIP (addresses : list string) : string :=
  match first_IPv4 addresses with
  | Some addr => addr
  | None =>
      match addresses with
      | addr0 :: _ => addr0
      | [] => EmptyString
      end
  end.

(** The struct literal of [parseMembers], lines 104-115. *)
Definition member_of (result : MemberResponse) : Member :=
  {| Node := r_Node result;
     Namespace := md_Namespace (r_Metadata result);
     Type_ := md_Type (r_Metadata result);
     ID := md_ID (r_Metadata result);
     Version := Sprintf_d (md_Version (r_Metadata result));
     Hostname := sp_Hostname (r_Spec result);
     MachineType := sp_MachineType (r_Spec result);
     OS := sp_OperatingSystem (r_Spec result);
     Addresses := sp_Addresses (r_Spec result);
     InternalIP := extractInternalIP (sp_Addresses (r_Spec result)) |}.

(** [parseMembers] over the stream of decoded objects: [decoder.Decode]
    yields a [MemberResponse] or fails ([None]), and the first failure
    ends the call with an error and no members. *)
Fixpoint parseMembers_loop (decoded : list (option MemberResponse))
    (members : list Member) : option (list Member) :=
  match decoded with
  | [] => Some members
  | None :: _ => None
  | Some result :: rest => parseMembers_loop rest (members ++ [member_of result])
  end.

Definition parseMembers (decoded : list (option MemberResponse))
  : option (list Member) :=
  parseMembers_loop decoded [].

End WithTextLib.

(** *** The table parser [parseMembersTable] *)

(** The cutset of line 167: the double quote and the space. *)
Definition quote : ascii := ascii_of_nat 34.

Definition quote_or_space (c : ascii) : bool :=
  Ascii.eqb c quote || Ascii.eqb c " ".

(** Lines 160-169: the addresses of a row.  [None] is the run-time panic
    of the slice expression [line[addressesStart+1 : addressesEnd]] when
    its bounds are out of order; a row without both brackets has the nil
    slice. *)
Definition table_addresses (line : string) : option (list string) :=
  match strings.Index "[" line, strings.Index "]" line with
  | Some addressesStart, Some addressesEnd =>
      if (addressesEnd <? addressesStart + 1)%nat then None
      else
        let addressesStr :=
          String.substring (addressesStart + 1)
                           (addressesEnd - (addressesStart + 1)) line in
        Some (map (fun addr => strings.Trim addr quote_or_space)
                  (probe.Split "," addressesStr))
  | _, _ => Some []
  end.

Section Table.
Context `{TextLib}.
(** [unpack_Do slice k]: the values of the [k] string variables, all
    empty before, after [unpack.Do(slice, &v1, ..., &vk)]. *)
Variable unpack_Do : list string -> nat -> list string.

(** Lines 171-185. *)
Definition table_member (fields : list string) (addresses : list string)
  : Member :=
  let vars := unpack_Do fields 8 in
  {| Node := nth 0 fields EmptyString;
     Namespace := nth 1 vars EmptyString;
     Type_ := nth 2 vars EmptyString;
     ID := nth 3 vars EmptyString;
     Version := nth 4 vars EmptyString;
     Hostname := nth 5 vars EmptyString;
     MachineType := nth 6 vars EmptyString;
     OS := nth 7 vars EmptyString;
     Addresses := addresses;
     InternalIP := extractInternalIP addresses |}.

(** The loop of lines 147-188 over the lines after the header; [None]
    is the panic. *)
Fixpoint parseMembersTable_loop (lines : list string) (members : list Member)
  : option (list Member) :=
  match lines with
  | [] => Some members
  | l :: rest =>
      let line := strings.TrimSpace l in
      if String.eqb line EmptyString then parseMembersTable_loop rest members
      else
        let fields := strings.Fields line in
        if (length fields <? 9)%nat then parseMembersTable_loop rest members
        else
          match table_addresses line with
          | None => None
          | Some addresses =>
              parseMembersTable_loop rest
                (members ++ [table_member fields addresses])
          end
  end.

Inductive table_result :=
| TablePanic
| TableError (msg : string)
| TableMembers (members : list Member).

(** The lines of the table: line 140. *)
Definition table_lines (data : string) : list string :=
  probe.Split "010" (strings.TrimSpace data).

Definition parseMembersTable (data : string) : table_result :=
  let lines := table_lines data in
  if (length lines <? 2)%nat
  then TableError "invalid output: expected at least 2 lines"
  else
    match parseMembersTable_loop (tail lines) [] with
    | None => TablePanic
    | Some members => TableMembers members
    end.

End Table.

(** How a [talosctl] command run with [cmd.CombinedOutput()] ends: with a
    nil error and its output, with an error after the deadline of the
    command context has passed, or with another error. *)
Inductive cmd_result (A : Type) :=
| Finished (output : A)
| DeadlineExceeded
| Failed.
Arguments Finished {A} output.
Arguments DeadlineExceeded {A}.
Arguments Failed {A}.

(** The errors the two commands return, by the text they begin with. *)
Inductive Error :=
| TimedOut      (* "command timed out after ..." *)
| ExecFailed    (* "failed to execute talosctl: ..." *)
| ParseFailed   (* "failed to parse members: ..." *)
| JoinFailed.   (* "failed to join worker: ..." *)

(** [GetMembers], lines 54-68, on the way [talosctl get members -o json]
    ended; its output is given as the stream of decoded objects.  [inl]
    is the result [nil, err]. *)
Definition GetMembers `{TextLib}
    (cmd : cmd_result (list (option MemberResponse))) : Error + list Member :=
  match cmd with
  | Finished output =>
      match parseMembers output with
      | Some members => inr members
      | None => inl ParseFailed
      end
  | DeadlineExceeded => inl TimedOut
  | Failed => inl ExecFailed
  end.

(** [WorkerJoin], lines 201-209, on the way [talosctl apply-config]
    ended; [None] is the nil error. *)
Definition WorkerJoin (cmd : cmd_result unit) : option Error :=
  match cmd with
  | Finished _ => None
  | DeadlineExceeded => Some TimedOut
  | Failed => Some JoinFailed
  end.

End talos.

(* ===================================================================== *)
(** ** Go's [strconv.Atoi]                                                *)
(* ===================================================================== *)

Module strconv.
Import net.

(** The value of a run of decimal digits, [None] when a character is not
    a digit. *)
Fixpoint digits (s : string) (n : Z) : option Z :=
  match s with
  | EmptyString => Some n
  | String c s' =>
      if is_digit c then digits s' (n * 10 + (Z.of_nat (nat_of_ascii c) - 48))
      else None
  end.

(** [strconv.Atoi(s)] with a 64-bit [int]: an optional sign, then at
    least one digit and nothing but digits, the value within the range of
    the type; [None] is a non-nil error. *)
Definition Atoi (s : string) : option Z :=
  let '(neg, body) :=
    match s with
    | String "-" r => (true, r)
    | String "+" r => (false, r)
    | _ => (false, s)
    end in
  match body with
  | EmptyString => None
  | _ =>
      match digits body 0 with
      | None => None
      | Some n =>
          let v := if neg : bool then - n else n in
          if (- 2 ^ 63 <=? v) && (v <=? 2 ^ 63 - 1) then Some v else None
      end
  end.

End strconv.

(* ===================================================================== *)
(** ** Package [main]: the reconciler and the prober                      *)
(* ===================================================================== *)

Module main.
Import net.

(** [slices.Contains(s, v)] on strings. *)
Fixpoint slices_Contains (s : list string) (v : string) : bool :=
  match s with
  | [] => false
  | x :: s' => if String.eqb x v then true else slices_Contains s' v
  end.

(** The inner loop of the reconciler, lines 130-136. *)
Fixpoint isExistingMember (members : list talos.Member) (talosHost : string)
  : bool :=
  match members with
  | [] => false
  | member :: rest =>
      if String.eqb (talos.InternalIP member) talosHost then true
      else isExistingMember rest talosHost
  end.

Section WithTextLib.
Context `{TextLib}.

(** One iteration of the loop of lines 116-142. *)
Definition reconcile_step (members : list talos.Member)
    (newMemberIps : list string) (talosHost : string) : list string :=
  if slices_Contains newMemberIps talosHost then newMemberIps
  else
    match ParseIP talosHost with
    | None => newMemberIps
    | Some ip =>
        match To4 ip with
        | None => newMemberIps
        | Some _ =>
            if negb (isExistingMember members talosHost)
            then newMemberIps ++ [talosHost]
            else newMemberIps
        end
    end.

(** The loop from a given accumulator, and the whole reconciler, which
    starts from the nil slice. *)
Definition reconcile_from (members : list talos.Member)
    (newMemberIps : list string) (talosHostsInCidr : list string) : list string :=
  fold_left (reconcile_step members) talosHostsInCidr newMemberIps.

Definition reconcile (talosHostsInCidr : list string)
    (members : list talos.Member) : list string :=
  reconcile_from members [] talosHostsInCidr.

End WithTextLib.

(** *** The prober [dialTalosHosts]

    The function starts one goroutine per address of a batch and waits
    for the batch at [wg.Wait()].  The embedding is an interleaving
    semantics: a state holds the position of the calling goroutine, the
    position of every goroutine started so far, the mutex [mu], the
    counter of [wg], the shared slice [talosHosts], and the connection
    attempts issued so far.  A scheduler picks which thread moves. *)

(** Positions of a worker goroutine (lines 46-56). *)
Inductive goroutine :=
| GDial (ip : string)     (* before [probe.DialAddress], line 48 *)
| GLock (ip : string)     (* the dial succeeded; before [mu.Lock()] *)
| GAppend (ip : string)   (* holds [mu]; before the append, line 54 *)
| GUnlock (ip : string)   (* holds [mu]; before [mu.Unlock()] *)
| GRet (ip : string)      (* returning; the deferred [wg.Done()] is next *)
| GDone (ip : string).    (* finished *)

Definition g_ip (g : goroutine) : string :=
  match g with
  | GDial ip | GLock ip | GAppend ip | GUnlock ip | GRet ip | GDone ip => ip
  end.

Definition g_done (g : goroutine) : bool :=
  match g with GDone _ => true | _ => false end.

Definition g_critical (g : goroutine) : bool :=
  match g with GAppend _ | GUnlock _ => true | _ => false end.

(** Positions of the calling goroutine. *)
Inductive mainpc :=
| MLoop (i : nat)                       (* loop head, line 33 *)
| MSpawn (i : nat) (rest : list string) (* in [for _, ip := range batch] *)
| MWait (i : nat)                       (* at [wg.Wait()], line 59 *)
| MReturn                               (* [return talosHosts, nil] *)
| MFatal (msg : string).                (* [log.Fatal]: the process exits *)

Record state := mkState {
  pc : mainpc;
  gs : list goroutine;
  mu : bool;
  wg : Z;
  talosHosts : list string;
  dialed : list string
}.

Inductive thread :=
| Main
| Go (k : nat).

Definition fatal_msg : string := "batch size cannot be less than or equal to 0".

(** Lines 20-22: the guard on [batchSize]. *)
Definition invalid_batch (batchSize : Z) : bool :=
  (batchSize <=? 0) && negb (batchSize =? -1).

(** Lines 24-26: the batch size in effect; positive once the guard has
    passed, so it is kept as a [nat] from here on, like the index [i].
    ([i + batchSize] is computed only for [i = 0] or [batchSize < len(ips)],
    so the 64-bit [int] of the source does not wrap.) *)
Definition effective_batch (batchSize : Z) : nat :=
  Z.to_nat (if batchSize =? -1 then 100 else batchSize).

(** The state in which the loop of line 33 is first reached, or the
    state after [log.Fatal]. *)
Definition init (batchSize : Z) : state :=
  {| pc := if invalid_batch batchSize then MFatal fatal_msg else MLoop 0;
     gs := []; mu := false; wg := 0; talosHosts := []; dialed := [] |}.

(** The address a worker dials: [fmt.Sprintf("%s:50000", ip)]. *)
Definition dial_target (ip : string) : string := (ip ++ ":50000")%string.

Section Prober.
(** [DialAddress addr] tells whether [probe.DialAddress(addr, 3s)]
    returns a nil error: the reachability oracle. *)
Variable DialAddress : string -> bool.
Variable ips : list string.
Variable batchSize : Z.

Definition b : nat := effective_batch batchSize.

Definition set_pc (s : state) (p : mainpc) : state :=
  mkState p (gs s) (mu s) (wg s) (talosHosts s) (dialed s).

(** One step of the calling goroutine. *)
Definition step_main (s : state) : option state :=
  match pc s with
  | MLoop i =>
      if (i <? length ips)%nat then
        let end_ := if (length ips <? i + b)%nat
                    then length ips else (i + b)%nat in
        let batch := probe.slice i end_ ips in
        Some (mkState (MSpawn i batch) (gs s) (mu s)
                      (wg s + Z.of_nat (length batch)) (talosHosts s) (dialed s))
      else Some (set_pc s MReturn)
  | MSpawn i (ip :: rest) =>
      Some (mkState (MSpawn i rest) (gs s ++ [GDial ip]) (mu s) (wg s)
                    (talosHosts s) (dialed s))
  | MSpawn i [] => Some (set_pc s (MWait i))
  | MWait i =>
      if wg s =? 0 then Some (set_pc s (MLoop (i + b))) else None
  | MReturn => None
  | MFatal _ => None
  end.

(** One step of worker [k]. *)
Definition step_go (k : nat) (s : state) : option state :=
  match gs s !! k with
  | None => None
  | Some (GDial ip) =>
      let g := if DialAddress (dial_target ip) then GLock ip else GRet ip in
      Some (mkState (pc s) (<[k := g]> (gs s)) (mu s) (wg s) (talosHosts s)
                    (dialed s ++ [dial_target ip]))
  | Some (GLock ip) =>
      if mu s then None
      else Some (mkState (pc s) (<[k := GAppend ip]> (gs s)) true (wg s)
                         (talosHosts s) (dialed s))
  | Some (GAppend ip) =>
      Some (mkState (pc s) (<[k := GUnlock ip]> (gs s)) (mu s) (wg s)
                    (talosHosts s ++ [ip]) (dialed s))
  | Some (GUnlock ip) =>
      Some (mkState (pc s) (<[k := GRet ip]> (gs s)) false (wg s)
                    (talosHosts s) (dialed s))
  | Some (GRet ip) =>
      Some (mkState (pc s) (<[k := GDone ip]> (gs s)) (mu s) (wg s - 1)
                    (talosHosts s) (dialed s))
  | Some (GDone _) => None
  end.

Definition step (t : thread) (s : state) : option state :=
  match t with
  | Main => step_main s
  | Go k => step_go k s
  end.

(** Running a schedule; a thread that cannot move is skipped. *)
Fixpoint run (sched : list thread) (s : state) : state :=
  match sched with
  | [] => s
  | t :: sched' => run sched' (default s (step t s))
  end.

Definition step_rel (s s' : state) : Prop := exists t, step t s = Some s'.

(** The states an execution of the call can be in. *)
Definition reachable (s : state) : Prop :=
  rtc step_rel (init batchSize) s.

(** What the caller receives, once the call has returned. *)
Definition returned (s : state) : option (list string * option string) :=
  match pc s with
  | MReturn => Some (talosHosts s, None)
  | _ => None
  end.

(** Workers that have started and not yet finished. *)
Definition outstanding (s : state) : nat :=
  length (List.filter (fun g => negb (g_done g)) (gs s)).

(** Workers between [mu.Lock()] and [mu.Unlock()]. *)
Definition in_critical (s : state) : nat :=
  length (List.filter g_critical (gs s)).

End Prober.

(** *** The program [main], lines 77-157

    The four variables are those [unpack.Do] has filled from the command
    line.  What the program does outside its own code is given by
    oracles: the reachability of an address, and the way each [talosctl]
    command ends. *)

(** How the program ends. *)
Inductive exit :=
| FatalCidr (err : ParseError)                    (* [log.Fatalf], line 79 *)
| FatalBatchParse                                 (* [log.Fatalf], line 86 *)
| FatalBatchSize                                  (* [log.Fatal], line 21 *)
| NoMembers (talosHostsInCidr : list string) (err : talos.Error)
                                                  (* [return], line 99 *)
| NothingToJoin (talosHostsInCidr : list string)  (* [return], line 147 *)
| Joined (talosHostsInCidr : list string)
         (joins : list (string * option talos.Error)).
                                                  (* the end of [main] *)

Section Program.
Context `{TextLib}.
Variable DialAddress : string -> bool.
(** [get_members talosConfigPath]: how [talosctl get members] ends. *)
Variable get_members :
  string -> talos.cmd_result (list (option talos.MemberResponse)).
(** [apply_config ip workerConfigPath talosConfigPath]: how
    [talosctl apply-config] ends for the node [ip]. *)
Variable apply_config : string -> string -> string -> talos.cmd_result unit.

(** The loop of lines 150-156: every address is tried, whether or not
    the joins before it succeeded. *)
Definition join_all (newMemberIps : list string)
    (workerConfigPath talosConfigPath : string)
  : list (string * option talos.Error) :=
  map (fun ip =>
         (ip, talos.WorkerJoin (apply_config ip workerConfigPath talosConfigPath)))
      newMemberIps.

(** Lines 95-157: what the program does with the hosts the prober has
    returned. *)
Definition main_members (talosHostsInCidr : list string)
    (talosConfigPath workerConfigPath : string) : exit :=
  match talos.GetMembers (get_members talosConfigPath) with
  | inl err => NoMembers talosHostsInCidr err
  | inr members =>
      let newMemberIps := reconcile talosHostsInCidr members in
      if (length newMemberIps =? 0)%nat
      then NothingToJoin talosHostsInCidr
      else Joined talosHostsInCidr
             (join_all newMemberIps workerConfigPath talosConfigPath)
  end.

(** Lines 77-157.  [None] when the program does not come to an end: the
    enumeration does not return within [fuel] tests, or the schedule
    [sched] of the prober ends before the prober returns. *)
Definition main_from (fuel : nat) (sched : list thread)
    (cidr talosConfigPath workerConfigPath batchSize : string) : option exit :=
  match probe.IpsFromCIDR fuel cidr with
  | None => None
  | Some (_, Some err) => Some (FatalCidr err)
  | Some (ips, None) =>
      match strconv.Atoi batchSize with
      | None => Some FatalBatchParse
      | Some batchSizeInt =>
          let s := run DialAddress ips batchSizeInt sched (init batchSizeInt) in
          match pc s with
          | MFatal _ => Some FatalBatchSize
          | MReturn =>
              Some (main_members (talosHosts s) talosConfigPath workerConfigPath)
          | _ => None
          end
      end
  end.

End Program.

End main.

(* ===================================================================== *)
(** ** A concrete text library for running the functions                  *)
(* ===================================================================== *)

(** An instance of [net.TextLib] that reads dotted-quad IPv4 text the way
    [netip.ParseAddr] does (four decimal octets, no leading zero, each at
    most 255) and rejects every other text. *)
Module sample.
Import net.

(** The character loop of the IPv4 reader: [val] and [digLen] describe
    the octet being read, [fields] holds the octets already closed. *)
Fixpoint parseIPv4Fields (s : string) (val : Z) (digLen : nat)
    (fields : list Z) : option (list Z) :=
  match s with
  | EmptyString =>
      if (length fields <? 3)%nat then None
      else if (digLen =? 0)%nat then None
      else Some (fields ++ [val])
  | String c s' =>
      if is_digit c then
        if (digLen =? 1)%nat && (val =? 0) then None
        else
          let val' := val * 10 + (Z.of_nat (nat_of_ascii c) - 48) in
          if 255 <? val' then None
          else parseIPv4Fields s' val' (S digLen) fields
      else if Ascii.eqb c "."%char then
        if (digLen =? 0)%nat then None
        else if (length fields =? 3)%nat then None
        else parseIPv4Fields s' 0 0%nat (fields ++ [val])
      else None
  end.

Definition parseIPv4 (s : string) : option Addr :=
  match parseIPv4Fields s 0 0%nat [] with
  | Some fields => Some (Addr4 (be_val fields))
  | None => None
  end.

#[export] Instance text : TextLib :=
  {| ParseAddr := parseIPv4; String_other := fun _ => "?" |}.



(** A member as [parseMembers] builds it, with one IPv6 and one IPv4
    address. *)
Definition member1 : talos.Member :=
  talos.member_of
    (talos.mkMemberResponse
       (talos.mkMetadata "node-1" "cluster" "Member" 3)
       "10.0.0.1"
       (talos.mkSpec "id-1" ["fe80::1"; "10.0.0.1"] "node-1" "worker" "Talos")).

(** Three addresses, of which the last two accept the connection, and a
    schedule that lets the caller and the workers move in turn. *)
Definition ips3 : list string := ["10.0.0.1"; "10.0.0.2"; "10.0.0.3"].

Definition dial (addr : string) : bool :=
  String.eqb addr "10.0.0.2:50000" || String.eqb addr "10.0.0.3:50000".

Definition in_turn : list main.thread :=
  List.concat (replicate 20 [main.Main; main.Go 1; main.Go 0; main.Go 2]).

Definition final_state : main.state :=
  main.run dial ips3 2 in_turn (main.init 2).

Definition mid_state : main.state :=
  main.run dial ips3 2
    [main.Main; main.Main; main.Main; main.Go 0; main.Go 1; main.Go 1; main.Go 1]
    (main.init 2).

(** Oracles for a run of the program: [talosctl get members] prints the
    member above, and [talosctl apply-config] fails for one node. *)
Definition get_members (talosConfigPath : string)
  : talos.cmd_result (list (option talos.MemberResponse)) :=
  talos.Finished
    [Some (talos.mkMemberResponse
             (talos.mkMetadata "node-1" "cluster" "Member" 3)
             "10.0.0.1"
             (talos.mkSpec "id-1" ["fe80::1"; "10.0.0.1"] "node-1" "worker"
                           "Talos"))].

Definition apply_config (ip workerConfigPath talosConfigPath : string)
  : talos.cmd_result unit :=
  if String.eqb ip "10.0.0.2" then talos.Failed else talos.Finished tt.

(** A reading of [unpack.Do] that fills the variables from the front of
    the slice. *)
Definition unpack_Do (slice : list string) (k : nat) : list string :=
  take k slice.

(** A member table with one row, and one whose row has its brackets in
    the wrong order. *)
Definition table_text : string :=
  ("NODE NAMESPACE TYPE ID VERSION HOSTNAME MACHINE TYPE OS ADDRESSES"
   ++ String "010"
        ("10.3.5.10 cluster Member cp-1 3 cp-1 controlplane Talos (v1.11.3) ["
         ++ String talos.quote ("10.3.5.10" ++ String talos.quote "]")))%string.

Definition table_text_bad : string :=
  ("NODE NAMESPACE TYPE ID VERSION HOSTNAME MACHINE TYPE OS ADDRESSES"
   ++ String "010" "10.3.5.10 cluster Member cp-1 3 cp-1 worker Talos ] [")%string.

Definition round_robin : list main.thread :=
  List.concat
    (replicate 30 [main.Main; main.Go 0; main.Go 1; main.Go 2; main.Go 3;
                   main.Go 4; main.Go 5]).

End sample.

(* ===================================================================== *)
(** ** Notions used to state the properties                               *)
(* ===================================================================== *)

Module notions.
Import net.

(** Every element is a byte. *)
Definition bytes (l : list Z) : Prop := Forall (fun b => 0 <= b < 256) l.

(** The network produced by [ParseCIDR] from the address [a] and the
    prefix length [n]: the last two lines of that function. *)
Definition cidr_net (a : Addr) (n : Z) : IPNet :=
  let m := default [] (CIDRMask n (BitLen a)) in
  mkIPNet (default [] (IP_Mask (As16 a) m)) m.

(** The first address of the IPv4 range of [v] with [k] host bits. *)
Definition base4 (v k : Z) : Z := (v mod 2 ^ 32) / 2 ^ k * 2 ^ k.

(** The text of the IPv4 addresses [base + lo], ..., [base + lo + count - 1],
    in this order. *)
Definition hosts4 (base : Z) (lo count : nat) : list string :=
  map (fun j => dotted (be_bytes 4 (base + Z.of_nat j))) (seq lo count).




(** The candidates of an IPv4 range of [count] addresses from [base]: the
    addresses strictly between the first and the last one when there are
    more than two, all of them otherwise. *)
Definition range_result (base : Z) (count : nat) : list string :=
  if (2 <? count)%nat then hosts4 base 1 (count - 2) else hosts4 base 0 count.

(** A host the reconciler accepts, when it is not yet in the output: it
    parses as an IPv4 address and no member has it as internal address. *)
Definition joinable `{TextLib} (members : list talos.Member)
    (talosHost : string) : bool :=
  talos.parses_as_IPv4 talosHost
  && negb (main.isExistingMember members talosHost).


(** *** The prober: what an execution state must satisfy *)

Section ProberNotions.
Import main.
Variable DialAddress : string -> bool.
Variable ips : list string.
Variable batchSize : Z.

(** The addresses the oracle marks reachable, in input order. *)
Definition reachable_ips : list string :=
  List.filter (fun ip => DialAddress (dial_target ip)) ips.

(** A worker past its append: the address is in [talosHosts]. *)
Definition contributed (g : goroutine) : bool :=
  match g with
  | GUnlock _ => true
  | GRet ip | GDone ip => DialAddress (dial_target ip)
  | _ => false
  end.

(** A worker whose dial has succeeded and that has not yet unlocked. *)
Definition past_dial (g : goroutine) : bool :=
  match g with GLock _ | GAppend _ | GUnlock _ => true | _ => false end.

(** A worker that has issued its connection attempt. *)
Definition has_dialed (g : goroutine) : bool :=
  match g with GDial _ => false | _ => true end.

(** Workers of the current batch still to be started. *)
Definition pending (p : mainpc) : nat :=
  match p with MSpawn _ rest => length rest | _ => 0%nat end.

(** Worker [j] probes address [j]; the workers of the batches before
    index [i] have finished, and those started so far belong to the
    batches up to the one that begins at [i]. *)
Definition window (i : nat) (rest : list string) (s : state) : Prop :=
  (exists q, i = (q * b batchSize)%nat)
  /\ map g_ip (gs s) ++ rest = take (i + b batchSize) ips
  /\ Forall (fun g => g_done g = true) (take i (gs s)).

Definition pc_inv (s : state) : Prop :=
  match pc s with
  | MLoop i =>
      (exists q, i = (q * b batchSize)%nat)
      /\ map g_ip (gs s) = take i ips
      /\ Forall (fun g => g_done g = true) (gs s)
  | MSpawn i rest =>
      (i < length ips)%nat /\ (i <= length (gs s))%nat /\ window i rest s
  | MWait i => (i < length ips)%nat /\ window i [] s
  | MReturn =>
      map g_ip (gs s) = ips /\ Forall (fun g => g_done g = true) (gs s)
  | MFatal _ => False
  end.

Record Inv (s : state) : Prop := {
  inv_pc : pc_inv s;
  inv_wg : wg s = Z.of_nat (pending (pc s) + outstanding s);
  inv_mu : in_critical s = if mu s then 1%nat else 0%nat;
  inv_dial : Forall (fun g => past_dial g = true ->
                              DialAddress (dial_target (g_ip g)) = true) (gs s);
  inv_hosts : talosHosts s ≡ₚ map g_ip (List.filter contributed (gs s));
  inv_dialed : dialed s ≡ₚ
               map (fun g => dial_target (g_ip g))
                   (List.filter has_dialed (gs s))
}.

(** Steps a worker still has to take, and steps the calling goroutine
    still has to take or to cause. *)
Definition g_work (g : goroutine) : nat :=
  match g with
  | GDial _ => 5 | GLock _ => 4 | GAppend _ => 3 | GUnlock _ => 2
  | GRet _ => 1 | GDone _ => 0
  end%nat.

Definition main_work (p : mainpc) : nat :=
  match p with
  | MLoop i => 9 * (length ips - i) + 1
  | MSpawn i rest =>
      6 * length rest + 2 + (9 * (length ips - (i + b batchSize)) + 1)
  | MWait i => 1 + (9 * (length ips - (i + b batchSize)) + 1)
  | MReturn => 0
  | MFatal _ => 0
  end%nat.

Definition work (s : state) : nat :=
  (main_work (pc s) + sum_list_with g_work (gs s))%nat.

(** The claim that an invalid batch size comes back to the caller as an
    error value. *)
Definition error_reaches_caller : Prop :=
  exists s hosts e,
    reachable DialAddress ips batchSize s
    /\ returned s = Some (hosts, Some e).

End ProberNotions.

(** *** The prober: the order of the returned addresses *)

Section ProberOrder.
Import main.
Variable DialAddress : string -> bool.
Variable ips : list string.
Variable batchSize : Z.

(** The index before which every batch has been waited for. *)
Definition settled (p : mainpc) : nat :=
  match p with
  | MLoop i | MSpawn i _ | MWait i => i
  | MReturn => length ips
  | MFatal _ => 0%nat
  end.

(** The reachable addresses of the first [q] batches. *)
Definition reachable_upto (q : nat) : list string :=
  reachable_ips DialAddress (take (q * b batchSize) ips).

(** [hosts] begins, for every [q] with [q] batches before index [i], with
    the reachable addresses of the first [q] batches in some order. *)
Definition batch_ordered (i : nat) (hosts : list string) : Prop :=
  forall q, (q * b batchSize <= i)%nat ->
    take (length (reachable_upto q)) hosts ≡ₚ reachable_upto q.

End ProberOrder.

(** *** Two ways the program ends that differ in order only *)

Definition exit_equiv (e e' : main.exit) : Prop :=
  match e, e' with
  | main.FatalCidr err, main.FatalCidr err' => err = err'
  | main.FatalBatchParse, main.FatalBatchParse => True
  | main.FatalBatchSize, main.FatalBatchSize => True
  | main.NoMembers h err, main.NoMembers h' err' => h ≡ₚ h' /\ err = err'
  | main.NothingToJoin h, main.NothingToJoin h' => h ≡ₚ h'
  | main.Joined h j, main.Joined h' j' => h ≡ₚ h' /\ j ≡ₚ j'
  | _, _ => False
  end.

(** A batch size text the program accepts. *)
Definition accepted_batch (batchSize : string) : Prop :=
  exists n, strconv.Atoi batchSize = Some n /\ main.invalid_batch n = false.

(** *** The address column of the member table *)

(** An address as the table prints it, between double quotes, and the
    text of a list of addresses: a JSON array without spaces. *)
Definition quoted (a : string) : string :=
  String talos.quote (a ++ String talos.quote EmptyString).

Definition address_list (addrs : list string) : string :=
  String "[" (String.concat "," (map quoted addrs) ++ "]").

(** An address that the column can carry: without a comma or a closing
    bracket, and without a double quote or a space at either end. *)
Definition plain (a : string) : Prop :=
  strings.Index "," a = None
  /\ strings.Index "]" a = None
  /\ strings.Trim a talos.quote_or_space = a.

(** *** Text of a prefix length *)

(** Every character is a decimal digit. *)
Fixpoint all_digits (s : string) : bool :=
  match s with
  | EmptyString => true
  | String c s' => is_digit c && all_digits s'
  end.

(** A non-empty run of decimal digits. *)
Definition decimal (s : string) : bool :=
  (0 <? String.length s)%nat && all_digits s.

(** The error value [ParseCIDR] returns for the text [s]. *)
Definition cidr_error (s : string) : ParseError :=
  mkParseError "CIDR address" s.

End notions.

(* ===================================================================== *)
(** ** The reconciler                                                     *)
(* ===================================================================== *)

Module reconcile_facts.
Import net talos main notions.

Lemma slices_Contains_elem (s : list string) (v : string) :
  slices_Contains s v = true <-> v ∈ s.
Proof.
  induction s as [|x s IH]; simpl.
  - split; [discriminate | intros Hin; inversion Hin].
  - destruct (String.eqb x v) eqn:E.
    + apply String.eqb_eq in E. subst. split; [intros _; left | reflexivity].
    + apply String.eqb_neq in E. rewrite IH. split.
      * intros Hin. now right.
      * intros Hin. apply elem_of_cons in Hin as [-> |Hin];
          [contradiction | assumption].
Qed.

Lemma slices_Contains_not_elem (s : list string) (v : string) :
  slices_Contains s v = false <-> v ∉ s.
Proof.
  rewrite <- slices_Contains_elem. destruct (slices_Contains s v); split;
    congruence.
Qed.

Lemma isExistingMember_true (members : list Member) (h : string) :
  isExistingMember members h = true <->
  exists m, m ∈ members /\ InternalIP m = h.
Proof.
  induction members as [|m members IH]; simpl.
  - split; [discriminate | intros (m & Hin & _); inversion Hin].
  - destruct (String.eqb (InternalIP m) h) eqn:E.
    + apply String.eqb_eq in E. split; [|reflexivity].
      intros _. exists m. split; [left | assumption].
    + apply String.eqb_neq in E. rewrite IH. split.
      * intros (m' & Hin & Hm'). exists m'. split; [now right | assumption].
      * intros (m' & Hin & Hm'). apply elem_of_cons in Hin as [-> |Hin];
          [contradiction|].
        exists m'. split; assumption.
Qed.

Lemma isExistingMember_false (members : list Member) (h : string) :
  isExistingMember members h = false <->
  forall m, m ∈ members -> InternalIP m <> h.
Proof.
  split.
  - intros E m Hin Hm.
    assert (isExistingMember members h = true) as E'
        by (apply isExistingMember_true; eauto).
    congruence.
  - intros Hall. destruct (isExistingMember members h) eqn:E; [|reflexivity].
    apply isExistingMember_true in E as (m & Hin & Hm).
    exfalso. eapply Hall; eauto.
Qed.

Section WithTextLib.
Context `{TextLib}.

(** The step appends exactly under the three conditions. *)
Lemma reconcile_step_eq (members : list Member) (acc : list string)
    (h : string) :
  reconcile_step members acc h =
  if negb (slices_Contains acc h) && joinable members h
  then acc ++ [h] else acc.
Proof.
  unfold reconcile_step, joinable, parses_as_IPv4.
  destruct (slices_Contains acc h); [reflexivity|]. cbn [negb andb].
  destruct (ParseIP h) as [ip|]; [|reflexivity].
  destruct (To4 ip) as [p4|] eqn:E4.
  - rewrite bool_decide_eq_true_2 by eauto. cbn [andb].
    destruct (isExistingMember members h); reflexivity.
  - rewrite bool_decide_eq_false_2 by (intros [? ?]; discriminate).
    reflexivity.
Qed.

Lemma reconcile_from_cons members acc h rest :
  reconcile_from members acc (h :: rest) =
  reconcile_from members (reconcile_step members acc h) rest.
Proof. reflexivity. Qed.

(** The output extends the accumulator by a subsequence of the input. *)
Lemma reconcile_from_app members hosts : forall acc,
  exists out, reconcile_from members acc hosts = acc ++ out
              /\ sublist out hosts.
Proof.
  induction hosts as [|h hosts IH]; intros acc.
  - exists []. split; [now rewrite app_nil_r | constructor].
  - rewrite reconcile_from_cons, reconcile_step_eq.
    destruct (negb (slices_Contains acc h) && joinable members h).
    + destruct (IH (acc ++ [h])) as (out & -> & Hsub).
      exists (h :: out). split; [now rewrite <- app_assoc|].
      now apply sublist_skip.
    + destruct (IH acc) as (out & -> & Hsub).
      exists out. split; [reflexivity | now apply sublist_cons].
Qed.

Lemma reconcile_from_elem members hosts : forall acc x,
  x ∈ reconcile_from members acc hosts <->
  x ∈ acc \/ (x ∈ hosts /\ joinable members x = true).
Proof.
  induction hosts as [|h hosts IH]; intros acc x.
  - simpl. split; [now left | intros [?|[Hin _]]; [assumption | inversion Hin]].
  - rewrite reconcile_from_cons, reconcile_step_eq, IH.
    destruct (slices_Contains acc h) eqn:Ec; simpl.
    + apply slices_Contains_elem in Ec. split.
      * intros [?|[? ?]]; [now left | right; split; [now right | assumption]].
      * intros [?|[Hin Hj]]; [now left|].
        inversion Hin; subst; [now left | right; split; assumption].
    + destruct (joinable members h) eqn:Ej.
      * rewrite elem_of_app, list_elem_of_singleton. split.
        -- intros [[?| ->]|[? ?]]; [now left | right; split; [left | assumption]
                                  | right; split; [now right | assumption]].
        -- intros [?|[Hin Hj]]; [left; now left|].
           inversion Hin; subst; [left; now right | right; split; assumption].
      * split.
        -- intros [?|[? ?]]; [now left | right; split; [now right | assumption]].
        -- intros [?|[Hin Hj]]; [now left|].
           inversion Hin; subst; [congruence | right; split; assumption].
Qed.

Lemma reconcile_from_NoDup members hosts : forall acc,
  NoDup acc -> NoDup (reconcile_from members acc hosts).
Proof.
  induction hosts as [|h hosts IH]; intros acc Hnd; [assumption|].
  rewrite reconcile_from_cons, reconcile_step_eq. apply IH.
  destruct (slices_Contains acc h) eqn:Ec; simpl; [assumption|].
  destruct (joinable members h); [|assumption].
  apply slices_Contains_not_elem in Ec.
  apply NoDup_app. split; [assumption|]. split.
  - intros x Hx Hx'. apply list_elem_of_singleton in Hx'. now subst.
  - apply NoDup_singleton.
Qed.

(** On a duplicate-free list of joinable addresses that are not in the
    accumulator, the loop appends the whole list. *)
Lemma reconcile_from_fixed members l : forall acc,
  NoDup (acc ++ l) ->
  Forall (fun x => joinable members x = true) l ->
  reconcile_from members acc l = acc ++ l.
Proof.
  induction l as [|h l IH]; intros acc Hnd Hall.
  - simpl. now rewrite app_nil_r.
  - rewrite reconcile_from_cons, reconcile_step_eq.
    apply Forall_cons in Hall as [Hh Hall].
    assert (h ∉ acc) as Hni.
    { apply NoDup_app in Hnd as (_ & Hdis & _). intros Hin.
      apply (Hdis h Hin). left. }
    apply slices_Contains_not_elem in Hni. rewrite Hni, Hh. simpl.
    rewrite IH; [now rewrite <- app_assoc | now rewrite <- app_assoc | assumption].
Qed.

(** C1. [reconcile] is a pure function of its two arguments that keeps
    the input order: one loop iteration appends the address exactly when
    it is not yet in the accumulated output, it parses as an IPv4 address
    and no member's [InternalIP] equals it, and leaves the output alone
    otherwise; the result is a duplicate-free subsequence of the input
    holding exactly the input addresses that parse as IPv4 and match no
    member; when every address is skipped the result is the empty list,
    an ordinary value of the result type, which has no error component. *)
Theorem reconcile_order_preserving_filter
    (members : list Member) (hosts : list string) :
  (forall acc h rest,
      reconcile_from members acc (h :: rest) =
      reconcile_from members
        (if bool_decide (h ∉ acc) && parses_as_IPv4 h
            && bool_decide (Forall (fun m => InternalIP m <> h) members)
         then acc ++ [h] else acc) rest)
  /\ sublist (reconcile hosts members) hosts
  /\ NoDup (reconcile hosts members)
  /\ (forall x, x ∈ reconcile hosts members <->
                x ∈ hosts /\ parses_as_IPv4 x = true
                /\ forall m, m ∈ members -> InternalIP m <> x)
  /\ ((forall h, h ∈ hosts ->
         parses_as_IPv4 h = false \/ exists m, m ∈ members /\ InternalIP m = h)
      -> reconcile hosts members = []).
Proof.
  assert (forall x, joinable members x = true <->
            parses_as_IPv4 x = true
            /\ forall m, m ∈ members -> InternalIP m <> x) as Hj.
  { intros x. unfold joinable. rewrite andb_true_iff, negb_true_iff.
    now rewrite isExistingMember_false. }
  split; [|split; [|split; [|split]]].
  - intros acc h rest. rewrite reconcile_from_cons, reconcile_step_eq.
    f_equal. unfold joinable.
    destruct (slices_Contains acc h) eqn:Ec.
    + apply slices_Contains_elem in Ec.
      rewrite bool_decide_eq_false_2 by tauto. reflexivity.
    + apply slices_Contains_not_elem in Ec.
      rewrite bool_decide_eq_true_2 by assumption. simpl.
      destruct (parses_as_IPv4 h); simpl; [|reflexivity].
      destruct (isExistingMember members h) eqn:Em; simpl.
      * apply isExistingMember_true in Em as (m & Hin & Hm).
        rewrite bool_decide_eq_false_2; [reflexivity|].
        rewrite Forall_forall. intros Hall. now apply (Hall m Hin).
      * pose proof (proj1 (isExistingMember_false _ _) Em) as Em'.
        rewrite bool_decide_eq_true_2 by (now apply Forall_forall).
        reflexivity.
  - destruct (reconcile_from_app members hosts []) as (out & E & Hsub).
    unfold reconcile. rewrite E. assumption.
  - apply reconcile_from_NoDup, NoDup_nil_2.
  - intros x. unfold reconcile. rewrite reconcile_from_elem, Hj.
    split.
    + intros [Hin|(? & ? & ?)]; [inversion Hin | auto].
    + intros (? & ? & ?). right. auto.
  - intros Hskip. unfold reconcile.
    destruct (reconcile_from members [] hosts) as [|x out] eqn:E;
      [reflexivity|].
    assert (x ∈ reconcile_from members [] hosts) as Hx by (rewrite E; left).
    apply reconcile_from_elem in Hx as [Hx|[Hin Hx]]; [inversion Hx|].
    apply Hj in Hx as [Hp Hm].
    destruct (Hskip x Hin) as [Hp'|(m & Hmin & Hme)]; [congruence|].
    exfalso. eapply Hm; eauto.
Qed.

(** C7. Reconciling the output of [reconcile] again, against the same
    members, returns that output unchanged. *)
Theorem reconcile_idempotent (members : list Member) (hosts : list string) :
  reconcile (reconcile hosts members) members = reconcile hosts members.
Proof.
  unfold reconcile at 1.
  rewrite reconcile_from_fixed; [reflexivity | |].
  - simpl. apply reconcile_from_NoDup, NoDup_nil_2.
  - apply Forall_forall. intros x Hx.
    unfold reconcile in Hx. apply reconcile_from_elem in Hx.
    destruct Hx as [Hx|[_ Hx]]; [inversion Hx | assumption].
Qed.

End WithTextLib.

End reconcile_facts.

(* ===================================================================== *)
(** ** The internal address of a member                                   *)
(* ===================================================================== *)

Module member_facts.
Import net talos main.

Section WithTextLib.
Context `{TextLib}.

Lemma first_IPv4_none (addresses : list string) :
  first_IPv4 addresses = None <->
  Forall (fun a => parses_as_IPv4 a = false) addresses.
Proof.
  induction addresses as [|a l IH]; simpl.
  - split; [constructor | reflexivity].
  - destruct (parses_as_IPv4 a) eqn:E.
    + split; [discriminate|]. intros Hall.
      apply Forall_cons in Hall as [Ha _]. congruence.
    + rewrite IH. split.
      * intros Hall. now constructor.
      * intros Hall. now apply Forall_cons in Hall as [_ ?].
Qed.

Lemma first_IPv4_split (pre : list string) (a : string) (post : list string) :
  Forall (fun x => parses_as_IPv4 x = false) pre ->
  parses_as_IPv4 a = true ->
  first_IPv4 (pre ++ a :: post) = Some a.
Proof.
  induction pre as [|p pre IH]; intros Hpre Ha; simpl.
  - now rewrite Ha.
  - apply Forall_cons in Hpre as [Hp Hpre]. rewrite Hp. now apply IH.
Qed.

Lemma parseMembers_loop_internal decoded : forall members out,
  Forall (fun m => InternalIP m = extractInternalIP (Addresses m)) members ->
  parseMembers_loop decoded members = Some out ->
  Forall (fun m => InternalIP m = extractInternalIP (Addresses m)) out.
Proof.
  induction decoded as [|[r|] decoded IH]; intros members out Hm E; simpl in E.
  - now inversion E; subst.
  - apply (IH _ _) in E; [assumption|].
    apply Forall_app. split; [assumption|]. now repeat constructor.
  - discriminate.
Qed.

(** C9. The internal address of a member is computed from its address
    list: it is the first address, in list order, that parses as IPv4;
    when none does and the list is not empty it is the first address of
    the list, IPv4 or not; and it is the empty string for the empty list.
    [parseMembers] stores exactly this value in [InternalIP], and the
    reconciler's member test compares the host with it, so the comparison
    can be against a non-IPv4 string or against the empty string. *)
Theorem internal_address_of_member :
  (forall pre a post,
      Forall (fun x => parses_as_IPv4 x = false) pre ->
      parses_as_IPv4 a = true ->
      extractInternalIP (pre ++ a :: post) = a)
  /\ (forall a rest,
      Forall (fun x => parses_as_IPv4 x = false) (a :: rest) ->
      extractInternalIP (a :: rest) = a)
  /\ extractInternalIP [] = EmptyString
  /\ (forall result,
      InternalIP (member_of result)
      = extractInternalIP (sp_Addresses (r_Spec result)))
  /\ (forall decoded members,
      parseMembers decoded = Some members ->
      Forall (fun m => InternalIP m = extractInternalIP (Addresses m)) members)
  /\ (forall result host,
      isExistingMember [member_of result] host = true <->
      extractInternalIP (sp_Addresses (r_Spec result)) = host).
Proof.
  split; [|split; [|split; [|split; [|split]]]].
  - intros pre a post Hpre Ha. unfold extractInternalIP.
    now rewrite first_IPv4_split.
  - intros a rest Hall. unfold extractInternalIP.
    apply first_IPv4_none in Hall. now rewrite Hall.
  - reflexivity.
  - reflexivity.
  - intros decoded members E. unfold parseMembers in E.
    eapply parseMembers_loop_internal; [|exact E]. constructor.
  - intros result host. simpl.
    destruct (String.eqb _ host) eqn:E.
    + apply String.eqb_eq in E. tauto.
    + apply String.eqb_neq in E. split; [discriminate | contradiction].
Qed.

End WithTextLib.

End member_facts.

(* ===================================================================== *)
(** ** Byte slices as numbers                                             *)
(* ===================================================================== *)

Module bytes_facts.
Import net notions.

Lemma be_val_snoc (l : list Z) (x : Z) :
  be_val (l ++ [x]) = be_val l * 256 + x.
Proof. unfold be_val. now rewrite fold_left_app. Qed.

Lemma be_val_fold (l : list Z) : forall a,
  fold_left (fun acc x => acc * 256 + x) l a
  = a * 256 ^ Z.of_nat (length l) + be_val l.
Proof.
  unfold be_val. induction l as [|x l IH]; intros a.
  - simpl. lia.
  - cbn [fold_left length]. rewrite IH, (IH (0 * 256 + x)).
    rewrite Nat2Z.inj_succ, Z.pow_succ_r by lia. lia.
Qed.

Lemma be_val_cons (x : Z) (l : list Z) :
  be_val (x :: l) = x * 256 ^ Z.of_nat (length l) + be_val l.
Proof.
  unfold be_val at 1. cbn [fold_left]. rewrite be_val_fold. lia.
Qed.


Lemma be_val_bound (l : list Z) :
  bytes l -> 0 <= be_val l < 256 ^ Z.of_nat (length l).
Proof.
  induction 1 as [|x l Hx Hl IH].
  - cbn. lia.
  - rewrite be_val_cons. cbn [length].
    rewrite Nat2Z.inj_succ, Z.pow_succ_r by lia.
    assert (0 < 256 ^ Z.of_nat (length l)) by (apply Z.pow_pos_nonneg; lia).
    nia.
Qed.

Lemma be_val_inj (l1 l2 : list Z) :
  bytes l1 -> bytes l2 -> length l1 = length l2 ->
  be_val l1 = be_val l2 -> l1 = l2.
Proof.
  intros H1. revert l2. induction H1 as [|x l1 Hx H1 IH]; intros l2 H2 Hlen E.
  - destruct l2; [reflexivity | discriminate].
  - destruct l2 as [|y l2]; [discriminate|].
    apply Forall_cons in H2 as [Hy H2]. injection Hlen as Hlen.
    rewrite !be_val_cons, <- Hlen in E.
    pose proof (be_val_bound l1 H1) as B1.
    pose proof (be_val_bound l2 H2) as B2. rewrite <- Hlen in B2.
    assert (x = y) as -> by nia.
    f_equal. apply IH; [assumption | assumption | lia].
Qed.

Lemma be_bytes_length (n : nat) (v : Z) : length (be_bytes n v) = n.
Proof. induction n; simpl; congruence. Qed.

Lemma be_bytes_bytes (n : nat) (v : Z) : bytes (be_bytes n v).
Proof.
  induction n; simpl; constructor; [|assumption].
  apply Z.mod_pos_bound. lia.
Qed.

Lemma be_val_be_bytes (n : nat) (v : Z) :
  be_val (be_bytes n v) = v mod 256 ^ Z.of_nat n.
Proof.
  induction n as [|n IH].
  - cbn. now rewrite Z.mod_1_r.
  - cbn [be_bytes]. rewrite be_val_cons, be_bytes_length, IH.
    rewrite Nat2Z.inj_succ, Z.pow_succ_r by lia.
    assert (0 < 256 ^ Z.of_nat n) as Hp by (apply Z.pow_pos_nonneg; lia).
    rewrite (Z.mul_comm 256), Z.rem_mul_r by lia. lia.
Qed.

Lemma be_bytes_be_val (l : list Z) :
  bytes l -> be_bytes (length l) (be_val l) = l.
Proof.
  intros Hl. apply be_val_inj.
  - apply be_bytes_bytes.
  - assumption.
  - apply be_bytes_length.
  - rewrite be_val_be_bytes. apply Z.mod_small. now apply be_val_bound.
Qed.

End bytes_facts.

(* ===================================================================== *)
(** ** The ripple increment                                               *)
(* ===================================================================== *)

Module nextIP_facts.
Import net notions probe bytes_facts.

(** The loop started at index [length pre - 1] rewrites [pre] and leaves
    what follows alone; the rewritten part is the successor of [pre] as a
    number, wrapping to zero after the all-ones value. *)
Lemma nextIP_loop_spec (pre : list Z) : forall suf,
  bytes pre ->
  exists pre',
    nextIP_loop (length pre) (pre ++ suf) = pre' ++ suf
    /\ length pre' = length pre
    /\ bytes pre'
    /\ be_val pre' = (be_val pre + 1) mod 256 ^ Z.of_nat (length pre).
Proof.
  induction pre as [|x pre IH] using rev_ind; intros suf Hb.
  - exists []. split; [reflexivity|]. split; [reflexivity|].
    split; [constructor | reflexivity].
  - apply Forall_app in Hb as [Hpre Hx]. apply Forall_inv in Hx.
    rewrite length_app, Nat.add_1_r. cbn [nextIP_loop].
    rewrite <- app_assoc. cbn [app].
    rewrite list_lookup_total_middle by reflexivity.
    rewrite insert_app_r_alt, Nat.sub_diag by lia. cbn [insert list_insert].
    rewrite list_lookup_total_middle by reflexivity.
    assert (0 < 256 ^ Z.of_nat (length pre)) as Hp
        by (apply Z.pow_pos_nonneg; lia).
    pose proof (be_val_bound pre Hpre) as Bpre.
    rewrite Nat2Z.inj_succ, Z.pow_succ_r by lia.
    destruct (Z.eq_dec x 255) as [-> | Hne].
    + change ((255 + 1) mod 256) with 0. cbn [Z.eqb negb].
      destruct (IH (0 :: suf) Hpre) as (pre' & E & Hlen & Hb' & Hv).
      exists (pre' ++ [0]). rewrite E, <- app_assoc. cbn [app].
      split; [reflexivity|]. split; [rewrite !length_app; cbn; lia|].
      split; [apply Forall_app; split; [assumption | repeat constructor; lia]|].
      rewrite !be_val_snoc, Hv.
      replace (be_val pre * 256 + 255 + 1) with ((be_val pre + 1) * 256) by lia.
      rewrite (Z.mul_comm 256), Z.mul_mod_distr_r by lia. lia.
    + rewrite (Z.mod_small (x + 1)) by lia.
      destruct (x + 1 =? 0) eqn:E0; [lia|]. cbn [negb].
      exists (pre ++ [x + 1]). rewrite <- app_assoc. cbn [app].
      split; [reflexivity|]. split; [rewrite !length_app; cbn; lia|].
      split; [apply Forall_app; split; [assumption | repeat constructor; lia]|].
      rewrite !be_val_snoc. rewrite Z.mod_small; [lia|]. nia.
Qed.

Lemma nextIP_spec (ip : IP) :
  bytes ip ->
  length (nextIP ip) = length ip
  /\ bytes (nextIP ip)
  /\ be_val (nextIP ip) = (be_val ip + 1) mod 256 ^ Z.of_nat (length ip).
Proof.
  intros Hb. destruct (nextIP_loop_spec ip [] Hb) as (ip' & E & Hlen & Hb' & Hv).
  rewrite !app_nil_r in E. unfold nextIP. rewrite E. auto.
Qed.

End nextIP_facts.

(* ===================================================================== *)
(** ** Masks and the containment test                                     *)
(* ===================================================================== *)

Module mask_facts.
Import net notions probe bytes_facts.

Lemma CIDRMask_loop_length (l : nat) : forall n,
  length (CIDRMask_loop l n) = l.
Proof.
  induction l as [|l IH]; intros n; [reflexivity|].
  cbn [CIDRMask_loop]. destruct (8 <=? n); cbn [length]; now rewrite IH.
Qed.

Lemma partial_mask_byte (n : Z) :
  0 <= n < 8 -> Z.lxor 255 (Z.shiftr 255 n) = 256 - 2 ^ (8 - n).
Proof.
  intros Hn.
  assert (n = 0 \/ n = 1 \/ n = 2 \/ n = 3 \/ n = 4 \/ n = 5 \/ n = 6 \/ n = 7)
    as Hcases by lia.
  repeat (destruct Hcases as [-> | Hcases]; [reflexivity|]).
  now subst.
Qed.

Lemma CIDRMask_loop_bytes (l : nat) : forall n,
  0 <= n -> bytes (CIDRMask_loop l n).
Proof.
  induction l as [|l IH]; intros n Hn; [constructor|].
  cbn [CIDRMask_loop]. destruct (8 <=? n) eqn:E.
  - constructor; [lia | apply IH; lia].
  - constructor; [|apply IH; lia].
    rewrite partial_mask_byte by lia.
    assert (0 < 2 ^ (8 - n) <= 2 ^ 8); [|lia].
    split; [apply Z.pow_pos_nonneg; lia | apply Z.pow_le_mono_r; lia].
Qed.

(** A prefix mask of [n] ones on [8 * l] bits, as a number. *)
Lemma CIDRMask_loop_val (l : nat) : forall n,
  0 <= n <= 8 * Z.of_nat l ->
  be_val (CIDRMask_loop l n)
  = 2 ^ (8 * Z.of_nat l) - 2 ^ (8 * Z.of_nat l - n).
Proof.
  induction l as [|l IH]; intros n Hn.
  - assert (n = 0) as -> by lia. reflexivity.
  - cbn [CIDRMask_loop].
    replace (8 * Z.of_nat (S l)) with (8 * Z.of_nat l + 8) by lia.
    assert (256 ^ Z.of_nat l = 2 ^ (8 * Z.of_nat l)) as E256.
    { change 256 with (2 ^ 8). rewrite <- Z.pow_mul_r by lia. reflexivity. }
    destruct (8 <=? n) eqn:E.
    + rewrite be_val_cons, CIDRMask_loop_length, IH, E256 by lia.
      replace (8 * Z.of_nat l + 8 - n) with (8 * Z.of_nat l - (n - 8)) by lia.
      rewrite Z.pow_add_r by lia. lia.
    + rewrite be_val_cons, CIDRMask_loop_length, IH, E256 by lia.
      rewrite partial_mask_byte by lia.
      replace (8 * Z.of_nat l + 8 - n) with ((8 - n) + 8 * Z.of_nat l) by lia.
      rewrite !Z.pow_add_r by lia. rewrite Z.sub_0_r. change (2 ^ 8) with 256.
      lia.
Qed.

Lemma land_mod_pow2 (p q k : Z) :
  0 <= k -> Z.land p q mod 2 ^ k = Z.land (p mod 2 ^ k) (q mod 2 ^ k).
Proof.
  intros Hk. rewrite <- !Z.land_ones by lia.
  apply Z.bits_inj'. intros i Hi. rewrite !Z.land_spec.
  destruct (Z.testbit p i), (Z.testbit q i), (Z.testbit (Z.ones k) i);
    reflexivity.
Qed.

(** Bitwise "and" acts separately on the high and the low part. *)
Lemma land_split (k a x c y : Z) :
  0 <= k -> 0 <= x < 2 ^ k -> 0 <= y < 2 ^ k ->
  Z.land (a * 2 ^ k + x) (c * 2 ^ k + y)
  = Z.land a c * 2 ^ k + Z.land x y.
Proof.
  intros Hk Hx Hy.
  assert (0 < 2 ^ k) as Hp by (apply Z.pow_pos_nonneg; lia).
  set (z := Z.land (a * 2 ^ k + x) (c * 2 ^ k + y)).
  rewrite (Z.div_mod z (2 ^ k)) by lia.
  assert (z / 2 ^ k = Z.land a c) as ->.
  { unfold z. rewrite <- !Z.shiftr_div_pow2, Z.shiftr_land by lia.
    rewrite !Z.shiftr_div_pow2 by lia.
    rewrite !Z.div_add_l by lia. rewrite !Z.div_small by lia.
    now rewrite !Z.add_0_r. }
  assert (z mod 2 ^ k = Z.land x y) as ->.
  { unfold z. rewrite land_mod_pow2 by lia.
    rewrite !(Z.add_comm (_ * 2 ^ k)), !Z.mod_add by lia.
    now rewrite !Z.mod_small by lia. }
  lia.
Qed.

Lemma land_byte (x y : Z) : 0 <= x < 256 -> 0 <= Z.land x y < 256.
Proof.
  intros Hx.
  assert (Z.land x (Z.ones 8) = x) as Hx8.
  { rewrite Z.land_ones by lia. apply Z.mod_small. change (2 ^ 8) with 256. lia. }
  assert (Z.land x y = Z.land (Z.land x y) (Z.ones 8)) as ->.
  { rewrite <- Hx8 at 1. apply Z.bits_inj'. intros i Hi. rewrite !Z.land_spec.
    destruct (Z.testbit x i), (Z.testbit y i), (Z.testbit (Z.ones 8) i);
      reflexivity. }
  rewrite Z.land_ones by lia. change (2 ^ 8) with 256.
  apply Z.mod_pos_bound. lia.
Qed.

Lemma zip_land_bytes (l1 l2 : list Z) :
  bytes l1 -> bytes (zip_with Z.land l1 l2).
Proof.
  intros H1. revert l2. induction H1 as [|x l1 Hx H1 IH]; intros l2.
  - constructor.
  - destruct l2 as [|y l2]; [constructor|]. cbn [zip_with].
    constructor; [now apply land_byte | apply IH].
Qed.

(** The byte-wise "and" of two slices is the "and" of their values. *)
Lemma be_val_zip_land (l1 : list Z) : forall l2,
  bytes l1 -> bytes l2 -> length l1 = length l2 ->
  be_val (zip_with Z.land l1 l2) = Z.land (be_val l1) (be_val l2).
Proof.
  induction l1 as [|x l1 IH]; intros l2 H1 H2 Hlen.
  - destruct l2; [reflexivity | discriminate].
  - destruct l2 as [|y l2]; [discriminate|]. injection Hlen as Hlen.
    apply Forall_cons in H1 as [Hx H1]. apply Forall_cons in H2 as [Hy H2].
    cbn [zip_with]. rewrite !be_val_cons, length_zip_with_l_eq by assumption.
    rewrite IH by assumption. rewrite <- Hlen.
    pose proof (be_val_bound l1 H1) as B1.
    pose proof (be_val_bound l2 H2) as B2. rewrite <- Hlen in B2.
    assert (256 ^ Z.of_nat (length l1) = 2 ^ (8 * Z.of_nat (length l1))) as E.
    { change 256 with (2 ^ 8). rewrite <- Z.pow_mul_r by lia. reflexivity. }
    rewrite E in *. rewrite land_split by lia. reflexivity.
Qed.

(** Bitwise "and" with a prefix mask clears the [k] low bits. *)
Lemma land_prefix_mask (w k v : Z) :
  0 <= k <= w -> 0 <= v < 2 ^ w ->
  Z.land v (2 ^ w - 2 ^ k) = v / 2 ^ k * 2 ^ k.
Proof.
  intros Hk Hv.
  assert (0 < 2 ^ k) as Hp by (apply Z.pow_pos_nonneg; lia).
  assert (2 ^ w = 2 ^ (w - k) * 2 ^ k) as Ew.
  { rewrite <- Z.pow_add_r by lia. f_equal. lia. }
  rewrite (Z.div_mod v (2 ^ k)) at 1 by lia.
  replace (2 ^ w - 2 ^ k) with ((2 ^ (w - k) - 1) * 2 ^ k + 0) by lia.
  rewrite (Z.mul_comm (2 ^ k) (v / 2 ^ k)).
  pose proof (Z.mod_pos_bound v (2 ^ k) Hp).
  rewrite land_split by lia. rewrite Z.land_0_r, Z.add_0_r.
  replace (2 ^ (w - k) - 1) with (Z.ones (w - k))
    by (rewrite Z.ones_equiv; lia).
  rewrite Z.land_ones by lia. rewrite Z.mod_small; [reflexivity|].
  split; [apply Z.div_pos; lia|].
  apply Z.div_lt_upper_bound; lia.
Qed.

Lemma forallb_seq_shift (f : nat -> bool) (n : nat) :
  forallb f (seq 1 n) = forallb (fun i => f (S i)) (seq 0 n).
Proof.
  rewrite <- seq_shift. induction (seq 0 n) as [|i l IH]; [reflexivity|].
  cbn [map forallb]. now rewrite IH.
Qed.

Lemma masked_eq_cons (a b c : Z) (nn m ip : list Z) :
  masked_eq (a :: nn) (b :: m) (c :: ip)
  = (Z.land a b =? Z.land c b) && masked_eq nn m ip.
Proof.
  unfold masked_eq. cbn [length seq forallb]. rewrite forallb_seq_shift.
  reflexivity.
Qed.

Lemma masked_eq_zip (ip : list Z) : forall nn m,
  length nn = length ip -> length m = length ip ->
  masked_eq nn m ip = true <-> zip_with Z.land nn m = zip_with Z.land ip m.
Proof.
  induction ip as [|c ip IH]; intros nn m Hn Hm.
  - destruct nn; [|discriminate]. split; reflexivity.
  - destruct nn as [|a nn]; [discriminate|].
    destruct m as [|b m]; [discriminate|].
    injection Hn as Hn. injection Hm as Hm.
    rewrite masked_eq_cons, andb_true_iff, Z.eqb_eq, IH by assumption.
    cbn [zip_with]. split.
    + intros [-> ->]. reflexivity.
    + intros E. injection E as E1 E2. auto.
Qed.

(** The comparison of [Contains], on the values of the slices. *)
Lemma masked_eq_val (nn m ip : list Z) :
  bytes nn -> bytes m -> bytes ip ->
  length nn = length ip -> length m = length ip ->
  masked_eq nn m ip = true <->
  Z.land (be_val nn) (be_val m) = Z.land (be_val ip) (be_val m).
Proof.
  intros Bn Bm Bi Hn Hm. rewrite masked_eq_zip by assumption.
  rewrite <- !be_val_zip_land by congruence. split.
  - intros ->. reflexivity.
  - intros E. apply be_val_inj; [now apply zip_land_bytes
                                | now apply zip_land_bytes | | exact E].
    rewrite !length_zip_with_l_eq by congruence. assumption.
Qed.

(** On an IPv4 network and a four-byte address, [Contains] is the
    masked comparison. *)
Lemma Contains_v4 (ipnet : IPNet) (ip : list Z) :
  length (net_IP ipnet) = 4%nat -> length (net_Mask ipnet) = 4%nat ->
  length ip = 4%nat ->
  Contains ipnet ip = masked_eq (net_IP ipnet) (net_Mask ipnet) ip.
Proof.
  destruct ipnet as [nn m]. cbn [net_IP net_Mask]. intros Hn Hm Hi.
  destruct nn as [|n0 [|n1 [|n2 [|n3 [|]]]]]; try discriminate.
  destruct m as [|m0 [|m1 [|m2 [|m3 [|]]]]]; try discriminate.
  destruct ip as [|i0 [|i1 [|i2 [|i3 [|]]]]]; try discriminate.
  reflexivity.
Qed.

End mask_facts.

(* ===================================================================== *)
(** ** The enumeration of a range                                         *)
(* ===================================================================== *)

Module enum_facts.
Import net notions probe bytes_facts nextIP_facts mask_facts.

(** Masking the IPv4-mapped form with a four-byte mask works on the
    last four bytes. *)
Lemma IP_Mask_mapped (x m : list Z) :
  length x = 4%nat -> length m = 4%nat ->
  IP_Mask (v4InV6Prefix ++ x) m = Some (zip_with Z.land x m).
Proof.
  intros Hx Hm.
  destruct x as [|x0 [|x1 [|x2 [|x3 [|]]]]]; try discriminate.
  destruct m as [|m0 [|m1 [|m2 [|m3 [|]]]]]; try discriminate.
  reflexivity.
Qed.

Lemma IP_Mask_v4 (x m : list Z) :
  length x = 4%nat -> length m = 4%nat ->
  IP_Mask x m = Some (zip_with Z.land x m).
Proof.
  intros Hx Hm.
  destruct x as [|x0 [|x1 [|x2 [|x3 [|]]]]]; try discriminate.
  destruct m as [|m0 [|m1 [|m2 [|m3 [|]]]]]; try discriminate.
  reflexivity.
Qed.

(** What [ParseCIDR] builds for an IPv4 address. *)
Lemma cidr_net_v4 (v n : Z) :
  0 <= n <= 32 ->
  cidr_net (Addr4 v) n
  = mkIPNet (zip_with Z.land (be_bytes 4 v) (CIDRMask_loop 4 n))
            (CIDRMask_loop 4 n).
Proof.
  intros Hn. unfold cidr_net, CIDRMask. cbn [BitLen].
  change (negb (32 =? 8 * Z.of_nat IPv4len) && negb (32 =? 8 * Z.of_nat IPv6len))
    with false. cbv iota.
  destruct (n <? 0) eqn:E1; [lia|]. destruct (32 <? n) eqn:E2; [lia|].
  cbn [orb default from_option]. unfold id.
  change (Z.to_nat (32 / 8)) with 4%nat.
  f_equal. cbn [As16].
  rewrite IP_Mask_mapped by (now rewrite ?be_bytes_length, ?CIDRMask_loop_length).
  reflexivity.
Qed.

Section Range4.
Variables v n : Z.
Hypothesis n_range : 0 <= n <= 32.

Local Abbreviation k := (32 - n).
Local Abbreviation ipnet := (cidr_net (Addr4 v) n).

Lemma net4_lengths :
  length (net_IP ipnet) = 4%nat /\ length (net_Mask ipnet) = 4%nat.
Proof.
  rewrite cidr_net_v4 by assumption. cbn [net_IP net_Mask].
  rewrite length_zip_with_l_eq; rewrite ?CIDRMask_loop_length; auto.
Qed.

Lemma net4_bytes : bytes (net_IP ipnet) /\ bytes (net_Mask ipnet).
Proof.
  rewrite cidr_net_v4 by assumption. cbn [net_IP net_Mask].
  split; [apply zip_land_bytes, be_bytes_bytes | apply CIDRMask_loop_bytes; lia].
Qed.

Lemma net4_mask_val : be_val (net_Mask ipnet) = 2 ^ 32 - 2 ^ k.
Proof.
  rewrite cidr_net_v4 by assumption. cbn [net_Mask].
  rewrite CIDRMask_loop_val by lia. reflexivity.
Qed.

Lemma k_range : 0 <= k <= 32.
Proof. lia. Qed.

Lemma net4_ip_val : be_val (net_IP ipnet) = base4 v k.
Proof.
  rewrite cidr_net_v4 by assumption. cbn [net_IP].
  rewrite be_val_zip_land;
    [| apply be_bytes_bytes | apply CIDRMask_loop_bytes; lia
     | now rewrite be_bytes_length, CIDRMask_loop_length].
  rewrite be_val_be_bytes, CIDRMask_loop_val by lia.
  change (256 ^ Z.of_nat 4) with (2 ^ 32). change (8 * Z.of_nat 4) with 32.
  rewrite land_prefix_mask; [reflexivity | exact k_range|].
  apply Z.mod_pos_bound. lia.
Qed.

Lemma base4_bounds :
  0 <= base4 v k /\ base4 v k + 2 ^ k <= 2 ^ 32
  /\ base4 v k / 2 ^ k * 2 ^ k = base4 v k.
Proof.
  unfold base4.
  pose proof k_range as Hk.
  assert (0 < 2 ^ k) as Hp by (apply Z.pow_pos_nonneg; lia).
  assert (2 ^ 32 = 2 ^ n * 2 ^ k) as E32.
  { rewrite <- Z.pow_add_r by lia. f_equal. lia. }
  pose proof (Z.mod_pos_bound v (2 ^ 32) ltac:(lia)) as Hv.
  set (u := v mod 2 ^ 32) in *.
  assert (0 <= u / 2 ^ k < 2 ^ n) as Hq.
  { split; [apply Z.div_pos; lia|]. apply Z.div_lt_upper_bound; lia. }
  split; [nia|]. split; [nia|].
  rewrite Z.div_mul by lia. reflexivity.
Qed.

(** The loop starts at the network address itself. *)
Lemma net4_first_ip : first_ip ipnet = net_IP ipnet.
Proof.
  destruct net4_lengths as [Hl1 Hl2]. destruct net4_bytes as [Hb1 Hb2].
  unfold first_ip. rewrite IP_Mask_v4 by assumption.
  cbn [default from_option]. unfold id.
  apply be_val_inj; [now apply zip_land_bytes | assumption
                    | rewrite length_zip_with_l_eq; congruence |].
  rewrite be_val_zip_land by congruence.
  rewrite net4_ip_val, net4_mask_val.
  destruct base4_bounds as (B1 & B2 & B3).
  pose proof k_range as Hk.
  assert (0 < 2 ^ k) by (apply Z.pow_pos_nonneg; lia).
  rewrite land_prefix_mask by lia. exact B3.
Qed.

(** Containment is membership in the interval of the range. *)
Lemma net4_Contains (ip : list Z) :
  bytes ip -> length ip = 4%nat ->
  Contains ipnet ip = true <->
  base4 v k <= be_val ip < base4 v k + 2 ^ k.
Proof.
  intros Hb Hl. destruct net4_lengths as [Hl1 Hl2].
  destruct net4_bytes as [Hb1 Hb2].
  rewrite Contains_v4 by assumption.
  rewrite masked_eq_val by (assumption || congruence).
  rewrite net4_ip_val, net4_mask_val.
  destruct base4_bounds as (B1 & B2 & B3).
  pose proof k_range as Hk.
  assert (0 < 2 ^ k) as Hp by (apply Z.pow_pos_nonneg; lia).
  pose proof (be_val_bound ip Hb) as Bi. rewrite Hl in Bi.
  change (256 ^ Z.of_nat 4) with (2 ^ 32) in Bi.
  rewrite !land_prefix_mask by lia. rewrite B3.
  pose proof (Z.div_mod (be_val ip) (2 ^ k) ltac:(lia)) as Hdm.
  pose proof (Z.mod_pos_bound (be_val ip) (2 ^ k) Hp) as Hm.
  split.
  - intros E. lia.
  - intros [Hlo Hhi].
    assert (be_val ip / 2 ^ k = base4 v k / 2 ^ k) as ->; [|exact (eq_sym B3)].
    rewrite <- B3 in Hlo, Hhi.
    set (q := base4 v k / 2 ^ k) in *.
    symmetry. apply (Z.div_unique _ _ _ (be_val ip - q * 2 ^ k)); lia.
Qed.

End Range4.

Section Loop4.
Context `{TextLib}.
Variables v n : Z.
Hypothesis n_range : 0 <= n <= 32.

Local Abbreviation k := (32 - n).
Local Abbreviation ipnet := (cidr_net (Addr4 v) n).
Local Abbreviation base := (base4 v (32 - n)).

Lemma IP_String_v4 (ip : list Z) :
  length ip = 4%nat -> IP_String ip = dotted ip.
Proof.
  intros Hl. destruct ip as [|i0 [|i1 [|i2 [|i3 [|]]]]]; try discriminate.
  reflexivity.
Qed.

(** From the address [base + j], with [c] addresses left in the range,
    the loop appends the text of these [c] addresses and exits. *)
Lemma enum_loop_v4 (c : nat) : forall (j : nat) ip acc fuel,
  1 <= n ->
  bytes ip -> length ip = 4%nat ->
  be_val ip = (base + Z.of_nat j) mod 2 ^ 32 ->
  Z.of_nat j + Z.of_nat c = 2 ^ k ->
  (c < fuel)%nat ->
  enum_loop fuel ipnet ip acc = Some (acc ++ hosts4 base j c).
Proof.
  pose proof (k_range n n_range) as Hk.
  destruct (base4_bounds v n n_range) as (B1 & B2 & B3).
  assert (0 < 2 ^ k) as Hp by (apply Z.pow_pos_nonneg; lia).
  assert (1 <= n -> 2 ^ k <= 2 ^ 31) as Hk31.
  { intros ?. apply Z.pow_le_mono_r; lia. }
  induction c as [|c IH]; intros j ip acc fuel Hn Hb Hl Hv Hj Hf.
  - destruct fuel as [|fuel]; [lia|]. cbn [enum_loop].
    destruct (Contains ipnet ip) eqn:E.
    + exfalso. apply (net4_Contains v n n_range ip Hb Hl) in E.
      rewrite Hv in E.
      assert (2 ^ k <= 2 ^ 31) by (apply Hk31; lia).
      destruct (Z.eq_dec (base + Z.of_nat j) (2 ^ 32)) as [E32|N32].
      * rewrite E32, Z.mod_same in E by lia. lia.
      * rewrite Z.mod_small in E by lia. lia.
    + unfold hosts4. cbn [seq map]. now rewrite app_nil_r.
  - destruct fuel as [|fuel]; [lia|]. cbn [enum_loop].
    rewrite Z.mod_small in Hv by lia.
    assert (Contains ipnet ip = true) as ->.
    { apply (net4_Contains v n n_range ip Hb Hl). lia. }
    destruct (nextIP_spec ip Hb) as (Hl' & Hb' & Hv').
    rewrite Hl in Hl', Hv'. change (256 ^ Z.of_nat 4) with (2 ^ 32) in Hv'.
    rewrite (IH (S j)); [|assumption|assumption|assumption| | |]; try lia.
    + rewrite <- app_assoc. f_equal. unfold hosts4. cbn [seq map app].
      f_equal. rewrite IP_String_v4 by assumption. f_equal.
      rewrite <- Hv, <- Hl. now rewrite be_bytes_be_val.
    + rewrite Hv', Hv. f_equal. lia.
Qed.

(** With an empty prefix every four-byte address passes the test of the
    loop, so the loop never exits. *)
Lemma enum_loop_v4_all (fuel : nat) : forall ip acc,
  n = 0 ->
  bytes ip -> length ip = 4%nat ->
  enum_loop fuel ipnet ip acc = None.
Proof.
  induction fuel as [|fuel IH]; intros ip acc Hn Hb Hl; [reflexivity|].
  cbn [enum_loop].
  assert (Contains ipnet ip = true) as ->.
  { apply (net4_Contains v n n_range ip Hb Hl).
    pose proof (be_val_bound ip Hb) as Bi. rewrite Hl in Bi.
    change (256 ^ Z.of_nat 4) with (2 ^ 32) in Bi.
    destruct (base4_bounds v n n_range) as (B1 & B2 & B3).
    subst n. change (32 - 0) with 32 in *. lia. }
  destruct (nextIP_spec ip Hb) as (Hl' & Hb' & _).
  apply IH; [assumption | assumption | congruence].
Qed.

End Loop4.

(** *** IPv4-mapped networks

    [ParseCIDR] keeps an address written in IPv6 syntax in sixteen
    bytes.  When these are the IPv4-mapped prefix followed by four bytes
    and the prefix length is at least 96, [To4] accepts the network, and
    the enumeration runs over the last four bytes. *)




Section Mapped.
Variables v n : Z.
Hypothesis n_range : 96 <= n <= 128.
Hypothesis v_mapped : (v mod 2 ^ 128) / 2 ^ 32 = 65535.

Local Abbreviation ip4 :=
  (zip_with Z.land (be_bytes 4 v) (CIDRMask_loop 4 (n - 96))).
Local Abbreviation mask4 := (CIDRMask_loop 4 (n - 96)).



End Mapped.






Lemma IPNet_eta (ipnet : IPNet) :
  mkIPNet (net_IP ipnet) (net_Mask ipnet) = ipnet.
Proof. now destruct ipnet. Qed.

Section LoopMapped.
Context `{TextLib}.
Variables v n4 : Z.
Hypothesis n4_range : 0 <= n4 <= 32.

Local Abbreviation net4 := (cidr_net (Addr4 v) n4).
Local Abbreviation net16 :=
  (mkIPNet (v4InV6Prefix ++ net_IP (cidr_net (Addr4 v) n4))
           (replicate 12 255 ++ net_Mask (cidr_net (Addr4 v) n4))).
Local Abbreviation base := (base4 v (32 - n4)).





End LoopMapped.





(** *** Networks of sixteen bytes that are not IPv4-mapped *)




Section Range6.
Variables v n : Z.
Hypothesis n_range : 0 <= n <= 128.
Hypothesis not_mapped : To4 (net_IP (cidr_net (Addr6 v) n)) = None.

Local Abbreviation k := (128 - n).
Local Abbreviation ipnet := (cidr_net (Addr6 v) n).
Local Abbreviation base := ((v mod 2 ^ 128) / 2 ^ (128 - n) * 2 ^ (128 - n)).









End Range6.



Section Loop6.
Context `{TextLib}.
Variables v n : Z.
Hypothesis n_range : 0 <= n <= 128.
Hypothesis not_mapped : To4 (net_IP (cidr_net (Addr6 v) n)) = None.

Local Abbreviation ipnet := (cidr_net (Addr6 v) n).
Local Abbreviation base := ((v mod 2 ^ 128) / 2 ^ (128 - n) * 2 ^ (128 - n)).




End Loop6.

Section Enumerate.
Context `{TextLib}.




(** The enumeration of the IPv4 range of [v] with prefix length [n >= 1]:
    all [2 ^ (32 - n)] addresses, from the network address upwards. *)
Lemma enum_loop_range4 (v n : Z) (fuel : nat) :
  1 <= n <= 32 ->
  (Z.to_nat (2 ^ (32 - n)) < fuel)%nat ->
  let ipnet := cidr_net (Addr4 v) n in
  enum_loop fuel ipnet (first_ip ipnet) []
  = Some (hosts4 (base4 v (32 - n)) 0 (Z.to_nat (2 ^ (32 - n)))).
Proof.
  intros Hn Hf ipnet.
  assert (0 <= n <= 32) as Hn' by lia.
  assert (0 < 2 ^ (32 - n)) as Hp by (apply Z.pow_pos_nonneg; lia).
  destruct (net4_lengths v n Hn') as [Hl _].
  destruct (net4_bytes v n Hn') as [Hb _].
  destruct (base4_bounds v n Hn') as (B1 & B2 & _).
  unfold ipnet. rewrite net4_first_ip by assumption.
  rewrite (enum_loop_v4 v n Hn' (Z.to_nat (2 ^ (32 - n))) 0);
    [reflexivity | lia | assumption | assumption | | lia | assumption].
  rewrite net4_ip_val by assumption. rewrite Z.add_0_r.
  symmetry. apply Z.mod_small. lia.
Qed.

Lemma hosts4_slice (base : Z) (count : nat) :
  slice 1 (length (hosts4 base 0 count) - 1) (hosts4 base 0 count)
  = hosts4 base 1 (count - 2).
Proof.
  unfold slice, hosts4. rewrite length_map, length_seq.
  rewrite <- !fmap_drop, <- !fmap_take, drop_seq, take_seq.
  f_equal. f_equal. lia.
Qed.





(** An IPv4 range with an empty prefix: the loop never exits, whatever
    the number of iterations allowed. *)
Lemma IpsFromCIDR_zero_prefix (cidr : string) (v : Z) (fuel : nat) :
  ParseCIDR cidr = inr (cidr_net (Addr4 v) 0) ->
  IpsFromCIDR fuel cidr = None.
Proof.
  intros E. unfold IpsFromCIDR. rewrite E.
  assert (0 <= 0 <= 32) as Hn by lia.
  destruct (net4_lengths v 0 Hn) as [Hl _].
  destruct (net4_bytes v 0 Hn) as [Hb _].
  rewrite net4_first_ip by assumption.
  now rewrite (enum_loop_v4_all v 0 Hn fuel).
Qed.


Lemma trim_hosts4 (ipnet : IPNet) (base : Z) (count : nat) :
  is_Some (To4 (net_IP ipnet)) ->
  trim ipnet (hosts4 base 0 count) = range_result base count.
Proof.
  intros H4. unfold trim, range_result.
  rewrite bool_decide_eq_true_2 by exact H4.
  rewrite andb_true_r. unfold hosts4 at 1. rewrite length_map, length_seq.
  destruct (2 <? count)%nat; [|reflexivity].
  apply hosts4_slice.
Qed.


End Enumerate.

(** C3. The enumeration loop does not terminate on every accepted range:
    on the IPv4 range [0.0.0.0/0] the increment of [255.255.255.255] wraps
    to [0.0.0.0], which the range contains, so no number of iterations
    makes [IpsFromCIDR] return. *)
Theorem IpsFromCIDR_zero_prefix_never_returns (fuel : nat) :
  IpsFromCIDR (H:=sample.text) fuel "0.0.0.0/0" = None.
Proof.
  apply (IpsFromCIDR_zero_prefix (H:=sample.text) "0.0.0.0/0" 0 fuel).
  reflexivity.
Qed.


End enum_facts.

(* ===================================================================== *)
(** ** Several ranges in one argument                                     *)
(* ===================================================================== *)

Module cidrs_facts.
Import net notions probe enum_facts.

Lemma Split_nonempty (sep : ascii) (s : string) : Split sep s <> [].
Proof.
  destruct s as [|a s]; cbn [Split]; [discriminate|].
  destruct (Ascii.eqb a sep); [discriminate|].
  destruct (Split sep s); discriminate.
Qed.


Section WithTextLib.
Context `{TextLib}.





End WithTextLib.

End cidrs_facts.

(* ===================================================================== *)
(** ** The prober                                                         *)
(* ===================================================================== *)

Module prober_facts.
Import main notions.

(** *** Lists of workers under the update of one worker *)

Lemma filter_middle {A} (f : A -> bool) (l1 : list A) (x : A) (l2 : list A) :
  List.filter f (l1 ++ x :: l2)
  = List.filter f l1 ++ (if f x then [x] else []) ++ List.filter f l2.
Proof.
  rewrite List.filter_app. cbn [List.filter]. now destruct (f x).
Qed.

Lemma lookup_middle_split {A} (l : list A) (k : nat) (x : A) :
  l !! k = Some x ->
  exists l1 l2, l = l1 ++ x :: l2 /\ length l1 = k
                /\ forall y, <[k := y]> l = l1 ++ y :: l2.
Proof.
  intros Hk. apply list_elem_of_split_length in Hk as (l1 & l2 & -> & ->).
  exists l1, l2. split; [reflexivity|]. split; [reflexivity|].
  intros y. rewrite insert_app_r_alt, Nat.sub_diag by lia. reflexivity.
Qed.

Lemma Forall_take_middle {A} (P : A -> Prop) (i : nat) (l1 : list A) (x : A)
    (l2 : list A) :
  Forall P (take i (l1 ++ x :: l2)) -> ~ P x -> (i <= length l1)%nat.
Proof.
  intros Hall Hx. destruct (Nat.le_gt_cases i (length l1)) as [|Hgt];
    [assumption|].
  exfalso. apply Hx. rewrite Forall_forall in Hall. apply Hall.
  apply list_elem_of_lookup. exists (length l1).
  rewrite lookup_take_lt by lia. now rewrite list_lookup_middle.
Qed.

Lemma take_middle_le {A} (i : nat) (l1 : list A) (x y : A) (l2 : list A) :
  (i <= length l1)%nat ->
  take i (l1 ++ y :: l2) = take i (l1 ++ x :: l2).
Proof. intros Hi. now rewrite !take_app_le by assumption. Qed.

Lemma filter_none_Forall {A} (f : A -> bool) (l : list A) :
  length (List.filter (fun x => negb (f x)) l) = 0%nat ->
  Forall (fun x => f x = true) l.
Proof.
  induction l as [|x l IH]; [constructor|]. cbn [List.filter].
  destruct (f x) eqn:E; cbn [negb length]; [|discriminate].
  intros Hl. constructor; auto.
Qed.

Lemma Forall_filter_none {A} (f : A -> bool) (l : list A) :
  Forall (fun x => f x = true) l ->
  List.filter (fun x => negb (f x)) l = [].
Proof.
  induction 1 as [|x l Hx _ IH]; [reflexivity|].
  cbn [List.filter]. now rewrite Hx.
Qed.

Lemma filter_pos_elem {A} (f : A -> bool) (l : list A) :
  (0 < length (List.filter f l))%nat ->
  exists k x, l !! k = Some x /\ f x = true.
Proof.
  induction l as [|y l IH]; cbn [List.filter length]; [lia|].
  destruct (f y) eqn:E.
  - intros _. exists 0%nat, y. split; [reflexivity | assumption].
  - intros Hl. destruct (IH Hl) as (k & x & Hk & Hx).
    exists (S k), x. split; assumption.
Qed.

Lemma perm_snoc_middle {A} (d l1 l2 : list A) (x : A) :
  d ≡ₚ l1 ++ l2 -> d ++ [x] ≡ₚ l1 ++ x :: l2.
Proof.
  intros ->. rewrite <- (Permutation_middle (l1 ++ l2) [] x), app_nil_r.
  apply Permutation_middle.
Qed.

(** *** The invariant of the executions *)

Section Prober.
Variable DialAddress : string -> bool.
Variable ips : list string.
Variable batchSize : Z.
Hypothesis valid : invalid_batch batchSize = false.

Local Abbreviation b := (main.b batchSize).
Local Abbreviation Inv := (notions.Inv DialAddress ips batchSize).
Local Abbreviation pc_inv := (notions.pc_inv ips batchSize).
Local Abbreviation window := (notions.window ips batchSize).
Local Abbreviation step := (main.step DialAddress ips batchSize).
Local Abbreviation step_main := (main.step_main ips batchSize).
Local Abbreviation step_go := (main.step_go DialAddress).
Local Abbreviation step_rel := (main.step_rel DialAddress ips batchSize).
Local Abbreviation reachable := (main.reachable DialAddress ips batchSize).

Lemma b_pos : (1 <= b)%nat.
Proof.
  unfold main.b, effective_batch. unfold invalid_batch in valid.
  destruct (batchSize =? -1) eqn:E; [lia|].
  destruct (batchSize <=? 0) eqn:E0; [discriminate|]. lia.
Qed.

Lemma init_Inv : Inv (init batchSize).
Proof.
  unfold init. rewrite valid. constructor; cbn; try reflexivity.
  - split; [now exists 0%nat|]. split; constructor.
  - constructor.
Qed.

Lemma window_update i rest p p' l1 g g' l2 m w h d m' w' h' d' :
  window i rest (mkState p (l1 ++ g :: l2) m w h d) ->
  g_done g = false -> g_ip g' = g_ip g ->
  window i rest (mkState p' (l1 ++ g' :: l2) m' w' h' d').
Proof.
  unfold notions.window. cbn [gs]. intros (Hq & Hmap & Hdone) Hg Hip.
  split; [assumption|]. split.
  - rewrite <- Hmap, !map_app. cbn [map]. now rewrite Hip.
  - apply Forall_take_middle in Hdone as Hle; [|congruence].
    now rewrite (take_middle_le i l1 g g' l2).
Qed.

Lemma pc_inv_update p l1 g g' l2 m w h d m' w' h' d' :
  pc_inv (mkState p (l1 ++ g :: l2) m w h d) ->
  g_done g = false -> g_ip g' = g_ip g ->
  pc_inv (mkState p (l1 ++ g' :: l2) m' w' h' d').
Proof.
  unfold notions.pc_inv. cbn [pc gs]. intros Hpc Hg Hip.
  destruct p as [i|i rest|i| |msg].
  - destruct Hpc as (_ & _ & Hall). exfalso.
    apply Forall_app in Hall as [_ Hall]. apply Forall_cons in Hall as [Hd _].
    congruence.
  - destruct Hpc as (Hi & Hlen & Hw). split; [assumption|]. split.
    + rewrite length_app in *. cbn [length] in *. lia.
    + eapply window_update; eauto.
  - destruct Hpc as (Hi & Hw). split; [assumption|].
    eapply window_update; eauto.
  - destruct Hpc as (_ & Hall). exfalso.
    apply Forall_app in Hall as [_ Hall]. apply Forall_cons in Hall as [Hd _].
    congruence.
  - assumption.
Qed.

Lemma step_main_Inv s s' : Inv s -> step_main s = Some s' -> Inv s'.
Proof.
  intros [Hpc Hwg Hmu Hdial Hhosts Hdialed] Hstep.
  destruct s as [p gs0 m w h d]. unfold main.step_main in Hstep.
  unfold notions.pc_inv, outstanding, in_critical in *.
  cbn [pc gs mu wg talosHosts dialed] in *.
  pose proof b_pos as Hb.
  destruct p as [i|i [|ip rest]|i| |msg]; try discriminate.
  - (* loop head *)
    destruct Hpc as ((q & Hq) & Hmap & Hall).
    destruct (i <? length ips)%nat eqn:Ei.
    + apply Nat.ltb_lt in Ei. injection Hstep as <-.
      constructor; unfold notions.pc_inv, outstanding, in_critical;
        cbn [pc gs mu wg talosHosts dialed pending]; try assumption.
      * split; [assumption|]. split.
        { rewrite <- (length_map g_ip gs0), Hmap, length_take_le; lia. }
        unfold notions.window. cbn [gs]. split; [now exists q|]. split.
        { rewrite Hmap, <- take_take_drop. f_equal.
          unfold probe.slice. destruct (length ips <? i + b)%nat eqn:Ee.
          - apply Nat.ltb_lt in Ee.
            rewrite !take_ge; rewrite ?length_drop; auto; lia.
          - f_equal. lia. }
        now apply Forall_take.
      * rewrite Hwg. cbn [pending]. lia.
    + apply Nat.ltb_ge in Ei. injection Hstep as <-.
      constructor; unfold notions.pc_inv, outstanding, in_critical;
        cbn [pc gs mu wg talosHosts dialed pending set_pc]; try assumption.
      split; [|assumption]. rewrite Hmap. now apply take_ge.
  - (* all workers of the batch started *)
    injection Hstep as <-. destruct Hpc as (Hi & Hlen & Hw).
    constructor; unfold notions.pc_inv, outstanding, in_critical;
      cbn [pc gs mu wg talosHosts dialed pending set_pc]; try assumption.
    split; assumption.
  - (* start one worker *)
    injection Hstep as <-. destruct Hpc as (Hi & Hlen & (Hq & Hmap & Hdone)).
    constructor; unfold notions.pc_inv, outstanding, in_critical;
      cbn [pc gs mu wg talosHosts dialed pending].
    + split; [assumption|]. split; [rewrite length_app; cbn; lia|].
      unfold notions.window in *. cbn [gs] in *.
      split; [assumption|]. split.
      * rewrite map_app, <- app_assoc. exact Hmap.
      * now rewrite take_app_le.
    + rewrite Hwg, List.filter_app, length_app. cbn. lia.
    + rewrite List.filter_app, length_app. cbn. lia.
    + apply Forall_app. split; [assumption|]. constructor; [|constructor].
      discriminate.
    + rewrite List.filter_app. cbn. now rewrite app_nil_r.
    + rewrite List.filter_app. cbn. now rewrite app_nil_r.
  - (* the batch has drained *)
    destruct (w =? 0) eqn:Ew; [|discriminate]. injection Hstep as <-.
    apply Z.eqb_eq in Ew. unfold notions.window in Hpc. cbn [gs] in Hpc.
    destruct Hpc as (Hi & (q & Hq) & Hmap & Hdone).
    cbn [pending] in Hwg.
    assert (Forall (fun g => g_done g = true) gs0) as Hall
        by (apply filter_none_Forall; lia).
    constructor; unfold notions.pc_inv, outstanding, in_critical;
      cbn [pc gs mu wg talosHosts dialed pending set_pc]; try assumption.
    split; [exists (S q); lia|]. split; [|assumption].
    now rewrite app_nil_r in Hmap.
Qed.

Ltac worker_fields :=
  unfold outstanding, in_critical in *;
  cbn [pc gs mu wg talosHosts dialed] in *;
  rewrite ?filter_middle, ?length_app, ?map_app in *;
  cbn [g_done g_critical contributed past_dial has_dialed negb g_ip
       length map app] in *.

Lemma step_go_Inv k s s' : Inv s -> step_go k s = Some s' -> Inv s'.
Proof.
  intros [Hpc Hwg Hmu Hdial Hhosts Hdialed] Hstep.
  destruct s as [p gs0 m w h d]. unfold main.step_go in Hstep.
  cbn [pc gs mu wg talosHosts dialed] in Hstep.
  destruct (gs0 !! k) as [g|] eqn:Hk; [|discriminate].
  apply lookup_middle_split in Hk as (l1 & l2 & -> & Hlen & Hins).
  apply Forall_app in Hdial as Hd. destruct Hd as [Hd1 Hd].
  apply Forall_cons in Hd as [Hdg Hd2].
  destruct g as [ip|ip|ip|ip|ip|ip]; try discriminate;
    rewrite Hins in Hstep; clear Hins.
  - (* the dial *)
    injection Hstep as <-.
    destruct (DialAddress (dial_target ip)) eqn:Ed.
    + constructor; [eapply pc_inv_update; eauto | | | | |]; worker_fields.
      * rewrite Hwg. lia.
      * assumption.
      * apply Forall_app. split; [assumption|]. constructor; [|assumption].
        intros _. exact Ed.
      * assumption.
      * now apply perm_snoc_middle.
    + constructor; [eapply pc_inv_update; eauto | | | | |]; worker_fields.
      * rewrite Hwg. lia.
      * assumption.
      * apply Forall_app. split; [assumption|]. constructor; [|assumption].
        discriminate.
      * rewrite Ed. assumption.
      * now apply perm_snoc_middle.
  - (* the lock *)
    destruct m; [discriminate|]. injection Hstep as <-.
    constructor; [eapply pc_inv_update; eauto | | | | |]; worker_fields.
    + rewrite Hwg. lia.
    + lia.
    + apply Forall_app. split; [assumption|]. constructor; assumption.
    + assumption.
    + assumption.
  - (* the append *)
    injection Hstep as <-.
    constructor; [eapply pc_inv_update; eauto | | | | |]; worker_fields.
    + rewrite Hwg. lia.
    + assumption.
    + apply Forall_app. split; [assumption|]. constructor; assumption.
    + now apply perm_snoc_middle.
    + assumption.
  - (* the unlock *)
    injection Hstep as <-.
    constructor; [eapply pc_inv_update; eauto | | | | |]; worker_fields.
    + rewrite Hwg. lia.
    + destruct m; lia.
    + apply Forall_app. split; [assumption|]. constructor; [|assumption].
      discriminate.
    + rewrite (Hdg eq_refl). assumption.
    + assumption.
  - (* the deferred Done *)
    injection Hstep as <-.
    constructor; [eapply pc_inv_update; eauto | | | | |]; worker_fields.
    + rewrite Hwg. lia.
    + assumption.
    + apply Forall_app. split; [assumption|]. constructor; [|assumption].
      discriminate.
    + destruct (DialAddress (dial_target ip)); assumption.
    + assumption.
Qed.

Lemma step_Inv t s s' : Inv s -> step t s = Some s' -> Inv s'.
Proof.
  destruct t as [|k]; [apply step_main_Inv | apply step_go_Inv].
Qed.

Lemma reachable_Inv s : reachable s -> Inv s.
Proof.
  unfold main.reachable. intros Hr.
  refine (rtc_ind_r (R:=step_rel) (fun s => Inv s) (init batchSize)
            init_Inv _ s Hr).
  intros y z _ (t & Hstep) IH. eapply step_Inv; eauto.
Qed.

(** *** Progress and termination under every schedule *)

Lemma progress s :
  Inv s -> pc s <> MReturn -> exists t s', step t s = Some s'.
Proof.
  intros [Hpc Hwg Hmu _ _ _] Hnr.
  destruct s as [p gs0 m w h d]. unfold notions.pc_inv in Hpc.
  unfold outstanding, in_critical in *.
  cbn [pc gs mu wg talosHosts dialed] in *.
  destruct p as [i|i rest|i| |msg]; [| | |congruence|contradiction].
  - exists Main. cbn [main.step main.step_main pc].
    destruct (i <? length ips)%nat; eauto.
  - exists Main. cbn [main.step main.step_main pc]. destruct rest; eauto.
  - destruct (w =? 0) eqn:Ew.
    { exists Main. cbn [main.step main.step_main pc wg]. rewrite Ew. eauto. }
    apply Z.eqb_neq in Ew. cbn [pending] in Hwg.
    destruct (filter_pos_elem (fun g => negb (g_done g)) gs0)
      as (k & g & Hk & Hg); [lia|].
    destruct g as [ip|ip|ip|ip|ip|ip]; try discriminate;
      try (exists (Go k); cbn [main.step]; unfold main.step_go;
           cbn [gs]; rewrite Hk; eauto; fail).
    destruct m eqn:Em.
    + destruct (filter_pos_elem g_critical gs0) as (k' & g' & Hk' & Hg');
        [lia|].
      exists (Go k'). cbn [main.step]. unfold main.step_go. cbn [gs].
      rewrite Hk'. destruct g'; try discriminate; eauto.
    + exists (Go k). cbn [main.step]. unfold main.step_go. cbn [gs mu].
      rewrite Hk. eauto.
Qed.

Lemma sum_work_middle l1 g l2 :
  sum_list_with g_work (l1 ++ g :: l2)
  = (sum_list_with g_work l1 + g_work g + sum_list_with g_work l2)%nat.
Proof. rewrite sum_list_with_app. cbn [sum_list_with]. lia. Qed.

Lemma step_work t s s' :
  step t s = Some s' ->
  (notions.work ips batchSize s' < notions.work ips batchSize s)%nat.
Proof.
  pose proof b_pos as Hb. unfold notions.work.
  destruct s as [p gs0 m w h d]. destruct t as [|k]; cbn [main.step].
  - unfold main.step_main. cbn [pc gs mu wg talosHosts dialed].
    destruct p as [i|i [|ip rest]|i| |msg]; try discriminate.
    + destruct (i <? length ips)%nat eqn:Ei.
      * apply Nat.ltb_lt in Ei. intros E. injection E as <-.
        cbn [pc gs main_work]. unfold probe.slice.
        rewrite length_take, length_drop.
        destruct (length ips <? i + b)%nat eqn:Ee;
          [apply Nat.ltb_lt in Ee | apply Nat.ltb_ge in Ee]; lia.
      * intros E. injection E as <-. cbn [pc gs main_work set_pc]. lia.
    + intros E. injection E as <-. cbn [pc gs main_work set_pc]. lia.
    + intros E. injection E as <-. cbn [pc gs main_work].
      rewrite sum_list_with_app. cbn. lia.
    + destruct (w =? 0); [|discriminate]. intros E. injection E as <-.
      cbn [pc gs main_work set_pc]. lia.
  - unfold main.step_go. cbn [pc gs mu wg talosHosts dialed].
    destruct (gs0 !! k) as [g|] eqn:Hk; [|discriminate].
    apply lookup_middle_split in Hk as (l1 & l2 & -> & Hlen & Hins).
    destruct g as [ip|ip|ip|ip|ip|ip]; try discriminate;
      rewrite Hins; clear Hins.
    + intros E. injection E as <-. cbn [pc gs]. rewrite !sum_work_middle.
      destruct (DialAddress (dial_target ip)); cbn [g_work]; lia.
    + destruct m; [discriminate|]. intros E. injection E as <-.
      cbn [pc gs]. rewrite !sum_work_middle. cbn [g_work]. lia.
    + intros E. injection E as <-. cbn [pc gs]. rewrite !sum_work_middle.
      cbn [g_work]. lia.
    + intros E. injection E as <-. cbn [pc gs]. rewrite !sum_work_middle.
      cbn [g_work]. lia.
    + intros E. injection E as <-. cbn [pc gs]. rewrite !sum_work_middle.
      cbn [g_work]. lia.
Qed.

Lemma pc_return_dec (s : state) : pc s = MReturn \/ pc s <> MReturn.
Proof. destruct (pc s); (now left) || (right; discriminate). Qed.

(** From every state of an execution, the call can be run to its
    [return], and no schedule can postpone it beyond [work] steps. *)
Lemma reaches_return (n : nat) : forall s,
  (notions.work ips batchSize s <= n)%nat -> Inv s ->
  exists s', rtc step_rel s s' /\ pc s' = MReturn.
Proof.
  induction n as [|n IH]; intros s Hw Hinv.
  - destruct (pc_return_dec s) as [E|N].
    + exists s. split; [constructor | assumption].
    + destruct (progress s Hinv N) as (t & s' & Hstep).
      apply step_work in Hstep. lia.
  - destruct (pc_return_dec s) as [E|N].
    + exists s. split; [constructor | assumption].
    + destruct (progress s Hinv N) as (t & s' & Hstep).
      destruct (IH s') as (s'' & Hrtc & Hret).
      * apply step_work in Hstep. lia.
      * eapply step_Inv; eauto.
      * exists s''. split; [|assumption].
        eapply rtc_l; [exists t; exact Hstep | exact Hrtc].
Qed.

(** *** The result at the [return] *)

Lemma contributed_done (l : list goroutine) :
  Forall (fun g => g_done g = true) l ->
  map g_ip (List.filter (contributed DialAddress) l)
  = List.filter (fun ip => DialAddress (dial_target ip)) (map g_ip l).
Proof.
  induction 1 as [|g l Hg _ IH]; [reflexivity|].
  destruct g; try discriminate. cbn [map List.filter contributed g_ip].
  destruct (DialAddress (dial_target ip)); cbn [map g_ip]; now rewrite IH.
Qed.

Lemma dialed_done (l : list goroutine) :
  Forall (fun g => g_done g = true) l ->
  map (fun g => dial_target (g_ip g)) (List.filter has_dialed l)
  = map dial_target (map g_ip l).
Proof.
  induction 1 as [|g l Hg _ IH]; [reflexivity|].
  destruct g; try discriminate. cbn [map List.filter has_dialed g_ip].
  now rewrite IH.
Qed.

Lemma at_return s :
  Inv s -> pc s = MReturn ->
  talosHosts s ≡ₚ reachable_ips DialAddress ips
  /\ dialed s ≡ₚ map dial_target ips
  /\ outstanding s = 0%nat.
Proof.
  intros [Hpc _ _ _ Hhosts Hdialed] Hret. unfold notions.pc_inv in Hpc.
  rewrite Hret in Hpc. destruct Hpc as [Hmap Hall].
  split; [|split].
  - rewrite Hhosts, contributed_done, Hmap by assumption. reflexivity.
  - rewrite Hdialed, dialed_done, Hmap by assumption. reflexivity.
  - unfold outstanding. now rewrite Forall_filter_none.
Qed.

(** *** Bounds that hold in every state *)

Lemma filter_length_bound {A} (f : A -> bool) (l : list A) :
  (length (List.filter f l) <= length l)%nat.
Proof.
  induction l as [|x l IH]; [reflexivity|]. cbn [List.filter].
  destruct (f x); cbn [length]; lia.
Qed.

Lemma window_bounds i rest s :
  window i rest s ->
  (outstanding s <= b)%nat
  /\ map g_ip (gs s) `prefix_of` ips
  /\ (forall N j, (j < length (gs s))%nat -> ((N + 1) * b <= j)%nat ->
       Forall (fun g => g_done g = true) (take ((N + 1) * b) (gs s))).
Proof.
  intros ((q & ->) & Hmap & Hdone).
  assert (length (gs s) <= q * b + b)%nat as Hlen.
  { rewrite <- (length_map g_ip).
    assert (length (map g_ip (gs s) ++ rest)
            = length (take (q * b + b) ips)) as E by now rewrite Hmap.
    rewrite length_app, length_take in E. lia. }
  split; [|split].
  - unfold outstanding. rewrite <- (take_drop (q * b) (gs s)).
    rewrite List.filter_app, length_app.
    rewrite (Forall_filter_none g_done (take (q * b) (gs s)) Hdone).
    pose proof (filter_length_bound (fun g => negb (g_done g))
                  (drop (q * b) (gs s))) as Hf.
    rewrite length_drop in Hf. cbn [length]. lia.
  - exists (rest ++ drop (q * b + b) ips).
    rewrite app_assoc, Hmap. now rewrite take_drop.
  - intros N j Hj HN.
    assert (N + 1 <= q)%nat as Hq by nia.
    replace (take ((N + 1) * b) (gs s))
      with (take ((N + 1) * b) (take (q * b) (gs s))).
    + now apply Forall_take.
    + rewrite take_take. f_equal. nia.
Qed.

Lemma Inv_bounds s :
  Inv s ->
  (outstanding s <= b)%nat
  /\ (in_critical s <= 1)%nat
  /\ map g_ip (gs s) `prefix_of` ips
  /\ (forall N j, (j < length (gs s))%nat -> ((N + 1) * b <= j)%nat ->
       Forall (fun g => g_done g = true) (take ((N + 1) * b) (gs s))).
Proof.
  intros [Hpc _ Hmu _ _ _].
  assert (in_critical s <= 1)%nat as Hc by (rewrite Hmu; destruct (mu s); lia).
  unfold notions.pc_inv in Hpc.
  assert (Forall (fun g => g_done g = true) (gs s) ->
          map g_ip (gs s) `prefix_of` ips ->
          (outstanding s <= b)%nat
          /\ (in_critical s <= 1)%nat
          /\ map g_ip (gs s) `prefix_of` ips
          /\ (forall N j, (j < length (gs s))%nat -> ((N + 1) * b <= j)%nat ->
               Forall (fun g => g_done g = true) (take ((N + 1) * b) (gs s))))
    as Hall_done.
  { intros Hall Hpre. split; [|split; [assumption|split; [assumption|]]].
    - unfold outstanding. rewrite Forall_filter_none by assumption. cbn. lia.
    - intros N j _ _. now apply Forall_take. }
  destruct (pc s) as [i|i rest|i| |msg].
  - destruct Hpc as (_ & Hmap & Hall). apply Hall_done; [assumption|].
    rewrite Hmap. apply prefix_take.
  - destruct Hpc as (_ & _ & Hw).
    destruct (window_bounds _ _ _ Hw) as (? & ? & ?). auto.
  - destruct Hpc as (_ & Hw).
    destruct (window_bounds _ _ _ Hw) as (? & ? & ?). auto.
  - destruct Hpc as (Hmap & Hall). apply Hall_done; [assumption|].
    now rewrite Hmap.
  - contradiction.
Qed.

(** The call returns, with the reachable addresses. *)
Lemma returns_from s :
  reachable s ->
  exists s', rtc step_rel s s' /\ reachable s' /\ pc s' = MReturn
             /\ talosHosts s' ≡ₚ reachable_ips DialAddress ips.
Proof.
  intros Hr. pose proof (reachable_Inv s Hr) as Hinv.
  destruct (reaches_return _ s (le_n _) Hinv) as (s' & Hrtc & Hret).
  assert (reachable s') as Hr' by (unfold main.reachable in *; eapply rtc_trans; eauto).
  exists s'. split; [assumption|]. split; [assumption|].
  split; [assumption|].
  now apply at_return; [apply reachable_Inv|].
Qed.

End Prober.

(** *** Running a schedule *)

Lemma run_steps DialAddress ips batchSize sched : forall s,
  rtc (step_rel DialAddress ips batchSize) s
      (run DialAddress ips batchSize sched s).
Proof.
  induction sched as [|t sched IH]; intros s; [constructor|].
  cbn [run]. destruct (step DialAddress ips batchSize t s) as [s'|] eqn:E.
  - eapply rtc_l; [exists t; exact E | apply IH].
  - apply IH.
Qed.

Lemma run_reachable DialAddress ips batchSize sched :
  reachable DialAddress ips batchSize
            (run DialAddress ips batchSize sched (init batchSize)).
Proof. apply run_steps. Qed.

(** *** An invalid batch size *)

Lemma fatal_stuck DialAddress ips batchSize s :
  invalid_batch batchSize = true ->
  reachable DialAddress ips batchSize s -> s = init batchSize.
Proof.
  intros Hinv Hr. unfold reachable in Hr.
  apply rtc_inv in Hr as [E|(y & (t & Hstep) & _)]; [now symmetry|].
  exfalso. unfold init in Hstep. rewrite Hinv in Hstep.
  destruct t as [|k]; cbn in Hstep; discriminate.
Qed.

Lemma valid_of_pos (batchSize : Z) :
  0 < batchSize ->
  invalid_batch batchSize = false /\ b batchSize = Z.to_nat batchSize.
Proof.
  intros Hpos. unfold invalid_batch, b, effective_batch.
  destruct (batchSize <=? 0) eqn:E; [lia|].
  destruct (batchSize =? -1) eqn:E1; [lia|]. auto.
Qed.

(** *** The properties of the prober *)

Lemma elem_of_reachable_ips DialAddress ips x :
  x ∈ reachable_ips DialAddress ips <->
  x ∈ ips /\ DialAddress (dial_target x) = true.
Proof.
  unfold reachable_ips. rewrite !list_elem_of_In.
  apply (List.filter_In (fun ip => DialAddress (dial_target ip))).
Qed.


(** C8. With a positive batch size [b], in every state of every
    execution: at most [b] workers have started and not finished; worker
    [j] probes the [j]-th address, so the batches are the consecutive
    runs of [b] addresses; a worker of a later batch exists only when all
    workers of the batches before it have finished; and at most one
    worker is between [mu.Lock()] and [mu.Unlock()], where the append to
    [talosHosts] happens. *)
Theorem probe_bounded_concurrency
    (DialAddress : string -> bool) (ips : list string) (batchSize : Z)
    (s : state) :
  0 < batchSize ->
  reachable DialAddress ips batchSize s ->
  (outstanding s <= Z.to_nat batchSize)%nat
  /\ (in_critical s <= 1)%nat
  /\ map g_ip (gs s) `prefix_of` ips
  /\ (forall N j,
      (j < length (gs s))%nat -> ((N + 1) * Z.to_nat batchSize <= j)%nat ->
      Forall (fun g => g_done g = true)
             (take ((N + 1) * Z.to_nat batchSize) (gs s))).
Proof.
  intros Hpos Hr. destruct (valid_of_pos batchSize Hpos) as [Hvalid Hb].
  rewrite <- Hb.
  apply (Inv_bounds DialAddress ips batchSize).
  now apply reachable_Inv.
Qed.

(** C10. Whenever the prober returns to its caller, the error it returns
    is nil; and with a batch size that passes the guard it does return. *)
Theorem probe_error_is_nil
    (DialAddress : string -> bool) (ips : list string) (batchSize : Z) :
  (forall s hosts err,
      reachable DialAddress ips batchSize s ->
      returned s = Some (hosts, err) -> err = None)
  /\ (invalid_batch batchSize = false ->
      exists s hosts,
        reachable DialAddress ips batchSize s
        /\ returned s = Some (hosts, None)).
Proof.
  split.
  - intros s hosts err _ E. unfold returned in E.
    destruct (pc s); try discriminate. now injection E as <- <-.
  - intros Hvalid.
    destruct (returns_from DialAddress ips batchSize Hvalid (init batchSize))
      as (s' & _ & Hr & Hpc & _); [constructor|].
    exists s', (talosHosts s'). split; [assumption|].
    unfold returned. now rewrite Hpc.
Qed.

(** C6, as the code has it. The sentinel [-1] makes the call the same
    as the call with batch size [100]: the same initial state and the same
    steps.  With zero or a negative batch size other than [-1] the call
    ends the process through [log.Fatal] with a fixed message: the only
    state of the execution is the one after [log.Fatal], in which no
    worker was started and no connection attempt was issued, and nothing
    is returned to the caller. *)
Theorem probe_batch_size_guard
    (DialAddress : string -> bool) (ips : list string) :
  (init (-1) = init 100
   /\ (forall t s, step DialAddress ips (-1) t s = step DialAddress ips 100 t s)
   /\ (forall s, reachable DialAddress ips (-1) s
                 <-> reachable DialAddress ips 100 s))
  /\ (forall batchSize s,
      batchSize <= 0 -> batchSize <> -1 ->
      reachable DialAddress ips batchSize s ->
      pc s = MFatal fatal_msg
      /\ gs s = [] /\ dialed s = [] /\ talosHosts s = []
      /\ returned s = None).
Proof.
  split.
  - assert (forall t s,
              step DialAddress ips (-1) t s = step DialAddress ips 100 t s)
      as Hstep by reflexivity.
    split; [reflexivity|]. split; [assumption|].
    intros s. unfold reachable. change (init (-1)) with (init 100).
    assert (forall x y, step_rel DialAddress ips (-1) x y
                        <-> step_rel DialAddress ips 100 x y) as Hrel.
    { intros x y. unfold step_rel. split; intros (t & Ht); exists t;
        [rewrite <- Hstep | rewrite Hstep]; assumption. }
    split; intros Hr; induction Hr as [|x y z Hxy _ IH];
      try constructor; (eapply rtc_l; [apply Hrel; exact Hxy | exact IH]).
  - intros batchSize s Hle Hne Hr.
    assert (invalid_batch batchSize = true) as Hinv.
    { unfold invalid_batch. destruct (batchSize <=? 0) eqn:E; [|lia].
      destruct (batchSize =? -1) eqn:E1; [lia | reflexivity]. }
    rewrite (fatal_stuck _ _ _ _ Hinv Hr). unfold init, returned.
    rewrite Hinv. cbn. auto.
Qed.

(** The bad batch size does not come back to the caller as an error
    that names it, which is how C6 is worded: with batch size [0] no state
    of the execution is a return, and the state reached is the same as
    for batch size [-7], so it does not tell the two values apart. *)
Lemma invalid_batch_not_returned :
  ~ error_reaches_caller (fun _ => true) ["10.0.0.1"] 0
  /\ init 0 = init (-7).
Proof.
  split; [|reflexivity].
  intros (s & hosts & e & Hr & E).
  apply fatal_stuck in Hr; [|reflexivity]. subst s. discriminate.
Qed.

End prober_facts.

(* ===================================================================== *)
(** ** The properties on concrete inputs                                  *)
(* ===================================================================== *)

Module instances.
Import net notions probe talos main.
Import reconcile_facts member_facts enum_facts cidrs_facts prober_facts.

(** A member with internal address [10.0.0.1], one host that is this
    member and one that is no address: every host is skipped. *)
Lemma reconcile_order_preserving_filter_witness :
  reconcile (H:=sample.text) ["10.0.0.1"; "bad"] [sample.member1] = [].
Proof.
  apply (reconcile_order_preserving_filter (H:=sample.text)
           [sample.member1] ["10.0.0.1"; "bad"]).
  intros h Hh. apply elem_of_cons in Hh as [-> | Hh].
  - right. exists sample.member1. split; [left | reflexivity].
  - apply elem_of_cons in Hh as [-> | Hh]; [left; reflexivity|].
    inversion Hh.
Defined.

(** The first address of a member that parses as IPv4, after one that
    does not. *)
Lemma internal_address_of_member_witness :
  extractInternalIP (H:=sample.text) ["fe80::1"; "10.0.0.1"; "x"] = "10.0.0.1".
Proof.
  apply (proj1 (internal_address_of_member (H:=sample.text))
           ["fe80::1"] "10.0.0.1" ["x"]).
  - repeat constructor.
  - reflexivity.
Defined.




(** The same execution, stopped while both workers of the first batch
    are running and one of them holds the mutex. *)
Lemma probe_bounded_concurrency_witness :
  0 < 2
  /\ (outstanding sample.mid_state <= 2)%nat
  /\ (in_critical sample.mid_state <= 1)%nat.
Proof.
  split; [lia|].
  destruct (probe_bounded_concurrency sample.dial sample.ips3 2
              sample.mid_state ltac:(lia) (run_reachable _ _ _ _))
    as (H1 & H2 & _).
  split; [exact H1 | exact H2].
Defined.

Lemma probe_error_is_nil_witness :
  returned sample.final_state = Some (["10.0.0.2"; "10.0.0.3"], None)
  /\ (None : option string) = None.
Proof.
  split; [reflexivity|].
  exact (proj1 (probe_error_is_nil sample.dial sample.ips3 2)
           sample.final_state ["10.0.0.2"; "10.0.0.3"] None
           (run_reachable _ _ _ _) eq_refl).
Defined.

(** Batch size zero: the process has exited before any worker exists. *)
Lemma probe_batch_size_guard_witness :
  pc (init 0) = MFatal fatal_msg /\ dialed (init 0) = [].
Proof.
  destruct (proj2 (probe_batch_size_guard (fun _ => true) ["10.0.0.1"])
              0 (init 0) ltac:(lia) ltac:(lia) (rtc_refl _ _))
    as (H1 & _ & H3 & _).
  split; [exact H1 | exact H3].
Defined.

End instances.

(* ===================================================================== *)
(** ** The enumerator: further properties                                 *)
(* ===================================================================== *)

Module enum_props.
Import net notions probe bytes_facts nextIP_facts mask_facts enum_facts
       cidrs_facts.

Lemma be_val_zeros (n : nat) : be_val (replicate n 0) = 0.
Proof.
  induction n as [|n IH]; [reflexivity|].
  cbn [replicate]. rewrite be_val_cons, IH. lia.
Qed.

(** X1. [nextIP] keeps the length of the address and turns it into its
    successor as a big-endian number; the address of all ones wraps to
    the address of all zeros. *)
Theorem nextIP_successor (ip : IP) :
  bytes ip ->
  length (nextIP ip) = length ip
  /\ bytes (nextIP ip)
  /\ (be_val ip + 1 < 256 ^ Z.of_nat (length ip) ->
      be_val (nextIP ip) = be_val ip + 1)
  /\ (be_val ip + 1 = 256 ^ Z.of_nat (length ip) ->
      nextIP ip = replicate (length ip) 0).
Proof.
  intros Hb. destruct (nextIP_spec ip Hb) as (Hl & Hb' & Hv).
  pose proof (be_val_bound ip Hb) as B.
  split; [exact Hl|]. split; [exact Hb'|]. split.
  - intros Hlt. rewrite Hv. apply Z.mod_small. lia.
  - intros Heq. apply be_val_inj.
    + exact Hb'.
    + apply Forall_replicate. lia.
    + now rewrite length_replicate.
    + rewrite Hv, Heq, Z.mod_same, be_val_zeros; [reflexivity|].
      rewrite <- Heq. lia.
Qed.

Lemma nextIP_successor_witness :
  nextIP [10; 0; 0; 255] = [10; 0; 1; 0]
  /\ nextIP [255; 255; 255; 255] = replicate 4 0.
Proof.
  assert (bytes [255; 255; 255; 255]) as H2 by (repeat constructor; lia).
  split.
  - reflexivity.
  - exact (proj2 (proj2 (proj2 (nextIP_successor [255; 255; 255; 255] H2)))
                 eq_refl).
Defined.

Section WithTextLib.
Context `{TextLib}.


Lemma trim_length (ipnet : IPNet) (gen : list string) :
  length (trim ipnet gen)
  = if (2 <? length gen)%nat && bool_decide (is_Some (To4 (net_IP ipnet)))
    then (length gen - 2)%nat else length gen.
Proof.
  unfold trim, slice.
  destruct ((2 <? length gen)%nat && bool_decide (is_Some (To4 (net_IP ipnet))))
    eqn:E; [|reflexivity].
  apply andb_true_iff in E as [E _]. apply Nat.ltb_lt in E.
  rewrite length_take, length_drop. lia.
Qed.


End WithTextLib.


Section Ranges.
Context `{TextLib}.

(** X3. An IPv4 range with a prefix of [n] bits, [1 <= n <= 30], yields
    [2 ^ (32 - n) - 2] candidates; a [/31] yields two and a [/32] one. *)
Theorem IpsFromCIDR_v4_count (cidr : string) (v n : Z) (fuel : nat) :
  ParseCIDR cidr = inr (cidr_net (Addr4 v) n) ->
  1 <= n <= 32 ->
  (Z.to_nat (2 ^ (32 - n)) < fuel)%nat ->
  exists r,
    IpsFromCIDR fuel cidr = Some (r, None)
    /\ Z.of_nat (length r)
       = if n <=? 30 then 2 ^ (32 - n) - 2 else 2 ^ (32 - n).
Proof.
  intros Hparse Hn Hf.
  assert (0 <= n <= 32) as Hn' by lia.
  destruct (net4_lengths v n Hn') as [Hl _].
  pose proof (enum_loop_range4 v n fuel Hn Hf) as Hloop. cbv zeta in Hloop.
  eexists. unfold IpsFromCIDR. rewrite Hparse, Hloop.
  split; [reflexivity|].
  rewrite trim_length. unfold hosts4. rewrite length_map, length_seq.
  rewrite bool_decide_eq_true_2 by (unfold To4; rewrite Hl; cbn; eauto).
  rewrite andb_true_r.
  assert (0 < 2 ^ (32 - n)) as Hp by (apply Z.pow_pos_nonneg; lia).
  destruct (n <=? 30) eqn:E30.
  - assert (4 <= 2 ^ (32 - n)) as H4.
    { change 4 with (2 ^ 2). apply Z.pow_le_mono_r; lia. }
    destruct (2 <? Z.to_nat (2 ^ (32 - n)))%nat eqn:E2;
      [lia | apply Nat.ltb_ge in E2; lia].
  - assert (2 ^ (32 - n) <= 2) as H2.
    { change 2 with (2 ^ 1) at 2. apply Z.pow_le_mono_r; lia. }
    destruct (2 <? Z.to_nat (2 ^ (32 - n)))%nat eqn:E2;
      [apply Nat.ltb_lt in E2; lia | lia].
Qed.

(** X4. The host bits of the address in an IPv4 range are ignored: two
    ranges with the same prefix length whose addresses agree on the
    prefix bits give the same result. *)
Theorem IpsFromCIDR_host_bits_ignored (cidr cidr' : string) (v v' n : Z)
    (fuel : nat) :
  0 <= n <= 32 ->
  ParseCIDR cidr = inr (cidr_net (Addr4 v) n) ->
  ParseCIDR cidr' = inr (cidr_net (Addr4 v') n) ->
  (v mod 2 ^ 32) / 2 ^ (32 - n) = (v' mod 2 ^ 32) / 2 ^ (32 - n) ->
  IpsFromCIDR fuel cidr = IpsFromCIDR fuel cidr'.
Proof.
  intros Hn Hp Hp' Hv.
  assert (cidr_net (Addr4 v) n = cidr_net (Addr4 v') n) as E.
  { rewrite <- (IPNet_eta (cidr_net (Addr4 v) n)),
            <- (IPNet_eta (cidr_net (Addr4 v') n)).
    f_equal. apply be_val_inj.
    - apply (net4_bytes v n Hn).
    - apply (net4_bytes v' n Hn).
    - destruct (net4_lengths v n Hn) as [-> _].
      now destruct (net4_lengths v' n Hn) as [-> _].
    - rewrite !net4_ip_val by assumption. unfold base4. now rewrite Hv. }
  unfold IpsFromCIDR. now rewrite Hp, Hp', E.
Qed.


End Ranges.

Lemma IpsFromCIDR_v4_count_witness :
  exists r,
    IpsFromCIDR (H:=sample.text) 300 "10.3.5.1/24" = Some (r, None)
    /\ Z.of_nat (length r) = 254.
Proof.
  apply (IpsFromCIDR_v4_count (H:=sample.text) "10.3.5.1/24" 167970049 24 300).
  - reflexivity.
  - lia.
  - vm_compute. lia.
Defined.

Lemma IpsFromCIDR_host_bits_ignored_witness :
  IpsFromCIDR (H:=sample.text) 10 "10.3.5.1/30"
  = IpsFromCIDR (H:=sample.text) 10 "10.3.5.3/30".
Proof.
  apply (IpsFromCIDR_host_bits_ignored (H:=sample.text)
           "10.3.5.1/30" "10.3.5.3/30" 167970049 167970051 30 10).
  - lia.
  - reflexivity.
  - reflexivity.
  - reflexivity.
Defined.


(** *** Texts that are rejected, and lists of ranges *)

Lemma dtoi_loop_ok (s : string) : forall n i n' i',
  dtoi_loop s n i = (n', i', true) ->
  (i' = i + String.length s)%nat -> all_digits s = true.
Proof.
  assert (forall s n i n' i', dtoi_loop s n i = (n', i', true) ->
            (i' <= i + String.length s)%nat) as Hle.
  { clear s. induction s as [|c s IH]; intros n i n' i' E; cbn in E.
    - destruct (i =? 0)%nat; [discriminate|]. injection E as _ <-. cbn. lia.
    - destruct (is_digit c).
      + destruct (big <=? _); [discriminate|].
        apply IH in E. cbn [String.length]. lia.
      + destruct (i =? 0)%nat; [discriminate|]. injection E as _ <-. lia. }
  induction s as [|c s IH]; intros n i n' i' E Hi; [reflexivity|].
  cbn in E. cbn [all_digits String.length] in *.
  destruct (is_digit c).
  - destruct (big <=? _); [discriminate|].
    cbn [andb]. apply (IH _ _ _ _ E). lia.
  - destruct (i =? 0)%nat; [discriminate|]. injection E as _ <-. lia.
Qed.

Lemma dtoi_decimal (s : string) (n : Z) (i : nat) :
  dtoi s = (n, i, true) -> i = String.length s -> decimal s = true.
Proof.
  intros E Hi. unfold decimal. apply andb_true_iff. split.
  - destruct s; [discriminate | reflexivity].
  - apply (dtoi_loop_ok s 0 0%nat n i E). lia.
Qed.

Lemma cut_app (c : ascii) (a x y z : string) :
  cut c a = Some (x, y) -> cut c (a ++ z)%string = Some (x, (y ++ z)%string).
Proof.
  revert x. induction a as [|d a IH]; intros x E; [discriminate|].
  change (String d a ++ z)%string with (String d (a ++ z)%string).
  cbn [cut] in E |- *. destruct (Ascii.eqb d c).
  - now injection E as <- <-.
  - destruct (cut c a) as [[l r]|]; [|discriminate].
    injection E as <- <-. now rewrite (IH l eq_refl).
Qed.

Lemma all_digits_app (x y : string) :
  all_digits (x ++ y)%string = all_digits x && all_digits y.
Proof.
  induction x as [|c x IH]; [reflexivity|].
  change (String c x ++ y)%string with (String c (x ++ y)%string).
  cbn [all_digits]. now rewrite IH, andb_assoc.
Qed.

Lemma Split_app_sep (sep : ascii) (a b : string) :
  Split sep (a ++ String sep b)%string = Split sep a ++ Split sep b.
Proof.
  induction a as [|c a IH].
  - change ("" ++ String sep b)%string with (String sep b).
    cbn [Split app]. now rewrite Ascii.eqb_refl.
  - change (String c a ++ String sep b)%string
      with (String c (a ++ String sep b)%string).
    cbn [Split]. destruct (Ascii.eqb c sep); rewrite IH; [reflexivity|].
    destruct (Split sep a) as [|x r] eqn:E; [|reflexivity].
    now apply Split_nonempty in E.
Qed.

Section Texts.
Context `{TextLib}.

Lemma ParseCIDR_no_slash (cidr : string) :
  cut "/" cidr = None -> ParseCIDR cidr = inl (cidr_error cidr).
Proof. intros E. unfold ParseCIDR. now rewrite E. Qed.

Lemma ParseCIDR_bad_prefix (cidr addr mask : string) :
  cut "/" cidr = Some (addr, mask) -> decimal mask = false ->
  ParseCIDR cidr = inl (cidr_error cidr).
Proof.
  intros E Hd. unfold ParseCIDR. rewrite E.
  destruct (ParseAddr addr) as [a|]; [|reflexivity].
  destruct (dtoi mask) as [[n i] ok] eqn:Ed.
  destruct ok; [|reflexivity].
  destruct (i =? String.length mask)%nat eqn:Ei; [|reflexivity].
  apply Nat.eqb_eq in Ei.
  rewrite (dtoi_decimal mask n i Ed Ei) in Hd. discriminate.
Qed.

(** X6. Whatever the address reader accepts, [IpsFromCIDR] rejects a
    text without a slash, and a text in which what follows the first
    slash is not a non-empty run of decimal digits; the error is the
    parse error for the whole text and no address is returned.  In
    particular a comma-separated list of ranges is rejected as soon as
    its first item contains a slash. *)
Theorem IpsFromCIDR_rejects_malformed (fuel : nat) (cidr : string) :
  (cut "/" cidr = None
   \/ exists addr mask, cut "/" cidr = Some (addr, mask) /\ decimal mask = false) ->
  IpsFromCIDR fuel cidr = Some ([], Some (cidr_error cidr))
  /\ forall more,
       cut "/" cidr <> None ->
       IpsFromCIDR fuel (cidr ++ String "," more)
       = Some ([], Some (cidr_error (cidr ++ String "," more)%string)).
Proof.
  intros Hbad. split.
  - unfold IpsFromCIDR.
    destruct Hbad as [E|(addr & mask & E & Hd)].
    + now rewrite ParseCIDR_no_slash.
    + now rewrite (ParseCIDR_bad_prefix cidr addr mask).
  - intros more Hs. unfold IpsFromCIDR.
    destruct (cut "/" cidr) as [[addr mask]|] eqn:E; [|contradiction].
    rewrite (ParseCIDR_bad_prefix _ addr (mask ++ String "," more)%string);
      [reflexivity | now apply cut_app |].
    unfold decimal. rewrite all_digits_app. cbn [all_digits].
    change (is_digit ",") with false. cbn [andb].
    now rewrite !andb_false_r.
Qed.

Lemma IpsFromCidrs_loop_acc (fuel : nat) (l : list string) : forall acc,
  IpsFromCidrs_loop fuel l acc
  = match IpsFromCidrs_loop fuel l [] with
    | Some (r, None) => Some (acc ++ r, None)
    | other => other
    end.
Proof.
  induction l as [|c l IH]; intros acc; cbn [IpsFromCidrs_loop].
  - now rewrite app_nil_r.
  - destruct (ParseCIDR c) as [e|ipnet]; [reflexivity|].
    destruct (enum_loop fuel ipnet (first_ip ipnet) []) as [ips|]; [|reflexivity].
    destruct ((2 <? length ips)%nat && bool_decide (is_Some (To4 (net_IP ipnet)))).
    + rewrite (IH (acc ++ _)), (IH ([] ++ _)).
      destruct (IpsFromCidrs_loop fuel l []) as [[r [e|]]|]; try reflexivity.
      now rewrite <- app_assoc.
    + rewrite (IH (acc ++ _)), (IH ([] ++ _)).
      destruct (IpsFromCidrs_loop fuel l []) as [[r [e|]]|]; try reflexivity.
      now rewrite <- app_assoc.
Qed.

Lemma IpsFromCidrs_loop_app (fuel : nat) (l1 l2 : list string) : forall acc,
  IpsFromCidrs_loop fuel (l1 ++ l2) acc
  = match IpsFromCidrs_loop fuel l1 acc with
    | Some (r, None) => IpsFromCidrs_loop fuel l2 r
    | other => other
    end.
Proof.
  induction l1 as [|c l1 IH]; intros acc; cbn [IpsFromCidrs_loop app];
    [reflexivity|].
  destruct (ParseCIDR c) as [e|ipnet]; [reflexivity|].
  destruct (enum_loop fuel ipnet (first_ip ipnet) []) as [ips|]; [|reflexivity].
  destruct ((2 <? length ips)%nat && bool_decide (is_Some (To4 (net_IP ipnet))));
    apply IH.
Qed.

Lemma IpsFromCidrs_comma (fuel : nat) (a b : string) :
  IpsFromCidrs fuel (a ++ String "," b)
  = match IpsFromCidrs fuel a with
    | Some (ra, None) =>
        match IpsFromCidrs fuel b with
        | Some (rb, None) => Some (ra ++ rb, None)
        | other => other
        end
    | other => other
    end.
Proof.
  unfold IpsFromCidrs. rewrite Split_app_sep, IpsFromCidrs_loop_app.
  destruct (IpsFromCidrs_loop fuel (Split "," a) []) as [[ra [e|]]|];
    try reflexivity.
  apply IpsFromCidrs_loop_acc.
Qed.

(** X7. [IpsFromCidrs] distributes over the comma: the result for
    [a,b] is the result for [a] followed by the result for [b]; an error
    in [a] is returned before [b] is looked at, and an error in [b]
    discards the addresses of [a]. *)
Theorem IpsFromCidrs_distributes (fuel : nat) (a b : string) :
  IpsFromCidrs fuel (a ++ String "," b)
  = match IpsFromCidrs fuel a with
    | Some (ra, None) =>
        match IpsFromCidrs fuel b with
        | Some (rb, None) => Some (ra ++ rb, None)
        | Some (_, Some e) => Some ([], Some e)
        | None => None
        end
    | Some (_, Some e) => Some ([], Some e)
    | None => None
    end.
Proof.
  rewrite IpsFromCidrs_comma.
  assert (forall l acc r e, IpsFromCidrs_loop fuel l acc = Some (r, Some e) ->
            r = []) as Herr.
  { induction l as [|c l IH]; intros acc r e E; cbn [IpsFromCidrs_loop] in E;
      [discriminate|].
    destruct (ParseCIDR c) as [e'|ipnet]; [now injection E as <- _|].
    destruct (enum_loop fuel ipnet (first_ip ipnet) []) as [ips|];
      [|discriminate].
    destruct ((2 <? length ips)%nat && bool_decide (is_Some (To4 (net_IP ipnet))));
      exact (IH _ _ _ E). }
  unfold IpsFromCidrs in *.
  destruct (IpsFromCidrs_loop fuel (Split "," a) []) as [[ra [e|]]|] eqn:Ea.
  - now rewrite (Herr _ _ _ _ Ea).
  - destruct (IpsFromCidrs_loop fuel (Split "," b) []) as [[rb [e|]]|] eqn:Eb;
      try reflexivity.
    now rewrite (Herr _ _ _ _ Eb).
  - reflexivity.
Qed.

(** X8. An empty item is a malformed range: [IpsFromCidrs] returns the
    parse error for the empty text on the empty argument, and never
    returns addresses for an argument with a leading comma, a trailing
    comma or two commas in a row. *)
Theorem IpsFromCidrs_empty_item (fuel : nat) :
  IpsFromCidrs fuel "" = Some ([], Some (cidr_error ""))
  /\ (forall a r, IpsFromCidrs fuel (String "," a) <> Some (r, None))
  /\ (forall a r, IpsFromCidrs fuel (a ++ ",") <> Some (r, None))
  /\ (forall a b r,
        IpsFromCidrs fuel (a ++ String "," (String "," b)) <> Some (r, None)).
Proof.
  assert (IpsFromCidrs fuel "" = Some ([], Some (cidr_error ""))) as E0
      by reflexivity.
  assert (forall a r, IpsFromCidrs fuel (String "," a) <> Some (r, None)) as E1.
  { intros a r. change (String "," a) with ("" ++ String "," a)%string.
    rewrite IpsFromCidrs_comma, E0. discriminate. }
  split; [exact E0|]. split; [exact E1|]. split.
  - intros a r. change ","%string with (String "," "").
    rewrite IpsFromCidrs_comma, E0.
    destruct (IpsFromCidrs fuel a) as [[ra [e|]]|]; discriminate.
  - intros a b r. rewrite IpsFromCidrs_comma.
    destruct (IpsFromCidrs fuel a) as [[ra [e|]]|]; discriminate.
Qed.

End Texts.

Lemma IpsFromCIDR_rejects_malformed_witness :
  IpsFromCIDR (H:=sample.text) 0 "10.0.0.0/24 "
  = Some ([], Some (cidr_error "10.0.0.0/24 ")).
Proof.
  refine (proj1 (IpsFromCIDR_rejects_malformed (H:=sample.text) 0
                   "10.0.0.0/24 " _)).
  right. exists "10.0.0.0"%string, "24 "%string. split; reflexivity.
Defined.

(** *** No address twice *)

(** Every byte prints as a run of digits that reads back as the byte. *)
Lemma octet_round_trip (x : Z) :
  0 <= x < 256 ->
  all_digits (octet x) = true /\ strconv.digits (octet x) 0 = Some x.
Proof.
  intros Hx.
  assert (forallb (fun n => all_digits (octet (Z.of_nat n))
                            && match strconv.digits (octet (Z.of_nat n)) 0 with
                               | Some v => v =? Z.of_nat n
                               | None => false
                               end) (seq 0 256) = true) as Hall
      by (vm_compute; reflexivity).
  rewrite forallb_forall in Hall.
  specialize (Hall (Z.to_nat x)). rewrite Z2Nat.id in Hall by lia.
  assert (In (Z.to_nat x) (seq 0 256)) as Hin by (apply in_seq; lia).
  apply Hall, andb_true_iff in Hin as [H1 H2].
  split; [exact H1|].
  destruct (strconv.digits (octet x) 0) as [v|]; [|discriminate].
  apply Z.eqb_eq in H2. now subst.
Qed.

Lemma cut_digits (s r : string) :
  all_digits s = true -> cut "." (s ++ String "." r)%string = Some (s, r).
Proof.
  induction s as [|c s IH]; intros Hd; [reflexivity|].
  change (String c s ++ String "." r)%string
    with (String c (s ++ String "." r)%string).
  cbn [all_digits] in Hd. apply andb_true_iff in Hd as [Hc Hd].
  cbn [cut]. destruct (Ascii.eqb c ".") eqn:E.
  - apply Ascii.eqb_eq in E. subst c. discriminate.
  - now rewrite (IH Hd).
Qed.

Lemma octet_inj (x y : Z) :
  0 <= x < 256 -> 0 <= y < 256 -> octet x = octet y -> x = y.
Proof.
  intros Hx Hy E.
  destruct (octet_round_trip x Hx) as [_ Ex].
  destruct (octet_round_trip y Hy) as [_ Ey].
  rewrite E in Ex. congruence.
Qed.

Lemma octet_cut_inj (x y : Z) (r r' : string) :
  0 <= x < 256 -> 0 <= y < 256 ->
  (octet x ++ String "." r)%string = (octet y ++ String "." r')%string ->
  x = y /\ r = r'.
Proof.
  intros Hx Hy E.
  destruct (octet_round_trip x Hx) as [Dx _].
  destruct (octet_round_trip y Hy) as [Dy _].
  pose proof (cut_digits _ r Dx) as Cx. rewrite E, (cut_digits _ r' Dy) in Cx.
  injection Cx as Eo Er. split; [|now symmetry].
  symmetry. now apply octet_inj.
Qed.

(** The dotted text determines the four bytes. *)
Lemma dotted_inj (p q : list Z) :
  bytes p -> bytes q -> length p = 4%nat -> length q = 4%nat ->
  dotted p = dotted q -> p = q.
Proof.
  intros Hp Hq Lp Lq E.
  destruct p as [|p0 [|p1 [|p2 [|p3 [|]]]]]; try discriminate.
  destruct q as [|q0 [|q1 [|q2 [|q3 [|]]]]]; try discriminate.
  unfold bytes in Hp, Hq. rewrite !Forall_cons in Hp, Hq.
  destruct Hp as (P0 & P1 & P2 & P3 & _). destruct Hq as (Q0 & Q1 & Q2 & Q3 & _).
  unfold dotted in E.
  change ([p0; p1; p2; p3] !!! 0%nat) with p0 in E.
  change ([p0; p1; p2; p3] !!! 1%nat) with p1 in E.
  change ([p0; p1; p2; p3] !!! 2%nat) with p2 in E.
  change ([p0; p1; p2; p3] !!! 3%nat) with p3 in E.
  change ([q0; q1; q2; q3] !!! 0%nat) with q0 in E.
  change ([q0; q1; q2; q3] !!! 1%nat) with q1 in E.
  change ([q0; q1; q2; q3] !!! 2%nat) with q2 in E.
  change ([q0; q1; q2; q3] !!! 3%nat) with q3 in E.
  change ("." ++ ?s)%string with (String "." s) in E.
  apply octet_cut_inj in E as [-> E]; [|assumption..].
  apply octet_cut_inj in E as [-> E]; [|assumption..].
  apply octet_cut_inj in E as [-> E]; [|assumption..].
  now apply octet_inj in E as ->.
Qed.

Lemma hosts4_NoDup (base : Z) (lo count : nat) :
  0 <= base -> base + Z.of_nat lo + Z.of_nat count <= 2 ^ 32 ->
  NoDup (hosts4 base lo count).
Proof.
  intros Hb Hhi. unfold hosts4.
  apply (NoDup_fmap_2_strong
           (fun j => dotted (be_bytes 4 (base + Z.of_nat j)))).
  - intros j j' Hj Hj' E.
    apply list_elem_of_In, in_seq in Hj. apply list_elem_of_In, in_seq in Hj'.
    apply dotted_inj in E;
      [| apply be_bytes_bytes | apply be_bytes_bytes
       | apply be_bytes_length | apply be_bytes_length].
    apply (f_equal be_val) in E. rewrite !be_val_be_bytes in E.
    change (256 ^ Z.of_nat 4) with (2 ^ 32) in E.
    rewrite !Z.mod_small in E by lia. lia.
  - apply NoDup_ListNoDup, seq_NoDup.
Qed.

Section Distinct.
Context `{TextLib}.

(** More tests allowed do not change what the loop returns. *)
Lemma enum_loop_fuel_mono (fuel fuel' : nat) (ipnet : IPNet) :
  forall ip acc r,
  enum_loop fuel ipnet ip acc = Some r -> (fuel <= fuel')%nat ->
  enum_loop fuel' ipnet ip acc = Some r.
Proof.
  revert fuel'. induction fuel as [|fuel IH]; intros fuel' ip acc r E Hle;
    [discriminate|].
  destruct fuel' as [|fuel']; [lia|]. cbn [enum_loop] in E |- *.
  destruct (Contains ipnet ip); [|exact E].
  apply IH; [exact E | lia].
Qed.

(** X20. No candidate is listed twice: the addresses [IpsFromCIDR]
    returns for an IPv4 range are pairwise different texts. *)
Theorem IpsFromCIDR_v4_no_duplicates (cidr : string) (v n : Z) (fuel : nat)
    (r : list string) (err : option ParseError) :
  ParseCIDR cidr = inr (cidr_net (Addr4 v) n) ->
  0 <= n <= 32 ->
  IpsFromCIDR fuel cidr = Some (r, err) ->
  NoDup r.
Proof.
  intros Hparse Hn E.
  destruct (Z.eq_dec n 0) as [-> |Hn0].
  { rewrite (IpsFromCIDR_zero_prefix cidr v fuel Hparse) in E. discriminate. }
  assert (1 <= n <= 32) as Hn1 by lia.
  assert (0 < 2 ^ (32 - n)) as Hp by (apply Z.pow_pos_nonneg; lia).
  destruct (base4_bounds v n Hn) as (B1 & B2 & _).
  destruct (net4_lengths v n Hn) as [Hl _].
  unfold IpsFromCIDR in E. rewrite Hparse in E.
  destruct (enum_loop fuel _ _ []) as [gen|] eqn:Eloop; [|discriminate].
  injection E as <- _.
  apply (enum_loop_fuel_mono _ (fuel + S (Z.to_nat (2 ^ (32 - n))))) in Eloop;
    [|lia].
  pose proof (enum_loop_range4 v n (fuel + S (Z.to_nat (2 ^ (32 - n)))) Hn1
                ltac:(lia)) as Hloop.
  cbv zeta in Hloop. rewrite Hloop in Eloop. injection Eloop as <-.
  rewrite trim_hosts4 by (unfold To4; rewrite Hl; cbn; eauto).
  unfold range_result. destruct (2 <? Z.to_nat (2 ^ (32 - n)))%nat eqn:E2.
  - apply Nat.ltb_lt in E2. apply hosts4_NoDup; lia.
  - apply hosts4_NoDup; lia.
Qed.

End Distinct.

Lemma IpsFromCIDR_v4_no_duplicates_witness :
  NoDup ["10.3.5.1"; "10.3.5.2"].
Proof.
  apply (IpsFromCIDR_v4_no_duplicates (H:=sample.text) "10.3.5.1/30"
           167970049 30 10 ["10.3.5.1"; "10.3.5.2"] None).
  - reflexivity.
  - lia.
  - vm_compute. reflexivity.
Defined.

End enum_props.

(* ===================================================================== *)
(** ** The prober: further properties                                     *)
(* ===================================================================== *)

Module prober_props.
Import net notions main prober_facts.

Lemma filter_weaken {A} (f g : A -> bool) (l : list A) :
  (forall x, f x = true -> g x = true) ->
  List.filter f l ⊆+ List.filter g l.
Proof.
  intros Hfg. induction l as [|x l IH]; [constructor|].
  cbn [List.filter]. destruct (f x) eqn:Ef.
  - rewrite (Hfg x Ef). now apply submseteq_skip.
  - destruct (g x); [now apply submseteq_cons | assumption].
Qed.

Lemma filter_submseteq {A} (f : A -> bool) (l : list A) :
  List.filter f l ⊆+ l.
Proof.
  induction l as [|x l IH]; [constructor|].
  cbn [List.filter]. destruct (f x);
    [now apply submseteq_skip | now apply submseteq_cons].
Qed.


Section Prober.
Variable DialAddress : string -> bool.
Variable ips : list string.
Variable batchSize : Z.

Local Abbreviation step_rel := (main.step_rel DialAddress ips batchSize).
Local Abbreviation reachable := (main.reachable DialAddress ips batchSize).
Local Abbreviation work := (notions.work ips batchSize).

(** The states of a call with an accepted batch size satisfy the
    invariant; with a refused one the only state is the initial one. *)
Lemma reachable_cases s :
  reachable s ->
  (invalid_batch batchSize = false /\ Inv DialAddress ips batchSize s)
  \/ (invalid_batch batchSize = true /\ s = init batchSize).
Proof.
  intros Hr. destruct (invalid_batch batchSize) eqn:E.
  - right. split; [reflexivity|]. now apply (fatal_stuck DialAddress ips).
  - left. split; [reflexivity|]. now apply reachable_Inv.
Qed.

(** X9. Whatever the batch size and the schedule, an execution of the
    call has at most [9 * len(ips) + 1] steps: no schedule keeps the
    call running forever. *)
Theorem probe_step_bound (n : nat) (s : state) :
  nsteps step_rel n (init batchSize) s ->
  (n + work s <= 9 * length ips + 1)%nat.
Proof.
  intros Hn. destruct (invalid_batch batchSize) eqn:E.
  - inversion Hn as [|m x y z (t & Hstep) _]; subst.
    + unfold notions.work, init. rewrite E. cbn. lia.
    + exfalso. unfold init in Hstep. rewrite E in Hstep.
      destruct t; cbn in Hstep; discriminate.
  - assert (work (init batchSize) = 9 * length ips + 1)%nat as H0.
    { unfold notions.work, init. rewrite E. cbn [pc gs sum_list_with main_work].
      lia. }
    rewrite <- H0. clear H0.
    induction Hn as [x|m x y z (t & Hstep) _ IH]; [lia|].
    apply (step_work DialAddress ips batchSize E) in Hstep. lia.
Qed.

(** X10. Connection attempts are issued once per address: in every state
    of every execution the attempts made so far are, with multiplicity,
    among the targets [ip:50000] of the input addresses; every address
    already in [talosHosts] has had its attempt and its dial succeeds;
    and when the call returns, the attempts made are exactly one per
    input address. *)
Theorem probe_dials_once (s : state) :
  reachable s ->
  dialed s ⊆+ map dial_target ips
  /\ map dial_target (talosHosts s) ⊆+ dialed s
  /\ Forall (fun h => DialAddress (dial_target h) = true) (talosHosts s)
  /\ (pc s = MReturn -> dialed s ≡ₚ map dial_target ips).
Proof.
  intros Hr. destruct (reachable_cases s Hr) as [[E Hinv]|[E ->]].
  - pose proof Hinv as [Hpc Hwg Hmu Hdial Hhosts Hdialed].
    destruct (Inv_bounds DialAddress ips batchSize s Hinv)
      as (_ & _ & Hpre & _).
    assert (map (fun g => dial_target (g_ip g)) (List.filter has_dialed (gs s))
            = map dial_target (map g_ip (List.filter has_dialed (gs s)))) as Hmm
        by (now rewrite map_map).
    split; [|split; [|split]].
    + rewrite Hdialed, Hmm. apply fmap_submseteq.
      transitivity (map g_ip (gs s)).
      * apply fmap_submseteq, filter_submseteq.
      * destruct Hpre as [rest Hrest]. rewrite Hrest.
        now apply submseteq_inserts_r.
    + rewrite Hdialed, Hmm, Hhosts. apply fmap_submseteq, fmap_submseteq.
      apply filter_weaken. intros g Hg. destruct g; try discriminate; reflexivity.
    + apply Forall_forall. intros x Hx. rewrite Hhosts in Hx.
      apply list_elem_of_In, in_map_iff in Hx as (g & <- & Hg).
      apply List.filter_In in Hg as [Hg Hc].
      rewrite Forall_forall in Hdial.
      apply list_elem_of_In in Hg. specialize (Hdial g Hg).
      destruct g; try discriminate; try exact Hc. now apply Hdial.
    + intros Hret. now apply (at_return DialAddress ips batchSize).
  - unfold init. rewrite E. cbn [dialed talosHosts pc map].
    split; [apply submseteq_nil_l|]. split; [constructor|].
    split; [constructor | discriminate].
Qed.


(** *** The order of the returned addresses *)

Lemma reachable_ips_take_le (j i : nat) (l : list string) :
  (j <= i)%nat ->
  (length (reachable_ips DialAddress (take j l))
   <= length (reachable_ips DialAddress (take i l)))%nat.
Proof.
  intros Hji. rewrite <- (take_drop j (take i l)), take_take, Nat.min_l by lia.
  unfold reachable_ips. rewrite List.filter_app, length_app. lia.
Qed.

Lemma loop_hosts (s : state) (i : nat) :
  Inv DialAddress ips batchSize s -> pc s = MLoop i ->
  talosHosts s ≡ₚ reachable_ips DialAddress (take i ips).
Proof.
  intros [Hpc _ _ _ Hhosts _] Hi. unfold pc_inv in Hpc. rewrite Hi in Hpc.
  destruct Hpc as (_ & Hmap & Hall).
  rewrite Hhosts, contributed_done, Hmap by assumption. reflexivity.
Qed.

Lemma take_all_perm (l r : list string) : l ≡ₚ r -> take (length r) l ≡ₚ r.
Proof.
  intros Hp. rewrite <- (Permutation_length Hp), firstn_all. exact Hp.
Qed.

Lemma order_step (t : thread) (s s' : state) :
  Inv DialAddress ips batchSize s -> Inv DialAddress ips batchSize s' ->
  step DialAddress ips batchSize t s = Some s' ->
  (length (reachable_ips DialAddress (take (settled ips (pc s)) ips))
   <= length (talosHosts s))%nat
  /\ batch_ordered DialAddress ips batchSize (settled ips (pc s)) (talosHosts s) ->
  (length (reachable_ips DialAddress (take (settled ips (pc s')) ips))
   <= length (talosHosts s'))%nat
  /\ batch_ordered DialAddress ips batchSize (settled ips (pc s')) (talosHosts s').
Proof.
  intros Hinv Hinv' Hstep [Hlen Hord].
  destruct t as [|k]; cbn [step] in Hstep.
  - unfold step_main in Hstep. destruct (pc s) as [i|i rest|i| |msg] eqn:Epc.
    + destruct (i <? length ips)%nat eqn:Ei.
      * injection Hstep as <-. cbn [pc talosHosts settled] in *. auto.
      * apply Nat.ltb_ge in Ei. injection Hstep as <-.
        cbn [pc talosHosts settled set_pc] in *.
        rewrite (take_ge ips) in Hlen by lia. rewrite (take_ge ips) by lia.
        split; [exact Hlen|]. intros q Hq. apply Hord. lia.
    + destruct rest as [|ip rest]; injection Hstep as <-;
        cbn [pc talosHosts settled set_pc] in *; auto.
    + destruct (wg s =? 0); [|discriminate]. injection Hstep as <-.
      pose proof (loop_hosts _ (i + b batchSize) Hinv' eq_refl) as Hp.
      cbn [pc talosHosts settled set_pc] in *.
      split; [now rewrite (Permutation_length Hp)|].
      intros q Hq.
      destruct (Nat.le_gt_cases (q * b batchSize) i) as [Hle|Hgt];
        [now apply Hord|].
      destruct Hinv as [Hpc _ _ _ _ _]. unfold pc_inv in Hpc.
      rewrite Epc in Hpc. destruct Hpc as (_ & (q0 & Hq0) & _).
      assert (q * b batchSize = i + b batchSize)%nat as Eq.
      { generalize dependent (b batchSize). intros B. intros. subst i.
        destruct (Nat.lt_trichotomy q (S q0)) as [Hlt|[-> |Hlt]]; [nia|lia|nia]. }
      unfold reachable_upto. rewrite Eq. now apply take_all_perm.
    + discriminate.
    + discriminate.
  - unfold step_go in Hstep.
    destruct (gs s !! k) as [g|]; [|discriminate].
    destruct g as [ip|ip|ip|ip|ip|ip]; try discriminate.
    + injection Hstep as <-. cbn [pc talosHosts]. auto.
    + destruct (mu s); [discriminate|]. injection Hstep as <-.
      cbn [pc talosHosts]. auto.
    + injection Hstep as <-. cbn [pc talosHosts].
      split; [rewrite length_app; lia|].
      intros q Hq. rewrite take_app_le; [now apply Hord|].
      unfold reachable_upto.
      pose proof (reachable_ips_take_le _ _ ips Hq). lia.
    + injection Hstep as <-. cbn [pc talosHosts]. auto.
    + injection Hstep as <-. cbn [pc talosHosts]. auto.
Qed.

Lemma order_reachable (s : state) :
  invalid_batch batchSize = false -> reachable s ->
  (length (reachable_ips DialAddress (take (settled ips (pc s)) ips))
   <= length (talosHosts s))%nat
  /\ batch_ordered DialAddress ips batchSize (settled ips (pc s)) (talosHosts s).
Proof.
  intros E Hr.
  refine (rtc_ind_r (R:=step_rel)
            (fun s => (length (reachable_ips DialAddress
                                 (take (settled ips (pc s)) ips))
                       <= length (talosHosts s))%nat
                      /\ batch_ordered DialAddress ips batchSize
                           (settled ips (pc s)) (talosHosts s))
            (init batchSize) _ _ s Hr).
  - unfold init. rewrite E. cbn [pc talosHosts settled]. rewrite take_0.
    split; [cbn; lia|]. intros q Hq. unfold reachable_upto.
    assert (q * b batchSize = 0)%nat as -> by lia. now rewrite take_0.
  - intros y z Hy (t & Hstep) IH.
    assert (reachable y) as Hry by exact Hy.
    assert (reachable z) as Hrz
        by (eapply rtc_r; [exact Hy | exists t; exact Hstep]).
    exact (order_step t y z (reachable_Inv _ _ _ E y Hry)
             (reachable_Inv _ _ _ E z Hrz) Hstep IH).
Qed.

(** In input order: a list that begins, for every [q], with a
    permutation of the reachable ones among the first [q] addresses. *)
Lemma in_order (l hosts : list string) :
  (forall q, take (length (reachable_ips DialAddress (take q l))) hosts
             ≡ₚ reachable_ips DialAddress (take q l)) ->
  forall q, take (length (reachable_ips DialAddress (take q l))) hosts
            = reachable_ips DialAddress (take q l).
Proof.
  intros Hall. induction q as [|q IH].
  - reflexivity.
  - destruct (l !! q) as [x|] eqn:Hx.
    + rewrite (take_S_r _ _ _ Hx). unfold reachable_ips in *.
      rewrite List.filter_app. cbn [List.filter].
      destruct (DialAddress (dial_target x)) eqn:Ed.
      * pose proof (Hall (S q)) as Hp. rewrite (take_S_r _ _ _ Hx) in Hp.
        rewrite List.filter_app in Hp. cbn [List.filter] in Hp.
        rewrite Ed in Hp. rewrite length_app in *. cbn [length] in *.
        rewrite Nat.add_1_r in *.
        set (n := length (List.filter (fun ip => DialAddress (dial_target ip))
                                      (take q l))) in *.
        destruct (hosts !! n) as [y|] eqn:Hy.
        -- rewrite (take_S_r _ _ _ Hy) in Hp |- *. rewrite IH in Hp |- *.
           apply Permutation_app_inv_l in Hp.
           apply Permutation_length_1 in Hp. now subst.
        -- apply Permutation_length in Hp.
           rewrite length_take, length_app in Hp. cbn [length] in Hp.
           apply lookup_ge_None in Hy. fold n in Hp. lia.
      * now rewrite app_nil_r.
    + apply lookup_ge_None in Hx.
      rewrite (take_ge l (S q)) by lia. rewrite (take_ge l q) in IH by lia.
      exact IH.
Qed.

(** X12. The returned addresses come batch by batch: for every [q], the
    result begins with the reachable addresses of the first [q] batches,
    in some order, so an address of an earlier batch never comes after
    one of a later batch.  With a batch size of one the result is the
    reachable addresses in input order. *)
Theorem probe_batches_in_order (s : state) (hosts : list string)
    (err : option string) :
  invalid_batch batchSize = false ->
  reachable s ->
  returned s = Some (hosts, err) ->
  (forall q,
     take (length (reachable_upto DialAddress ips batchSize q)) hosts
     ≡ₚ reachable_upto DialAddress ips batchSize q)
  /\ (b batchSize = 1%nat -> hosts = reachable_ips DialAddress ips).
Proof.
  intros E Hr Hret. unfold returned in Hret.
  destruct (pc s) eqn:Epc; try discriminate. injection Hret as <- <-.
  destruct (order_reachable s E Hr) as [_ Hord]. rewrite Epc in Hord.
  cbn [settled] in Hord.
  destruct (at_return DialAddress ips batchSize s (reachable_Inv _ _ _ E s Hr) Epc)
    as (Hp & _).
  assert (forall q,
     take (length (reachable_upto DialAddress ips batchSize q)) (talosHosts s)
     ≡ₚ reachable_upto DialAddress ips batchSize q) as Hall.
  { intros q.
    destruct (Nat.le_gt_cases (q * b batchSize) (length ips)) as [Hle|Hgt];
      [now apply Hord|].
    unfold reachable_upto. rewrite (take_ge ips) by lia.
    now apply take_all_perm. }
  split; [exact Hall|]. intros Hb1.
  assert (forall q,
     take (length (reachable_ips DialAddress (take q ips))) (talosHosts s)
     ≡ₚ reachable_ips DialAddress (take q ips)) as Hall1.
  { intros q. specialize (Hall q). unfold reachable_upto in Hall.
    now rewrite Hb1, Nat.mul_1_r in Hall. }
  pose proof (in_order ips (talosHosts s) Hall1 (length ips)) as Hfin.
  rewrite firstn_all in Hfin.
  rewrite <- (Permutation_length Hp), firstn_all in Hfin. exact Hfin.
Qed.

End Prober.

Lemma probe_step_bound_witness :
  (2 + work sample.ips3 2
         (run sample.dial sample.ips3 2 [Main; Main] (init 2))
   <= 9 * 3 + 1)%nat.
Proof.
  apply (probe_step_bound sample.dial sample.ips3 2 2).
  eapply nsteps_l; [exists Main; reflexivity|].
  eapply nsteps_l; [exists Main; reflexivity|].
  apply nsteps_O.
Defined.

Lemma probe_dials_once_witness :
  dialed sample.final_state ≡ₚ map dial_target sample.ips3
  /\ dialed sample.mid_state ⊆+ map dial_target sample.ips3.
Proof.
  split.
  - exact (proj2 (proj2 (proj2 (probe_dials_once sample.dial sample.ips3 2
                                  sample.final_state (run_reachable _ _ _ _))))
                 eq_refl).
  - exact (proj1 (probe_dials_once sample.dial sample.ips3 2
                    sample.mid_state (run_reachable _ _ _ _))).
Defined.


Lemma probe_batches_in_order_witness :
  returned (run sample.dial sample.ips3 1
              (List.concat (replicate 40 [Main; Go 2; Go 1; Go 0])) (init 1))
  = Some (reachable_ips sample.dial sample.ips3, None).
Proof.
  pose proof (probe_batches_in_order sample.dial sample.ips3 1
                (run sample.dial sample.ips3 1
                   (List.concat (replicate 40 [Main; Go 2; Go 1; Go 0])) (init 1))
                ["10.0.0.2"; "10.0.0.3"] None eq_refl (run_reachable _ _ _ _)
                eq_refl) as [_ Hb].
  rewrite <- (Hb eq_refl). reflexivity.
Defined.

End prober_props.

(* ===================================================================== *)
(** ** The reconciler and the member list: further properties             *)
(* ===================================================================== *)

Module reconcile_props.
Import net notions talos main reconcile_facts member_facts.

Lemma isExistingMember_app (m1 m2 : list Member) (h : string) :
  isExistingMember (m1 ++ m2) h
  = isExistingMember m1 h || isExistingMember m2 h.
Proof.
  induction m1 as [|m m1 IH]; [reflexivity|].
  cbn [app isExistingMember]. destruct (String.eqb (InternalIP m) h);
    [reflexivity | exact IH].
Qed.

Section WithTextLib.
Context `{TextLib}.

Lemma reconcile_elem (members : list Member) (hosts : list string) (x : string) :
  x ∈ reconcile hosts members <-> x ∈ hosts /\ joinable members x = true.
Proof.
  unfold reconcile. rewrite reconcile_from_elem. split.
  - intros [Hin|?]; [inversion Hin | assumption].
  - now right.
Qed.

Lemma reconcile_NoDup (members : list Member) (hosts : list string) :
  NoDup (reconcile hosts members).
Proof. apply reconcile_from_NoDup, NoDup_nil_2. Qed.

(** The result depends on the hosts as a set only, up to its order. *)
Lemma reconcile_same_hosts (members : list Member) (hosts hosts' : list string) :
  (forall x, x ∈ hosts <-> x ∈ hosts') ->
  reconcile hosts members ≡ₚ reconcile hosts' members.
Proof.
  intros Hsame. apply NoDup_Permutation; try apply reconcile_NoDup.
  intros x. rewrite !reconcile_elem, Hsame. reflexivity.
Qed.

(** X13. The order in which the reachable hosts are handed to the
    reconciler, and how often each occurs, only affects the order of its
    result: two host lists with the same elements give results that are
    permutations of each other, of the same length and with the same
    elements. *)
Theorem reconcile_host_order_irrelevant
    (members : list Member) (hosts hosts' : list string) :
  (forall x, x ∈ hosts <-> x ∈ hosts') ->
  reconcile hosts members ≡ₚ reconcile hosts' members
  /\ length (reconcile hosts members) = length (reconcile hosts' members)
  /\ (forall x, x ∈ reconcile hosts members <-> x ∈ reconcile hosts' members).
Proof.
  intros Hsame.
  assert (NoDup (reconcile hosts members)) as Hnd by apply reconcile_NoDup.
  assert (NoDup (reconcile hosts' members)) as Hnd' by apply reconcile_NoDup.
  assert (forall x, x ∈ reconcile hosts members
                    <-> x ∈ reconcile hosts' members) as Hel.
  { intros x. rewrite !reconcile_elem, Hsame. reflexivity. }
  pose proof (NoDup_Permutation _ _ Hnd Hnd' Hel) as Hp.
  split; [exact Hp|]. split; [now apply Permutation_length | exact Hel].
Qed.

Lemma reconcile_from_ext (members members' : list Member) (hosts : list string) :
  forall acc,
  (forall h, h ∈ hosts -> joinable members h = joinable members' h) ->
  reconcile_from members acc hosts = reconcile_from members' acc hosts.
Proof.
  induction hosts as [|h hosts IH]; intros acc Hext; [reflexivity|].
  rewrite !reconcile_from_cons, !reconcile_step_eq.
  rewrite (Hext h) by left. apply IH. intros x Hx. apply Hext. now right.
Qed.

Lemma isExistingMember_filter (members : list Member) (h : string) :
  parses_as_IPv4 h = true ->
  isExistingMember
    (List.filter (fun m => parses_as_IPv4 (InternalIP m)) members) h
  = isExistingMember members h.
Proof.
  intros Hp. induction members as [|m members IH]; [reflexivity|].
  cbn [List.filter isExistingMember].
  destruct (String.eqb (InternalIP m) h) eqn:E.
  - apply String.eqb_eq in E. rewrite E, Hp. cbn [isExistingMember].
    rewrite <- E at 1. now rewrite String.eqb_refl.
  - destruct (parses_as_IPv4 (InternalIP m)); [|exact IH].
    cbn [isExistingMember]. now rewrite E.
Qed.

(** X14. Only the internal addresses of the members matter, and only
    those that parse as IPv4: two member lists with the same set of
    internal addresses give the same result, and so does the member list
    without the members whose internal address is not an IPv4 address
    (an IPv6 address, a host name, or the empty string of a member
    without addresses). *)
Theorem reconcile_members_by_internal_address
    (members members' : list Member) (hosts : list string) :
  ((forall x, (exists m, m ∈ members /\ InternalIP m = x)
              <-> (exists m, m ∈ members' /\ InternalIP m = x)) ->
   reconcile hosts members = reconcile hosts members')
  /\ reconcile hosts members
     = reconcile hosts
         (List.filter (fun m => parses_as_IPv4 (InternalIP m)) members).
Proof.
  split.
  - intros Hsame. apply reconcile_from_ext. intros h _. unfold joinable.
    f_equal. f_equal.
    destruct (isExistingMember members h) eqn:E1,
             (isExistingMember members' h) eqn:E2; try reflexivity.
    + apply isExistingMember_true, Hsame, isExistingMember_true in E1.
      congruence.
    + apply isExistingMember_true, Hsame, isExistingMember_true in E2.
      congruence.
  - apply reconcile_from_ext. intros h _. unfold joinable.
    destruct (parses_as_IPv4 h) eqn:Hp; [|reflexivity].
    now rewrite isExistingMember_filter.
Qed.

Lemma reconcile_from_more (members more : list Member) (hosts : list string) :
  forall acc,
  reconcile_from (members ++ more)
    (List.filter (fun h => negb (isExistingMember more h)) acc) hosts
  = List.filter (fun h => negb (isExistingMember more h))
      (reconcile_from members acc hosts).
Proof.
  induction hosts as [|h hosts IH]; intros acc; [reflexivity|].
  rewrite !reconcile_from_cons, !reconcile_step_eq.
  assert (joinable (members ++ more) h
          = joinable members h && negb (isExistingMember more h)) as Hj.
  { unfold joinable. rewrite isExistingMember_app, negb_orb.
    now rewrite andb_assoc. }
  rewrite Hj.
  destruct (slices_Contains acc h) eqn:Ec.
  - cbn [negb andb]. rewrite <- IH.
    destruct (isExistingMember more h) eqn:Em.
    + cbn [negb]. rewrite andb_false_r, andb_false_r. reflexivity.
    + assert (slices_Contains
                (List.filter (fun h => negb (isExistingMember more h)) acc) h
              = true) as ->; [|reflexivity].
      apply slices_Contains_elem, list_elem_of_In, List.filter_In.
      apply slices_Contains_elem, list_elem_of_In in Ec.
      split; [assumption | now rewrite Em].
  - assert (slices_Contains
              (List.filter (fun h => negb (isExistingMember more h)) acc) h
            = false) as ->.
    { apply slices_Contains_not_elem. intros Hin.
      apply list_elem_of_In, List.filter_In in Hin as [Hin _].
      apply slices_Contains_not_elem in Ec. apply Ec.
      now apply list_elem_of_In. }
    cbn [negb andb].
    destruct (joinable members h); cbn [andb]; [|apply IH].
    destruct (isExistingMember more h) eqn:Em; cbn [negb].
    + rewrite <- IH, List.filter_app. cbn [List.filter].
      rewrite Em. cbn [negb]. now rewrite app_nil_r.
    + rewrite <- IH, List.filter_app. cbn [List.filter].
      rewrite Em. reflexivity.
Qed.

(** X15. Members that come in addition only remove hosts: reconciling
    against [members ++ more] gives the result for [members] without the
    hosts that are the internal address of a member of [more], in the
    same order.  So a host that has become a member is not reported on
    the next run, and every other host of the earlier result is reported
    again. *)
Theorem reconcile_more_members
    (members more : list Member) (hosts : list string) :
  reconcile hosts (members ++ more)
  = List.filter (fun h => negb (isExistingMember more h))
      (reconcile hosts members)
  /\ sublist (reconcile hosts (members ++ more)) (reconcile hosts members)
  /\ (forall x,
        x ∈ reconcile hosts (members ++ more) <->
        x ∈ reconcile hosts members
        /\ forall m, m ∈ more -> InternalIP m <> x).
Proof.
  pose proof (reconcile_from_more members more hosts []) as E.
  change (reconcile hosts (members ++ more)
          = List.filter (fun h => negb (isExistingMember more h))
              (reconcile hosts members)) in E.
  split; [exact E|]. rewrite E. split.
  - generalize (reconcile hosts members). intros l.
    induction l as [|x l IH]; [constructor|]. cbn [List.filter].
    destruct (negb (isExistingMember more x));
      [now apply sublist_skip | now apply sublist_cons].
  - intros x. rewrite list_elem_of_In, List.filter_In, <- list_elem_of_In.
    rewrite negb_true_iff, isExistingMember_false. reflexivity.
Qed.

Lemma parseMembers_loop_map (decoded : list (option MemberResponse)) :
  forall acc out,
  parseMembers_loop decoded acc = Some out <->
  exists results,
    decoded = map Some results /\ out = acc ++ map member_of results.
Proof.
  induction decoded as [|[r|] decoded IH]; intros acc out;
    cbn [parseMembers_loop].
  - split.
    + intros E. injection E as <-. exists []. now rewrite app_nil_r.
    + intros ([|? ?] & E & ->); [now rewrite app_nil_r | discriminate].
  - rewrite IH. split.
    + intros (results & -> & ->). exists (r :: results).
      split; [reflexivity|]. now rewrite <- app_assoc.
    + intros ([|r' results] & E & ->); [discriminate|].
      injection E as <- ->. exists results.
      split; [reflexivity|]. now rewrite <- app_assoc.
  - split; [discriminate|].
    intros ([|? ?] & E & _); discriminate.
Qed.

(** X16. [parseMembers] is all or nothing: it returns members exactly
    when every object of the stream decodes, and then there is one member
    per object, in stream order, built by the struct literal of lines
    104-115; one object that fails to decode discards the members read
    before it. *)
Theorem parseMembers_all_or_nothing
    (decoded : list (option MemberResponse)) :
  (forall members,
     parseMembers decoded = Some members <->
     exists results,
       decoded = map Some results /\ members = map member_of results)
  /\ (None ∈ decoded -> parseMembers decoded = None)
  /\ (forall members,
        parseMembers decoded = Some members ->
        length members = length decoded).
Proof.
  assert (forall members,
     parseMembers decoded = Some members <->
     exists results,
       decoded = map Some results /\ members = map member_of results) as Hiff.
  { intros members. unfold parseMembers. now rewrite parseMembers_loop_map. }
  split; [exact Hiff|]. split.
  - intros Hin. destruct (parseMembers decoded) as [members|] eqn:E;
      [|reflexivity].
    unfold parseMembers in E.
    apply parseMembers_loop_map in E as (results & -> & _).
    apply list_elem_of_In, in_map_iff in Hin as (r & Hr & _). discriminate.
  - intros members E. apply Hiff in E as (results & -> & ->).
    now rewrite !length_map.
Qed.

End WithTextLib.

Lemma reconcile_members_by_internal_address_witness :
  reconcile (H:=sample.text) ["10.0.0.1"; "10.0.0.2"]
            [sample.member1; sample.member1]
  = reconcile (H:=sample.text) ["10.0.0.1"; "10.0.0.2"] [sample.member1].
Proof.
  apply (proj1 (reconcile_members_by_internal_address (H:=sample.text)
                  [sample.member1; sample.member1] [sample.member1]
                  ["10.0.0.1"; "10.0.0.2"])).
  intros x. split; intros (m & Hm & E); exists m; (split; [|exact E]).
  - rewrite !elem_of_cons in Hm. rewrite elem_of_cons. tauto.
  - rewrite elem_of_cons in Hm. rewrite !elem_of_cons. tauto.
Defined.

Lemma reconcile_more_members_witness :
  reconcile (H:=sample.text) ["10.0.0.1"; "10.0.0.2"] ([] ++ [sample.member1])
  = ["10.0.0.2"].
Proof.
  rewrite (proj1 (reconcile_more_members (H:=sample.text) [] [sample.member1]
                    ["10.0.0.1"; "10.0.0.2"])).
  reflexivity.
Defined.

Lemma parseMembers_all_or_nothing_witness :
  parseMembers (H:=sample.text)
    [Some (mkMemberResponse (mkMetadata "node-1" "cluster" "Member" 3)
             "10.0.0.1"
             (mkSpec "id-1" ["fe80::1"; "10.0.0.1"] "node-1" "worker" "Talos"));
     None]
  = None.
Proof.
  apply (proj1 (proj2 (parseMembers_all_or_nothing (H:=sample.text) _))).
  right. left.
Defined.

Lemma reconcile_host_order_irrelevant_witness :
  reconcile (H:=sample.text) ["10.0.0.3"; "10.0.0.2"; "10.0.0.3"] [sample.member1]
  ≡ₚ reconcile (H:=sample.text) ["10.0.0.2"; "10.0.0.3"] [sample.member1].
Proof.
  refine (proj1 (reconcile_host_order_irrelevant (H:=sample.text)
                   [sample.member1] ["10.0.0.3"; "10.0.0.2"; "10.0.0.3"]
                   ["10.0.0.2"; "10.0.0.3"] _)).
  intros x. rewrite !elem_of_cons. tauto.
Defined.

End reconcile_props.

(* ===================================================================== *)
(** ** The program as a whole                                             *)
(* ===================================================================== *)

Module program_props.
Import net notions probe talos main.
Import reconcile_facts member_facts enum_facts prober_facts prober_props
       reconcile_props.



Section Program.
Context `{TextLib}.
Variable DialAddress : string -> bool.
Variable get_members : string -> cmd_result (list (option MemberResponse)).
Variable apply_config : string -> string -> string -> cmd_result unit.

Local Abbreviation main_from := (main.main_from DialAddress get_members apply_config).
Local Abbreviation main_members := (main.main_members get_members apply_config).
Local Abbreviation join_all := (main.join_all apply_config).

(** The hosts the prober hands over, for any schedule. *)
Lemma run_returned ips n sched :
  pc (run DialAddress ips n sched (init n)) = MReturn ->
  invalid_batch n = false
  /\ talosHosts (run DialAddress ips n sched (init n))
     ≡ₚ reachable_ips DialAddress ips.
Proof.
  intros Hpc.
  destruct (reachable_cases DialAddress ips n _ (run_reachable _ _ _ sched))
    as [[E Hinv]|[E Hs]].
  - split; [exact E|]. now apply (at_return DialAddress ips n).
  - rewrite Hs in Hpc. unfold init in Hpc. rewrite E in Hpc. discriminate.
Qed.

Lemma run_fatal ips n sched msg :
  pc (run DialAddress ips n sched (init n)) = MFatal msg ->
  invalid_batch n = true.
Proof.
  intros Hpc. destruct (invalid_batch n) eqn:E; [reflexivity|].
  pose proof (reachable_Inv DialAddress ips n E _ (run_reachable _ _ _ sched))
    as [Hinv _ _ _ _ _].
  unfold pc_inv in Hinv. rewrite Hpc in Hinv. contradiction.
Qed.

Lemma GetMembers_internal cmd members :
  GetMembers cmd = inr members ->
  Forall (fun m => InternalIP m = extractInternalIP (Addresses m)) members.
Proof.
  unfold GetMembers. destruct cmd as [output| |]; try discriminate.
  destruct (parseMembers output) as [ms|] eqn:E; [|discriminate].
  intros Hm. injection Hm as <-. unfold parseMembers in E.
  eapply parseMembers_loop_internal; [|exact E]. constructor.
Qed.

(** X17. When the program gets to joining, the nodes it tries to join
    are, each once, exactly the addresses of the range that accept a
    connection on port 50000, parse as IPv4 and are not the internal
    address of a member; the internal address of every member is the one
    computed from its address list; and the join command is run for every
    one of these nodes, whether or not the joins before it failed. *)
Theorem main_joins_exactly (fuel : nat) (sched : list thread)
    (cidr talosConfigPath workerConfigPath batchSize : string)
    (hosts : list string) (joins : list (string * option Error)) :
  main_from fuel sched cidr talosConfigPath workerConfigPath batchSize
  = Some (Joined hosts joins) ->
  exists ips members,
    IpsFromCIDR fuel cidr = Some (ips, None)
    /\ GetMembers (get_members talosConfigPath) = inr members
    /\ Forall (fun m => InternalIP m = extractInternalIP (Addresses m)) members
    /\ joins <> []
    /\ NoDup (map fst joins)
    /\ (forall x, x ∈ map fst joins <->
          x ∈ ips /\ DialAddress (dial_target x) = true
          /\ parses_as_IPv4 x = true
          /\ forall m, m ∈ members -> InternalIP m <> x)
    /\ joins
       = map (fun ip =>
                (ip, WorkerJoin (apply_config ip workerConfigPath talosConfigPath)))
             (map fst joins).
Proof.
  unfold main.main_from.
  destruct (IpsFromCIDR fuel cidr) as [[ips [err|]]|] eqn:Eips; try discriminate.
  destruct (strconv.Atoi batchSize) as [n|]; [|discriminate].
  destruct (pc (run DialAddress ips n sched (init n))) eqn:Epc; try discriminate.
  destruct (run_returned ips n sched Epc) as [_ Hp].
  unfold main.main_members.
  destruct (GetMembers (get_members talosConfigPath)) as [e|members] eqn:Em;
    [discriminate|].
  destruct (length _ =? 0)%nat eqn:El; [discriminate|].
  intros E. injection E as <- <-. apply Nat.eqb_neq in El.
  set (hosts := talosHosts (run DialAddress ips n sched (init n))) in *.
  assert (map fst (join_all (reconcile hosts members) workerConfigPath
                     talosConfigPath) = reconcile hosts members) as Hfst.
  { unfold main.join_all. rewrite map_map. cbn [fst]. apply map_id. }
  exists ips, members. split; [reflexivity|]. split; [reflexivity|].
  split; [exact (GetMembers_internal _ _ Em)|]. rewrite Hfst.
  split; [|split; [|split]].
  - intros E. apply (f_equal (@length _)) in E.
    unfold main.join_all in E. rewrite length_map in E. cbn in E. lia.
  - apply reconcile_NoDup.
  - intros x. rewrite reconcile_elem, Hp, elem_of_reachable_ips.
    unfold joinable. rewrite andb_true_iff, negb_true_iff.
    rewrite isExistingMember_false. tauto.
  - reflexivity.
Qed.

(** The exit after the prober has returned depends on the hosts up to
    their order only. *)
Lemma main_members_perm (h h' : list string) (tc wc : string) :
  h ≡ₚ h' -> exit_equiv (main_members h tc wc) (main_members h' tc wc).
Proof.
  intros Hp. unfold main.main_members.
  destruct (GetMembers (get_members tc)) as [e|members]; [now split|].
  assert (reconcile h members ≡ₚ reconcile h' members) as Hr.
  { apply reconcile_same_hosts. intros x. now rewrite Hp. }
  rewrite (Permutation_length Hr).
  destruct (length (reconcile h' members) =? 0)%nat; [exact Hp|].
  split; [exact Hp|]. unfold main.join_all. now apply Permutation_map.
Qed.

(** X18. How the program ends does not depend on the schedule of the
    prober's goroutines, nor on the batch size as long as it is an
    accepted one: two runs on the same range and configuration end the
    same way, with the same reachable hosts and the same join attempts
    and outcomes up to their order. *)
Theorem main_schedule_independent (fuel : nat) (sched sched' : list thread)
    (cidr talosConfigPath workerConfigPath batchSize batchSize' : string)
    (e e' : exit) :
  batchSize = batchSize'
  \/ (accepted_batch batchSize /\ accepted_batch batchSize') ->
  main_from fuel sched cidr talosConfigPath workerConfigPath batchSize = Some e ->
  main_from fuel sched' cidr talosConfigPath workerConfigPath batchSize' = Some e' ->
  exit_equiv e e'.
Proof.
  intros Hbs. unfold main.main_from.
  destruct (IpsFromCIDR fuel cidr) as [[ips [err|]]|]; try discriminate.
  { intros E E'. injection E as <-. injection E' as <-. reflexivity. }
  destruct (strconv.Atoi batchSize) as [n|] eqn:En;
    destruct (strconv.Atoi batchSize') as [n'|] eqn:En'.
  - destruct (pc (run DialAddress ips n sched (init n))) eqn:Epc;
      try discriminate;
      destruct (pc (run DialAddress ips n' sched' (init n'))) eqn:Epc';
      try discriminate; intros E E'; injection E as <-; injection E' as <-.
    + destruct (run_returned ips n sched Epc) as [_ Hp].
      destruct (run_returned ips n' sched' Epc') as [_ Hp'].
      apply main_members_perm. now rewrite Hp, Hp'.
    + exfalso. destruct (run_returned ips n sched Epc) as [Hv _].
      apply run_fatal in Epc'.
      destruct Hbs as [Heq|[_ (m & Hm & Hv')]]; congruence.
    + exfalso. destruct (run_returned ips n' sched' Epc') as [Hv _].
      apply run_fatal in Epc.
      destruct Hbs as [Heq|[(m & Hm & Hv') _]]; congruence.
    + exact I.
  - exfalso. destruct Hbs as [Heq|[_ (m & Hm & _)]]; congruence.
  - exfalso. destruct Hbs as [Heq|[(m & Hm & _) _]]; congruence.
  - intros E E'. injection E as <-. injection E' as <-. exact I.
Qed.


End Program.

Lemma main_joins_exactly_witness :
  main.main_from (H:=sample.text) sample.dial sample.get_members
    sample.apply_config 10 sample.round_robin
    "10.0.0.0/29" "talosconfig" "worker.yaml" "4"
  = Some (Joined ["10.0.0.2"; "10.0.0.3"]
            [("10.0.0.2", Some JoinFailed); ("10.0.0.3", None)])
  /\ NoDup ["10.0.0.2"; "10.0.0.3"].
Proof.
  assert (main.main_from (H:=sample.text) sample.dial sample.get_members
            sample.apply_config 10 sample.round_robin
            "10.0.0.0/29" "talosconfig" "worker.yaml" "4"
          = Some (Joined ["10.0.0.2"; "10.0.0.3"]
                    [("10.0.0.2", Some JoinFailed); ("10.0.0.3", None)])) as E
      by (vm_compute; reflexivity).
  split; [exact E|].
  destruct (main_joins_exactly (H:=sample.text) sample.dial sample.get_members
              sample.apply_config 10 sample.round_robin
              "10.0.0.0/29" "talosconfig" "worker.yaml" "4"
              ["10.0.0.2"; "10.0.0.3"]
              [("10.0.0.2", Some JoinFailed); ("10.0.0.3", None)] E)
    as (ips & members & _ & _ & _ & _ & Hnd & _).
  exact Hnd.
Defined.

(** One run with batch size 4, one in which the worker of [10.0.0.3] is
    scheduled first, with the default batch size. *)
Lemma main_schedule_independent_witness :
  exit_equiv
    (Joined ["10.0.0.2"; "10.0.0.3"]
       [("10.0.0.2", Some JoinFailed); ("10.0.0.3", None)])
    (Joined ["10.0.0.3"; "10.0.0.2"]
       [("10.0.0.3", None); ("10.0.0.2", Some JoinFailed)]).
Proof.
  apply (main_schedule_independent (H:=sample.text) sample.dial
           sample.get_members sample.apply_config 10
           sample.round_robin
           ([Main; Main; Main; Main; Go 2; Go 2; Go 2; Go 2; Go 2]
              ++ sample.round_robin)
           "10.0.0.0/29" "talosconfig" "worker.yaml" "4" "-1").
  - right. split; eexists; (split; vm_compute; reflexivity).
  - vm_compute. reflexivity.
  - vm_compute. reflexivity.
Defined.


End program_props.

(* ===================================================================== *)
(** ** The table parser                                                   *)
(* ===================================================================== *)

Module table_props.
Import net notions probe talos strings.

Lemma Split_no_sep (sep : ascii) (s : string) :
  Index sep s = None -> Split sep s = [s].
Proof.
  induction s as [|c s IH]; [reflexivity|]. cbn [Index Split].
  destruct (Ascii.eqb c sep); [discriminate|].
  destruct (Index sep s); [discriminate|]. intros _. now rewrite IH.
Qed.

Lemma Split_with_sep (sep : ascii) (s : string) (i : nat) :
  Index sep s = Some i -> (2 <= length (Split sep s))%nat.
Proof.
  revert i. induction s as [|c s IH]; intros i; [discriminate|].
  cbn [Index Split]. destruct (Ascii.eqb c sep).
  - intros _. cbn [length].
    pose proof (cidrs_facts.Split_nonempty sep s) as Hne.
    destruct (Split sep s); [contradiction | cbn; lia].
  - destruct (Index sep s) as [j|]; [|discriminate]. intros _.
    specialize (IH j eq_refl).
    destruct (Split sep s) as [|x r]; cbn [length] in *; lia.
Qed.

Lemma Fields_empty_line (line : string) :
  String.eqb line EmptyString = true -> Fields line = [].
Proof. intros E. apply String.eqb_eq in E. now subst. Qed.

(** *** The address column *)

Lemma Index_app (c : ascii) (a b : string) :
  Index c (a ++ b)%string
  = match Index c a with
    | Some i => Some i
    | None => match Index c b with
              | Some j => Some (String.length a + j)%nat
              | None => None
              end
    end.
Proof.
  induction a as [|d a IH].
  - change ("" ++ b)%string with b. cbn [Index String.length].
    now destruct (Index c b).
  - change (String d a ++ b)%string with (String d (a ++ b)%string).
    cbn [Index String.length]. destruct (Ascii.eqb d c); [reflexivity|].
    rewrite IH. destruct (Index c a); [reflexivity|].
    now destruct (Index c b).
Qed.

Lemma append_assoc (a b c : string) :
  ((a ++ b) ++ c = a ++ (b ++ c))%string.
Proof.
  induction a as [|d a IH]; [reflexivity|].
  change ((String d a ++ b) ++ c)%string with (String d ((a ++ b) ++ c)%string).
  now rewrite IH.
Qed.

Lemma substring_skip (a b : string) (n m : nat) :
  String.substring (String.length a + n) m (a ++ b) = String.substring n m b.
Proof.
  induction a as [|d a IH]; [reflexivity|].
  change (String d a ++ b)%string with (String d (a ++ b)%string).
  cbn [String.length Nat.add String.substring]. exact IH.
Qed.

Lemma substring_prefix (b c : string) :
  String.substring 0 (String.length b) (b ++ c) = b.
Proof.
  induction b as [|d b IH].
  - change ("" ++ c)%string with c. cbn [String.length].
    now destruct c.
  - change (String d b ++ c)%string with (String d (b ++ c)%string).
    cbn [String.length String.substring]. now rewrite IH.
Qed.

Lemma Index_concat (c : ascii) (l : list string) :
  Ascii.eqb "," c = false ->
  Forall (fun x => Index c x = None) l ->
  Index c (String.concat "," l) = None.
Proof.
  intros Hc. induction 1 as [|x l Hx Hl IH]; [reflexivity|].
  cbn [String.concat]. destruct l as [|y l]; [exact Hx|].
  rewrite Index_app, Hx.
  change ("," ++ String.concat "," (y :: l))%string
    with (String "," (String.concat "," (y :: l))).
  cbn [Index]. rewrite Hc. now rewrite IH.
Qed.

Lemma Index_quoted (c : ascii) (a : string) :
  Ascii.eqb quote c = false -> Index c a = None -> Index c (quoted a) = None.
Proof.
  intros Hc Ha. unfold quoted. cbn [Index]. rewrite Hc, Index_app, Ha.
  cbn [Index]. now rewrite Hc.
Qed.

Lemma Split_concat (l : list string) :
  l <> [] -> Forall (fun x => Index "," x = None) l ->
  Split "," (String.concat "," l) = l.
Proof.
  intros Hne Hall. induction Hall as [|x l Hx Hl IH]; [contradiction|].
  cbn [String.concat]. destruct l as [|y l]; [now apply Split_no_sep|].
  change ("," ++ String.concat "," (y :: l))%string
    with (String "," (String.concat "," (y :: l))).
  rewrite enum_props.Split_app_sep, (Split_no_sep _ _ Hx), IH by discriminate.
  reflexivity.
Qed.

Lemma trimRight_snoc (f : ascii -> bool) (c : ascii) (s : string) :
  f c = true -> trimRight f (s ++ String c "") = trimRight f s.
Proof.
  intros Hc. induction s as [|d s IH].
  - change ("" ++ String c "")%string with (String c "").
    cbn [trimRight]. now rewrite Hc.
  - change (String d s ++ String c "")%string
      with (String d (s ++ String c "")%string).
    cbn [trimRight]. now rewrite IH.
Qed.

Lemma Trim_quoted (a : string) :
  Trim a quote_or_space = a -> Trim (quoted a) quote_or_space = a.
Proof.
  unfold Trim, quoted. intros Ha. cbn [trimRight].
  rewrite trimRight_snoc by reflexivity.
  change (quote_or_space quote) with true. cbv iota.
  destruct (trimRight quote_or_space a) as [|d r] eqn:Er.
  - cbn [trimLeft] in Ha |- *. exact Ha.
  - cbn [trimLeft]. change (quote_or_space quote) with true. cbv iota.
    exact Ha.
Qed.

(** X24. The address column reads back what the table prints: for a row
    whose text before the column has no bracket, the addresses taken
    from the row are the printed ones, in order, provided there is at
    least one and every one is free of commas and closing brackets and
    has no quote or space at its ends.  The empty list does not read
    back: a row with [[]] gets one address, the empty string. *)
Theorem table_addresses_reads_back (pre post : string) (addrs : list string) :
  Index "[" pre = None -> Index "]" pre = None ->
  (addrs <> [] -> Forall plain addrs ->
   table_addresses (pre ++ address_list addrs ++ post) = Some addrs)
  /\ table_addresses (pre ++ address_list [] ++ post) = Some [EmptyString].
Proof.
  intros Hpo Hpc.
  assert (forall body,
            Index "]" body = None ->
            table_addresses (pre ++ String "[" (body ++ "]") ++ post)
            = Some (map (fun addr => Trim addr quote_or_space) (Split "," body)))
    as Hgen.
  { intros body Hb. unfold table_addresses.
    change (String "[" (body ++ "]") ++ post)%string
      with (String "[" ((body ++ "]") ++ post)%string).
    rewrite !Index_app, Hpo, Hpc. cbn [Index].
    change (Ascii.eqb "[" "[") with true. change (Ascii.eqb "[" "]") with false.
    cbv iota. rewrite !Index_app, Hb.
    change ("]" ++ post)%string with (String "]" post). cbn [Index].
    change (Ascii.eqb "]" "]") with true. cbv iota.
    rewrite !Nat.add_0_r.
    destruct (_ <? _)%nat eqn:E; [apply Nat.ltb_lt in E; lia|].
    f_equal. f_equal. f_equal.
    replace (String.length pre + S (String.length body)
             - (String.length pre + 1))%nat with (String.length body) by lia.
    rewrite substring_skip. cbn [String.substring].
    rewrite append_assoc. apply substring_prefix. }
  split.
  - intros Hne Hall. unfold address_list. rewrite Hgen.
    + rewrite Split_concat.
      * rewrite map_map. rewrite <- (map_id addrs) at 2. f_equal.
        apply map_ext_Forall. eapply Forall_impl; [exact Hall|].
        intros a (_ & _ & Ha). now apply Trim_quoted.
      * now destruct addrs.
      * apply Forall_map. eapply Forall_impl; [exact Hall|].
        intros a (Ha & _ & _). now apply Index_quoted.
    + apply Index_concat; [reflexivity|].
      apply Forall_map. eapply Forall_impl; [exact Hall|].
      intros a (_ & Ha & _). now apply Index_quoted.
  - unfold address_list. cbn [map String.concat]. now rewrite Hgen.
Qed.

Lemma table_addresses_reads_back_witness :
  table_addresses
    ("10.3.5.10 cluster Member cp-1 3 cp-1 controlplane Talos "
     ++ address_list ["10.3.5.10"; "fdca::1"] ++ "")
  = Some ["10.3.5.10"; "fdca::1"].
Proof.
  refine (proj1 (table_addresses_reads_back
                   "10.3.5.10 cluster Member cp-1 3 cp-1 controlplane Talos "
                   "" ["10.3.5.10"; "fdca::1"] eq_refl eq_refl) _ _).
  - discriminate.
  - repeat constructor.
Defined.

Section Table.
Context `{TextLib}.
Variable unpack_Do : list string -> nat -> list string.

Local Abbreviation parseMembersTable := (talos.parseMembersTable unpack_Do).
Local Abbreviation parseMembersTable_loop :=
  (talos.parseMembersTable_loop unpack_Do).
Local Abbreviation table_member := (talos.table_member unpack_Do).

(** X21. On ASCII text, the table parser fails with "expected at least
    2 lines" exactly when the text, without the white space around it,
    has no line feed: an empty text, or a header without a row under it.
    With a line feed it never returns an error. *)
Theorem parseMembersTable_two_lines (data : string) :
  ascii_text data = true ->
  (Index "010" (TrimSpace data) = None ->
   parseMembersTable data
   = TableError "invalid output: expected at least 2 lines")
  /\ (Index "010" (TrimSpace data) <> None ->
      forall msg, parseMembersTable data <> TableError msg).
Proof.
  intros _. unfold talos.parseMembersTable, table_lines. split.
  - intros E. now rewrite (Split_no_sep _ _ E).
  - intros Hne msg. destruct (Index "010" (TrimSpace data)) as [i|] eqn:E;
      [|contradiction].
    apply Split_with_sep in E.
    destruct (length (Split "010" (TrimSpace data)) <? 2)%nat eqn:E2;
      [apply Nat.ltb_lt in E2; lia|].
    destruct (talos.parseMembersTable_loop _ _ _); discriminate.
Qed.

(** What the loop appends: one member per row with at least nine
    fields. *)
Lemma parseMembersTable_loop_rows (lines : list string) :
  forall acc out,
  parseMembersTable_loop lines acc = Some out ->
  exists new,
    out = acc ++ new
    /\ (length new <= length lines)%nat
    /\ Forall (fun m =>
         InternalIP m = extractInternalIP (Addresses m)
         /\ exists l, l ∈ lines
              /\ (9 <= length (Fields (TrimSpace l)))%nat
              /\ Node m = nth 0 (Fields (TrimSpace l)) EmptyString
              /\ table_addresses (TrimSpace l) = Some (Addresses m)) new.
Proof.
  induction lines as [|l lines IH]; intros acc out E;
    cbn [talos.parseMembersTable_loop] in E.
  - injection E as <-. exists []. rewrite app_nil_r.
    split; [reflexivity|]. split; [cbn; lia | constructor].
  - assert (forall new,
              Forall (fun m =>
                InternalIP m = extractInternalIP (Addresses m)
                /\ exists l', l' ∈ lines
                     /\ (9 <= length (Fields (TrimSpace l')))%nat
                     /\ Node m = nth 0 (Fields (TrimSpace l')) EmptyString
                     /\ table_addresses (TrimSpace l') = Some (Addresses m)) new ->
              Forall (fun m =>
                InternalIP m = extractInternalIP (Addresses m)
                /\ exists l', l' ∈ l :: lines
                     /\ (9 <= length (Fields (TrimSpace l')))%nat
                     /\ Node m = nth 0 (Fields (TrimSpace l')) EmptyString
                     /\ table_addresses (TrimSpace l') = Some (Addresses m)) new)
      as Hweak.
    { intros new Hf. eapply Forall_impl; [exact Hf|].
      intros m (Hi & l' & Hl' & Hrest).
      split; [exact Hi|]. exists l'. split; [now right | exact Hrest]. }
    destruct (String.eqb (TrimSpace l) EmptyString).
    { destruct (IH _ _ E) as (new & -> & Hlen & Hall).
      exists new. split; [reflexivity|]. split; [cbn; lia | now apply Hweak]. }
    destruct (length (Fields (TrimSpace l)) <? 9)%nat eqn:E9.
    { destruct (IH _ _ E) as (new & -> & Hlen & Hall).
      exists new. split; [reflexivity|]. split; [cbn; lia | now apply Hweak]. }
    apply Nat.ltb_ge in E9.
    destruct (table_addresses (TrimSpace l)) as [addresses|] eqn:Ea;
      [|discriminate].
    destruct (IH _ _ E) as (new & -> & Hlen & Hall).
    exists (table_member (Fields (TrimSpace l)) addresses :: new).
    split; [now rewrite <- app_assoc|]. split; [cbn; lia|].
    constructor; [|now apply Hweak].
    split; [reflexivity|]. exists l. split; [left|]. auto.
Qed.

(** X22. On ASCII text, the members the table parser returns come from
    the rows under the header: there are fewer members than lines; every
    member is taken from a row with at least nine fields, its node is
    the first field of the row and its addresses are those between the
    first brackets of the row; and its internal address is computed from
    these addresses as for the JSON format. *)
Theorem parseMembersTable_members_from_rows (data : string)
    (members : list Member) :
  ascii_text data = true ->
  parseMembersTable data = TableMembers members ->
  (length members < length (table_lines data))%nat
  /\ Forall (fun m =>
       InternalIP m = extractInternalIP (Addresses m)
       /\ exists l, l ∈ tail (table_lines data)
            /\ (9 <= length (Fields (TrimSpace l)))%nat
            /\ Node m = nth 0 (Fields (TrimSpace l)) EmptyString
            /\ table_addresses (TrimSpace l) = Some (Addresses m)) members.
Proof.
  intros _. unfold talos.parseMembersTable.
  destruct (length (table_lines data) <? 2)%nat eqn:E2; [discriminate|].
  apply Nat.ltb_ge in E2.
  destruct (talos.parseMembersTable_loop _ _ _) as [out|] eqn:E; [|discriminate].
  intros Hm. injection Hm as <-.
  apply parseMembersTable_loop_rows in E as (new & -> & Hlen & Hall).
  cbn [app]. split; [|exact Hall].
  destruct (table_lines data) as [|hd tl]; cbn [tail length] in *; lia.
Qed.

Lemma parseMembersTable_loop_panic (lines : list string) (l : string) :
  l ∈ lines ->
  (9 <= length (Fields (TrimSpace l)))%nat ->
  table_addresses (TrimSpace l) = None ->
  forall acc, parseMembersTable_loop lines acc = None.
Proof.
  intros Hin H9 Hp. induction lines as [|x lines IH]; intros acc;
    [inversion Hin|].
  cbn [talos.parseMembersTable_loop].
  apply elem_of_cons in Hin as [<- |Hin].
  - destruct (String.eqb (TrimSpace l) EmptyString) eqn:Ee.
    { rewrite (Fields_empty_line _ Ee) in H9. cbn in H9. lia. }
    destruct (length (Fields (TrimSpace l)) <? 9)%nat eqn:E9;
      [apply Nat.ltb_lt in E9; lia|].
    now rewrite Hp.
  - destruct (String.eqb (TrimSpace x) EmptyString); [now apply IH|].
    destruct (length (Fields (TrimSpace x)) <? 9)%nat; [now apply IH|].
    destruct (table_addresses (TrimSpace x)); [now apply IH | reflexivity].
Qed.

(** X23. On ASCII text, one row with at least nine fields in which the
    first closing bracket comes before the first opening bracket makes
    the table parser panic: the slice expression of line 164 has its
    bounds out of order, and no member of any row is returned. *)
Theorem parseMembersTable_panics (data l : string) (i j : nat) :
  ascii_text data = true ->
  l ∈ tail (table_lines data) ->
  (9 <= length (Fields (TrimSpace l)))%nat ->
  Index "[" (TrimSpace l) = Some i ->
  Index "]" (TrimSpace l) = Some j ->
  (j < i)%nat ->
  parseMembersTable data = TablePanic.
Proof.
  intros _ Hin H9 Hi Hj Hlt. unfold talos.parseMembersTable.
  destruct (length (table_lines data) <? 2)%nat eqn:E2.
  - apply Nat.ltb_lt in E2.
    destruct (table_lines data) as [|hd [|x tl]]; cbn [tail length] in *;
      [inversion Hin | inversion Hin | lia].
  - rewrite (parseMembersTable_loop_panic _ l Hin H9); [reflexivity|].
    unfold table_addresses. rewrite Hi, Hj.
    destruct (j <? i + 1)%nat eqn:E; [reflexivity|].
    apply Nat.ltb_ge in E. lia.
Qed.

End Table.

Lemma parseMembersTable_two_lines_witness :
  talos.parseMembersTable (H:=sample.text) sample.unpack_Do
    "NODE NAMESPACE TYPE ID VERSION HOSTNAME MACHINE OS ADDRESSES "
  = TableError "invalid output: expected at least 2 lines".
Proof.
  apply (proj1 (parseMembersTable_two_lines (H:=sample.text) sample.unpack_Do
                  "NODE NAMESPACE TYPE ID VERSION HOSTNAME MACHINE OS ADDRESSES "
                  eq_refl)).
  reflexivity.
Defined.

Lemma parseMembersTable_members_from_rows_witness :
  (1 < length (table_lines sample.table_text))%nat
  /\ talos.parseMembersTable (H:=sample.text) sample.unpack_Do sample.table_text
     = TableMembers
         [mkMember "10.3.5.10" "cluster" "Member" "cp-1" "3" "cp-1"
                   "controlplane" "Talos" ["10.3.5.10"] "10.3.5.10"].
Proof.
  assert (talos.parseMembersTable (H:=sample.text) sample.unpack_Do
            sample.table_text
          = TableMembers
              [mkMember "10.3.5.10" "cluster" "Member" "cp-1" "3" "cp-1"
                        "controlplane" "Talos" ["10.3.5.10"] "10.3.5.10"]) as E
      by (vm_compute; reflexivity).
  split; [|exact E].
  exact (proj1 (parseMembersTable_members_from_rows (H:=sample.text)
                  sample.unpack_Do sample.table_text _ eq_refl E)).
Defined.

Lemma parseMembersTable_panics_witness :
  talos.parseMembersTable (H:=sample.text) sample.unpack_Do sample.table_text_bad
  = TablePanic.
Proof.
  apply (parseMembersTable_panics (H:=sample.text) sample.unpack_Do
           sample.table_text_bad
           "10.3.5.10 cluster Member cp-1 3 cp-1 worker Talos ] [" 52 50).
  - reflexivity.
  - vm_compute. left.
  - vm_compute. lia.
  - vm_compute. reflexivity.
  - vm_compute. reflexivity.
  - lia.
Defined.

End table_props.
